(** * Support-bot core: decision logic, fact guard and ticket escalation

    A shallow embedding of the Python sources
    [core_bot_logic.py], [core_ai.py] and [core_bot_telegram.py],
    with the properties the design document states about them.

    Conventions.
    - A Python [str] is a sequence of Unicode code points: [ustr], a list of
      [N].  Literals are written as UTF-8 text and decoded by [u].
    - [time.time()] returns a float; timestamps are modelled as exact
      rationals ([Q]), so the comparisons of the source are exact here.
    - Everything the interpreter takes from its Unicode tables
      ([str.lower], the digit class, case-insensitive classes) is kept
      behind the interface [PyUnicode].
    - The answers of the Telegram API are kept behind the interface
      [Transport], the iteration order of a Python [set] behind [PySet].
    - The rows of the product query are [sqlite3.Row] objects, as
      [core_db.py] returns them; reading one with [r.get] raises. *)

From Stdlib Require Import String Ascii QArith Lqa DecimalString.
From Stdlib Require DecimalZ DecimalPos.
From stdpp Require Import base list sorting gmap.

Open Scope Z_scope.

(** ** Strings of code points *)

Abbreviation ustr := (list N).

(** UTF-8 decoding of a byte sequence, used only to write literals. *)
Fixpoint utf8_decode (bs : list N) : ustr :=
  match bs with
  | [] => []
  | b :: r =>
      if (b <? 128)%N then b :: utf8_decode r
      else if (b <? 224)%N then
        match r with
        | b1 :: r' => ((b - 192) * 64 + (b1 - 128))%N :: utf8_decode r'
        | _ => []
        end
      else if (b <? 240)%N then
        match r with
        | b1 :: b2 :: r' =>
            ((b - 224) * 4096 + (b1 - 128) * 64 + (b2 - 128))%N :: utf8_decode r'
        | _ => []
        end
      else
        match r with
        | b1 :: b2 :: b3 :: r' =>
            ((b - 240) * 262144 + (b1 - 128) * 4096 + (b2 - 128) * 64 + (b3 - 128))%N
              :: utf8_decode r'
        | _ => []
        end
  end.

Definition u (s : string) : ustr :=
  utf8_decode (map Ascii.N_of_ascii (String.list_ascii_of_string s)).

(** [str(n)] for a Python [int]. *)
Definition str_of_Z (n : Z) : ustr :=
  u (NilZero.string_of_int (Z.to_int n)).

(** The code points for which [str.isspace] holds; [str.strip()] and the
    pattern [\s] both use this set. *)
Definition is_space (c : N) : bool :=
  ((9 <=? c) && (c <=? 13) || (28 <=? c) && (c <=? 32) || (c =? 133) || (c =? 160)
   || (c =? 5760) || (8192 <=? c) && (c <=? 8202) || (c =? 8232) || (c =? 8233)
   || (c =? 8239) || (c =? 8287) || (c =? 12288))%N.

Fixpoint drop_while {A} (p : A -> bool) (l : list A) : list A :=
  match l with
  | [] => []
  | x :: r => if p x then drop_while p r else l
  end.

Definition lstrip (s : ustr) : ustr := drop_while is_space s.
Fixpoint rstrip (s : ustr) : ustr :=
  match s with
  | [] => []
  | c :: r =>
      match rstrip r with
      | [] => if is_space c then [] else [c]
      | r' => c :: r'
      end
  end.
Definition strip (s : ustr) : ustr := rstrip (lstrip s).

(** [w in s] for strings. *)
Fixpoint starts_with (w s : ustr) : bool :=
  match w, s with
  | [], _ => true
  | _ :: _, [] => false
  | a :: w', b :: s' => (a =? b)%N && starts_with w' s'
  end.
Fixpoint contains (w s : ustr) : bool :=
  starts_with w s ||
  match s with
  | [] => false
  | _ :: r => contains w r
  end.

(** [s.split(" ")]. *)
Fixpoint split_sp (s : ustr) : list ustr :=
  match s with
  | [] => [[]]
  | c :: r =>
      if (c =? 32)%N then [] :: split_sp r
      else match split_sp r with
           | w :: ws => (c :: w) :: ws
           | [] => [[c]]
           end
  end.

(** ** What the interpreter takes from its Unicode tables *)

Class PyUnicode := {
  (** [s.lower()] *)
  str_lower : ustr -> ustr;
  (** the code points that [lower] leaves alone *)
  lower_fixed : N -> bool;
  (** the code point matches [[a-zа-я0-9]] under [re.IGNORECASE] *)
  alnum_ic : N -> bool;
  (** the value of a decimal digit, for the class [\d] and for [int()] *)
  digit_value : N -> option Z;
  (** the class [\w] *)
  is_word : N -> bool;
  lower_out : forall s, Forall (fun c => lower_fixed c = true) (str_lower s);
  lower_stable : forall s, Forall (fun c => lower_fixed c = true) s -> str_lower s = s;
  lower_fixed_space : lower_fixed 32 = true;
  lower_fixed_ie : lower_fixed 1077 = true
}.

Definition is_digit `{PyUnicode} (c : N) : bool :=
  match digit_value c with Some _ => true | None => false end.

(** The tables for Basic Latin and Cyrillic, with the four Latin and the
    seven Cyrillic code points that case-insensitive matching adds to the
    ranges; every other code point is its own lower case, and the only
    digits are 0 to 9.  These tables agree with the interpreter on texts in
    Basic Latin and Cyrillic; they serve the closed examples only, and
    every general statement holds for all tables. *)
Definition in_range (a b c : N) : bool := ((a <=? c) && (c <=? b))%N.

Definition lower_char (c : N) : list N :=
  if in_range 65 90 c then [(c + 32)%N]
  else if in_range 1040 1071 c then [(c + 32)%N]
  else if in_range 1024 1039 c then [(c + 80)%N]
  else if (c =? 304)%N then [105%N; 775%N]
  else if (c =? 8490)%N then [107%N]
  else [c].

Definition lc_lower_fixed (c : N) : bool :=
  negb (in_range 65 90 c || in_range 1040 1071 c || in_range 1024 1039 c
        || (c =? 304)%N || (c =? 8490)%N).

Definition lc_alnum_ic (c : N) : bool :=
  in_range 97 122 c || in_range 65 90 c || in_range 1072 1103 c
  || in_range 1040 1071 c || in_range 48 57 c
  || (c =? 304)%N || (c =? 305)%N || (c =? 383)%N || (c =? 8490)%N
  || in_range 7296 7302 c.

Definition lc_digit_value (c : N) : option Z :=
  if in_range 48 57 c then Some (Z.of_N c - 48) else None.

Definition lc_is_word (c : N) : bool :=
  in_range 97 122 c || in_range 65 90 c || in_range 48 57 c || (c =? 95)%N
  || in_range 1024 1119 c || (c =? 304)%N || (c =? 305)%N || (c =? 383)%N
  || (c =? 8490)%N || in_range 7296 7302 c.

Ltac bool_to_prop :=
  repeat match goal with
    | H : _ && _ = true |- _ => apply andb_true_iff in H; destruct H
    | H : _ || _ = false |- _ => apply orb_false_iff in H; destruct H
    | H : _ && _ = false |- _ => apply andb_false_iff in H
    | H : _ || _ = true |- _ => apply orb_true_iff in H
    | H : negb _ = true |- _ => apply negb_true_iff in H
    | H : negb _ = false |- _ => apply negb_false_iff in H
    | H : (_ <=? _)%N = true |- _ => apply N.leb_le in H
    | H : (_ <=? _)%N = false |- _ => apply N.leb_gt in H
    | H : (_ =? _)%N = true |- _ => apply N.eqb_eq in H
    | H : (_ =? _)%N = false |- _ => apply N.eqb_neq in H
    end.

Lemma lc_fixed_iff c : lc_lower_fixed c = true ↔ lower_char c = [c].
Proof.
  unfold lc_lower_fixed, lower_char, in_range.
  destruct (65 <=? c)%N eqn:E1, (c <=? 90)%N eqn:E2, (1040 <=? c)%N eqn:E3,
    (c <=? 1071)%N eqn:E4, (1024 <=? c)%N eqn:E5, (c <=? 1039)%N eqn:E6,
    (c =? 304)%N eqn:E7, (c =? 8490)%N eqn:E8; simpl; bool_to_prop;
    split; intros Hx; try done; try lia; try (injection Hx; lia).
Qed.

Lemma lower_char_out c : Forall (fun d => lc_lower_fixed d = true) (lower_char c).
Proof.
  unfold lower_char, in_range.
  destruct (65 <=? c)%N eqn:E1, (c <=? 90)%N eqn:E2, (1040 <=? c)%N eqn:E3,
    (c <=? 1071)%N eqn:E4, (1024 <=? c)%N eqn:E5, (c <=? 1039)%N eqn:E6,
    (c =? 304)%N eqn:E7, (c =? 8490)%N eqn:E8; simpl; bool_to_prop;
    repeat constructor; try lia; unfold lc_lower_fixed, in_range;
    apply negb_true_iff; rewrite !orb_false_iff, !andb_false_iff,
      !N.leb_gt, !N.eqb_neq; lia.
Qed.

Lemma lc_lower_out s :
  Forall (fun c => lc_lower_fixed c = true) (flat_map lower_char s).
Proof.
  induction s as [|c s IH]; simpl; [constructor|].
  apply Forall_app. split; [apply lower_char_out|exact IH].
Qed.

Lemma lc_lower_stable s :
  Forall (fun c => lc_lower_fixed c = true) s → flat_map lower_char s = s.
Proof.
  induction 1 as [|c s Hc _ IH]; simpl; [done|].
  apply lc_fixed_iff in Hc. by rewrite Hc, IH.
Qed.

#[global] Instance latin_cyrillic : PyUnicode :=
  Build_PyUnicode (flat_map lower_char) lc_lower_fixed lc_alnum_ic lc_digit_value
    lc_is_word lc_lower_out lc_lower_stable eq_refl eq_refl.

(** ** Text normalisation (core_bot_logic.py) *)

Module Text.
Section WithTables.
Context `{PyUnicode}.

(** [s.replace("ё", "е")] *)
Definition replace_yo (s : ustr) : ustr :=
  map (fun c => if (c =? 1105)%N then 1077%N else c) s.

(** [re.sub(r"[^a-zа-я0-9\s]", " ", s, flags=re.IGNORECASE)] *)
Definition keep (c : N) : bool := is_space c || alnum_ic c.
Definition sub_noise (s : ustr) : ustr :=
  map (fun c => if keep c then c else 32%N) s.

(** [re.sub(r"\s+", " ", s)]: the space is written where a run ends. *)
Fixpoint collapse_ws (s : ustr) : ustr :=
  match s with
  | [] => []
  | c :: r =>
      if is_space c then
        match r with
        | c' :: _ => if is_space c' then collapse_ws r else 32%N :: collapse_ws r
        | [] => [32%N]
        end
      else c :: collapse_ws r
  end.

Definition normalize_text (s : ustr) : ustr :=
  let s := str_lower s in
  let s := replace_yo s in
  let s := sub_noise s in
  strip (collapse_ws s).

Definition tokenize (s : ustr) : list ustr :=
  let s := normalize_text s in
  filter (fun p => (2 <= length p)%nat) (split_sp s).

(** The alphabet of the tokens: letters and digits the pattern accepts, in
    lower case, with ё already replaced. *)
Definition canonical (c : N) : Prop :=
  alnum_ic c = true ∧ is_space c = false ∧ lower_fixed c = true ∧ c ≠ 1105%N.

(** No white space but single spaces. *)
Fixpoint tidy (l : ustr) : Prop :=
  match l with
  | [] => True
  | c :: r =>
      (is_space c = true →
       c = 32%N ∧ match r with c' :: _ => is_space c' = false | [] => True end)
      ∧ tidy r
  end.

End WithTables.
End Text.

(** ** The decision builder (core_bot_logic.py and [get_setting]) *)

Module Logic.
Import Text.

(** What [Decimal(str(price))] makes of the text of a price: a finite
    number; a quiet NaN, with the text that [format] prints for it; or
    nothing, when the constructor raises [InvalidOperation] or yields an
    infinity or a signalling NaN, on which [quantize] raises. *)
Inductive reading :=
| Number (v : Q)
| NotANumber (shown : ustr)
| Unreadable.

(** The value of the column [price]: [None] for NULL, or a value with the
    text [str(price)] and its reading as a decimal. *)
Inductive PriceValue :=
| NoPrice
| Priced (text : ustr) (dec : reading).

(** The columns of the table [products] that the decision builder reads,
    as the values of a dict. *)
Record Product := mkProduct {
  p_name : ustr;
  p_qty : Z;
  p_in_transit : Z;
  p_lead_time_days : Z;
  p_price : PriceValue
}.

(** A row as the builder meets it.  Its functions are declared on dicts
    and read a row with [r.get(...)]; the rows that [search_products]
    hands over are [sqlite3.Row] objects ([connect] sets the row factory),
    which can be subscripted but have no method [get]. *)
Inductive Row :=
| Dict (r : Product)
| SqlRow (r : Product).

(** The exceptions of the builder: the one of [r.get] on an [sqlite3.Row],
    and the one of [int()] on the text [arg]. *)
Inductive exn :=
| AttributeError
| ValueError (arg : ustr).

Inductive result (A : Type) :=
| Ok (a : A)
| Raise (e : exn).
Arguments Ok {A} a.
Arguments Raise {A} e.

#[global] Instance result_ret : MRet result := fun A a => Ok a.
#[global] Instance result_bind : MBind result := fun A B k m =>
  match m with
  | Ok a => k a
  | Raise e => Raise e
  end.

(** [r.get]: the dict behind the row, when there is one. *)
Definition as_dict (r : Row) : result Product :=
  match r with
  | Dict d => Ok d
  | SqlRow _ => Raise AttributeError
  end.

(** [datetime.time] *)
Record dtime := mkTime {
  hour : Z;
  minute : Z;
  second : Z;
  microsecond : Z
}.
Definition to_us (t : dtime) : Z :=
  ((hour t * 60 + minute t) * 60 + second t) * 1000000 + microsecond t.
Definition dtime_le (a b : dtime) : bool := to_us a <=? to_us b.

(** What the builder reads from outside: the table [settings], what the
    product query selects for a search text, the clock. *)
Record Env := mkEnv {
  settings : gmap ustr ustr;
  (** the columns of the rows that the query selects *)
  db_search : ustr -> bool -> Z -> list Product;
  clock_time : dtime;
  clock_stamp : ustr
}.

Inductive intent := Qty | InStock | Price | Delivery | Policy | NeedQty | General.
#[global] Instance intent_eq_dec : EqDecision intent.
Proof. solve_decision. Defined.

Record BotDecision := mkDecision {
  reply_text : ustr;
  ticket_needed : bool;
  ticket_summary : ustr;
  notify_main : bool;
  main_message : ustr;
  notify_admin : bool;
  admin_message : ustr
}.

Definition NET : ustr := Eval vm_compute in u "нет".
Definition GR : ustr := Eval vm_compute in u " гр.".
Definition MORE_THAN_10 : ustr := Eval vm_compute in u "Больше 10".
Definition GREETING : ustr := Eval vm_compute in
  u "Здравствуйте. Напишите название товара или модель. Я подскажу цену и наличие.".
Definition FORWARDED : ustr := Eval vm_compute in
  u "Я бот программы автоответов. К сожалению, не могу дать ответ на ваш вопрос. Я уже отправил ваш вопрос оператору, он ответит в рабочее время.".
Definition OUTSIDE_HOURS : ustr := Eval vm_compute in
  u "Я бот программы автоответов. Я передал ваш вопрос оператору, он ответит в рабочее время.".
Definition CLARIFY : ustr := Eval vm_compute in
  u "Уточните, какой вариант нужен. Ответьте номером из списка." ++ [10%N].
Definition YES : ustr := Eval vm_compute in u "Да".
Definition NO : ustr := Eval vm_compute in u "Нет".
Definition ENOUGH : ustr := Eval vm_compute in u "Да, такое количество есть".
Definition NOT_ENOUGH : ustr := Eval vm_compute in
  u "К сожалению, такого количества нет. В наличии ".
Definition IN_STOCK : ustr := Eval vm_compute in u "Есть в наличии".
Definition NEXT_ARRIVAL : ustr := Eval vm_compute in
  u "Сейчас товара нет. Ориентировочно следующий приход через ".
Definition DAYS : ustr := Eval vm_compute in
  u " дней. Напишите, я сообщу, когда появится.".
Definition UNKNOWN_ARRIVAL : ustr := Eval vm_compute in
  u "Извините, товара нет в наличии. К сожалению, сейчас не могу сказать, будет ли он еще.".
Definition greetings : list ustr := Eval vm_compute in
  [u "привет"; u "здравствуйте"; u "добрый"; u "доброго"; u "доброе"; u "хай";
   u "hello"; u "спасибо"; u "благодарю"].
Definition words_qty : list ustr := Eval vm_compute in
  [u "сколько"; u "количество"; u "ск-ко"].
Definition words_in_stock : list ustr := Eval vm_compute in
  [u "есть"; u "налич"; u "в наличии"; u "есть ли"].
Definition words_price : list ustr := Eval vm_compute in
  [u "цена"; u "сто"; u "сколько стоит"; u "почем"].
Definition words_delivery : list ustr := Eval vm_compute in
  [u "доставка"; u "когда придет"; u "когда будет"; u "привез"; u "срок"; u "приход"].
Definition words_policy : list ustr := Eval vm_compute in
  [u "гарант"; u "возврат"; u "обмен"; u "брак"; u "не работает"; u "полом"].
Definition words_need : list ustr := Eval vm_compute in
  [u "надо"; u "нужно"; u "хочу"; u "возьму"; u "беру"; u "закажу"; u "заказать";
   u "куплю"; u "купить"].
Definition KEY_START : ustr := Eval vm_compute in u "work_start_hhmm".
Definition KEY_END : ustr := Eval vm_compute in u "work_end_hhmm".
Definition KEY_LARGE : ustr := Eval vm_compute in u "large_order_qty".
Definition DEFAULT_START : ustr := Eval vm_compute in u "09:00".
Definition DEFAULT_END : ustr := Eval vm_compute in u "18:00".
Definition TEN : ustr := Eval vm_compute in u "10".
Definition MODE_AI : ustr := Eval vm_compute in u "ai".
Definition MODE_OPERATOR : ustr := Eval vm_compute in u "operator".

(** [get_setting] of core_db.py: the stored value, or the default when the
    key has no row. *)
Definition get_setting (env : Env) (key default : ustr) : ustr :=
  match settings env !! key with
  | Some v => v
  | None => default
  end.

(** [search_products] of core_db.py, up to the query itself: the result of
    [cur.fetchall()] on a connection whose row factory is [sqlite3.Row]. *)
Definition search_products (env : Env) (query : ustr) (everywhere : bool) (limit : Z)
    : list Row :=
  match strip query with
  | [] => []
  | q => SqlRow <$> db_search env q everywhere limit
  end.

(** [Decimal(...).quantize(Decimal("0.01"), rounding=ROUND_HALF_UP)], in
    hundredths. *)
Definition round_half_up (q : Q) : Z :=
  let n := Qnum q in
  let d := Zpos (Qden q) in
  Z.sgn n * ((2 * Z.abs n + d) / (2 * d)).

Definition two_digits (n : Z) : ustr :=
  if n <? 10 then [48%N] ++ str_of_Z n else str_of_Z n.

(** [format_uah].  [quantize] raises [InvalidOperation] when the result
    would have more than 28 digits, the precision of the default context;
    the text of the price is then returned as it is. *)
Definition format_uah (price : PriceValue) : ustr :=
  match price with
  | NoPrice => NET
  | Priced text dec =>
      match strip text with
      | [] => NET
      | _ =>
          match dec with
          | Unreadable => text
          | NotANumber shown => shown ++ GR
          | Number p =>
              let cents := round_half_up (p * 100) in
              if 10 ^ 28 <=? Z.abs cents then text
              else if Z.rem cents 100 =? 0 then str_of_Z (Z.quot cents 100) ++ GR
              else (if cents <? 0 then [45%N] else []) ++ str_of_Z (Z.abs cents / 100)
                   ++ [44%N] ++ two_digits (Z.abs cents mod 100) ++ GR
          end
      end
  end.

Definition product_line (r : Product) : ustr :=
  p_name r ++ u " - " ++ format_uah (p_price r).

Definition qty_to_public (qty : Z) : ustr :=
  if qty <=? 0 then [48%N]
  else if qty <=? 10 then str_of_Z qty
  else MORE_THAN_10.

Fixpoint join (sep : ustr) (l : list ustr) : ustr :=
  match l with
  | [] => []
  | [x] => x
  | x :: r => x ++ sep ++ join sep r
  end.

(** The states of a scan for [\b(\d{1,k})\b]: after a non-word code point
    (or at the start), inside a word, inside a run of digits that began at
    a word boundary. *)
Inductive wstate :=
| NonWord
| InWord
| Run (cur : ustr).

Section WithTables.
Context `{PyUnicode}.

Definition word (c : N) : bool := is_word c || is_digit c.

Definition emit_run (k : nat) (cur : ustr) : list ustr :=
  if (length cur <=? k)%nat then [cur] else [].

Fixpoint scan_bounded (k : nat) (st : wstate) (s : ustr) : list ustr :=
  match s with
  | [] =>
      match st with
      | Run cur => emit_run k cur
      | _ => []
      end
  | c :: r =>
      match st with
      | NonWord =>
          if is_digit c then scan_bounded k (Run [c]) r
          else if word c then scan_bounded k InWord r
          else scan_bounded k NonWord r
      | InWord =>
          if word c then scan_bounded k InWord r else scan_bounded k NonWord r
      | Run cur =>
          if is_digit c then scan_bounded k (Run (cur ++ [c])) r
          else if word c then scan_bounded k InWord r
          else emit_run k cur ++ scan_bounded k NonWord r
      end
  end.

(** [int(s)] on a string of digits. *)
Definition int_of_digits (ds : ustr) : option Z :=
  foldl (fun acc c =>
           match acc, digit_value c with
           | Some a, Some v => Some (a * 10 + v)
           | _, _ => None
           end) (Some 0) ds.

(** [int(s)] on any string: white space around, a sign, digits with single
    underscores between them; [None] when [int] raises [ValueError]. *)
Fixpoint digits_us (acc : Z) (after_digit : bool) (s : ustr) : option Z :=
  match s with
  | [] => if after_digit then Some acc else None
  | c :: r =>
      match digit_value c with
      | Some v => digits_us (acc * 10 + v) true r
      | None =>
          if (c =? 95)%N && after_digit then digits_us acc false r else None
      end
  end.
Definition py_int_of_str (s : ustr) : option Z :=
  match strip s with
  | 45%N :: r => Z.opp <$> digits_us 0 false r
  | 43%N :: r => digits_us 0 false r
  | r => digits_us 0 false r
  end.

Definition parse_time_hhmm (s : ustr) : option dtime :=
  let s := strip s in
  let m :=
    match s with
    | [a; c; m1; m2] =>
        if (c =? 58)%N && is_digit a && is_digit m1 && is_digit m2
        then Some ([a], [m1; m2]) else None
    | [a; b; c; m1; m2] =>
        if (c =? 58)%N && is_digit a && is_digit b && is_digit m1 && is_digit m2
        then Some ([a; b], [m1; m2]) else None
    | _ => None
    end in
  match m with
  | None => None
  | Some (g1, g2) =>
      match int_of_digits g1, int_of_digits g2 with
      | Some hh, Some mm =>
          if (hh <? 0) || (23 <? hh) || (mm <? 0) || (59 <? mm) then None
          else Some (mkTime hh mm 0 0)
      | _, _ => None
      end
  end.

Definition is_within_work_hours (env : Env) : bool :=
  let start_s := get_setting env KEY_START DEFAULT_START in
  let end_s := get_setting env KEY_END DEFAULT_END in
  match parse_time_hhmm start_s, parse_time_hhmm end_s with
  | Some st, Some en =>
      let now := clock_time env in
      if dtime_le st en then dtime_le st now && dtime_le now en
      else dtime_le st now || dtime_le now en
  | _, _ => true
  end.

Definition any_in (ws : list ustr) (qn : ustr) : bool :=
  existsb (fun w => contains w qn) ws.

Definition is_greeting (q : ustr) : bool :=
  let qn := normalize_text q in
  any_in greetings qn.

Definition extract_requested_qty (q : ustr) : option Z :=
  let qn := normalize_text q in
  match scan_bounded 4 NonWord qn with
  | [] => None
  | n0 :: _ =>
      match int_of_digits n0 with
      | None => None
      | Some n => if n <=? 0 then None else Some n
      end
  end.

Definition detect_intent (q : ustr) : intent :=
  let qn := normalize_text q in
  if any_in words_qty qn then Qty
  else if any_in words_in_stock qn then InStock
  else if any_in words_price qn then Price
  else if any_in words_delivery qn then Delivery
  else if any_in words_policy qn then Policy
  else
    match extract_requested_qty q with
    | Some _ => if any_in words_need qn then NeedQty else General
    | None => General
    end.

(** [list.sort(key=..., reverse=True)]: stable, largest score first. *)
Fixpoint insert_desc (x : Z * Product) (l : list (Z * Product)) : list (Z * Product) :=
  match l with
  | [] => [x]
  | y :: r => if y.1 <=? x.1 then x :: l else y :: insert_desc x r
  end.
Definition sort_desc (l : list (Z * Product)) : list (Z * Product) :=
  foldr insert_desc [] l.

Definition nonempty_str (s : ustr) : bool :=
  match s with [] => false | _ => true end.

Definition score (qn : ustr) (qt : list ustr) (r : Product) : Z :=
  let name := p_name r in
  let nn := normalize_text name in
  let nt_set : gset ustr := list_to_set (tokenize name) in
  let score := 0 in
  let score := if nonempty_str qn && contains qn nn then score + 60 else score in
  let overlap := Z.of_nat (size ((list_to_set qt : gset ustr) ∩ nt_set)) in
  let score := score + overlap * 12 in
  foldl (fun sc t => if contains t nn then sc + 4 else sc) score qt.

(** [best_match_from_rows] on rows of its declared type, dicts. *)
Definition best_match_from_rows (q : ustr) (rows : list Product)
    : option Product * list Product :=
  match rows with
  | [] => (None, [])
  | r0 :: _ =>
      let qt := tokenize q in
      match qt with
      | [] => (Some r0, take 5 rows)
      | _ =>
          let qn := normalize_text q in
          let scored := map (fun r => (score qn qt r, r)) rows in
          let scored := sort_desc scored in
          (snd <$> head scored, map snd (take 5 scored))
      end
  end.

(** The call [best_match_from_rows(q, rows)] on rows of any kind: an empty
    result and a query without tokens return before a row is read; the
    scoring loop reads every row with [r.get]. *)
Definition best_match_of (q : ustr) (rows : list Row) : result (option Row * list Row) :=
  match rows with
  | [] => Ok (None, [])
  | r0 :: _ =>
      match tokenize q with
      | [] => Ok (Some r0, take 5 rows)
      | _ =>
          ds ← mapM as_dict rows;
          let '(best, top) := best_match_from_rows q ds in
          Ok (Dict <$> best, Dict <$> top)
      end
  end.

Fixpoint dedupe (seen : list ustr) (l : list ustr) : list ustr :=
  match l with
  | [] => []
  | x :: r =>
      match x with
      | [] => dedupe seen r
      | _ => if bool_decide (x ∈ seen) then dedupe seen r
             else x :: dedupe (x :: seen) r
      end
  end.

Definition semantic_expand_queries (q : ustr) : list ustr :=
  let toks := filter (fun t => (3 <= length t)%nat) (tokenize q) in
  let out :=
    match toks with
    | [] => []
    | _ => join [32%N] toks :: take 5 toks
    end in
  let nums := scan_bounded 6 NonWord (normalize_text q) in
  let out := out ++ take 3 nums in
  take 8 (dedupe [] out).

Definition summary_row (r : Product) : ustr :=
  u "- " ++ product_line r ++ u "; остаток " ++ str_of_Z (p_qty r)
  ++ u "; в пути " ++ str_of_Z (p_in_transit r)
  ++ u "; lead " ++ str_of_Z (p_lead_time_days r).

Definition build_ticket_summary (platform customer_text : ustr)
    (found : list Product) (bot_text : ustr) : ustr :=
  let lines := [u "Help," ++ platform ++ u ", вопрос клиента: " ++ customer_text] in
  let lines :=
    match found with
    | [] => lines ++ [u "В базе не найдено совпадений."]
    | _ => lines ++ [u "Найдено в базе:"] ++ map summary_row (take 5 found)
    end in
  let lines := lines ++ [u "Ответ бота клиенту: " ++ bot_text] in
  let lines := lines ++ [u "Поставьте + если берете в работу."] in
  join [10%N] lines.

Definition build_admin_large_order (env : Env) (platform customer_text : ustr)
    (found : option Product) (requested_qty : Z) : ustr :=
  let line := match found with Some r => product_line r | None => u "Товар не определен" end in
  u "Info," ++ platform ++ u ", крупный запрос." ++ [10%N]
  ++ u "Клиент хочет: " ++ str_of_Z requested_qty ++ u " шт." ++ [10%N]
  ++ u "Запрос: " ++ customer_text ++ [10%N]
  ++ u "Позиция: " ++ line ++ [10%N]
  ++ u "Время: " ++ clock_stamp env.

Definition empty_decision : BotDecision := mkDecision [] false [] false [] false [].
Definition reply (txt : ustr) : BotDecision := mkDecision txt false [] false [] false [].
Definition with_ticket (txt summ : ustr) : BotDecision :=
  mkDecision txt true summ false [] false [].

(** The three searches at the start of the builder. *)
Fixpoint first_found (env : Env) (qs : list ustr) : list Row :=
  match qs with
  | [] => []
  | qq :: r =>
      match search_products env qq true 30 with
      | [] => first_found env r
      | rows => rows
      end
  end.
Definition find_rows (env : Env) (q : ustr) : list Row :=
  match search_products env q false 30 with
  | [] =>
      match search_products env q true 30 with
      | [] => first_found env (semantic_expand_queries q)
      | rows => rows
      end
  | rows => rows
  end.

Fixpoint numbered (i : Z) (rs : list Product) : list ustr :=
  match rs with
  | [] => []
  | r :: rest => (str_of_Z i ++ u ". " ++ product_line r) :: numbered (i + 1) rest
  end.

Definition is_vague (i : intent) : bool :=
  match i with General | Policy => true | _ => false end.

Definition template (i : intent) (requested_qty : option Z) (best : Product) : ustr :=
  let qty := p_qty best in
  let in_transit := p_in_transit best in
  let lead := p_lead_time_days best in
  match i with
  | Price => product_line best
  | InStock => if 0 <? qty then YES else NO
  | Qty => qty_to_public qty
  | NeedQty =>
      let need := match requested_qty with Some n => n | None => 0 end in
      if (0 <? need) && (need <=? qty) then ENOUGH
      else if (0 <? need) && (qty <? need) then
        NOT_ENOUGH ++ qty_to_public qty ++ [46%N]
      else product_line best
  | Delivery =>
      if 0 <? qty then IN_STOCK
      else if (0 <? in_transit) && (0 <? lead) then
        NEXT_ARRIVAL ++ str_of_Z lead ++ [44%N] ++ str_of_Z (lead + 3) ++ DAYS
      else UNKNOWN_ARRIVAL
  | Policy | General => product_line best
  end.

(** [handle_customer_message].  The functions it calls on the rows of the
    query ([best_match_from_rows], [product_line], [build_ticket_summary],
    [build_admin_large_order]) and its own [best.get(...)] read a row with
    [r.get]: [as_dict] stands at each of these places. *)
Definition handle_customer_message (env : Env) (platform customer_text mode : ustr)
    : result BotDecision :=
  let q := strip customer_text in
  match q with
  | [] => Ok empty_decision
  | _ =>
  let mode := str_lower (strip (match mode with [] => MODE_AI | _ => mode end)) in
  if is_greeting q then Ok (reply GREETING)
  else if bool_decide (mode = MODE_OPERATOR) then
    Ok (with_ticket FORWARDED (build_ticket_summary platform q [] FORWARDED))
  else
    let within := is_within_work_hours env in
    let intent := detect_intent q in
    let requested_qty :=
      match intent with NeedQty => extract_requested_qty q | _ => None end in
    let rows := find_rows env q in
    match rows with
    | [] => Ok (with_ticket FORWARDED (build_ticket_summary platform q [] FORWARDED))
    | _ =>
    bt ← best_match_of q rows;
    match bt with
    | (None, _) =>
        Ok (with_ticket FORWARDED (build_ticket_summary platform q [] FORWARDED))
    | (Some best, top) =>
        let qn := normalize_text q in
        if (2 <=? length top)%nat && ((length qn <=? 4)%nat || is_vague intent) then
          ds ← mapM as_dict (take 5 top);
          let txt := CLARIFY ++ join [10%N] (numbered 1 ds) in
          let soft := build_ticket_summary platform q ds txt in
          Ok (mkDecision txt false [] true soft false [])
        else if bool_decide (intent = Policy) && negb within then
          d ← as_dict best;
          Ok (with_ticket OUTSIDE_HOURS
                (build_ticket_summary platform q [d] OUTSIDE_HOURS))
        else
          d ← as_dict best;
          let txt := template intent requested_qty d in
          let out := reply txt in
          match intent, requested_qty with
          | NeedQty, Some rq =>
              let raw := get_setting env KEY_LARGE TEN in
              let raw := match raw with [] => TEN | _ => raw end in
              match py_int_of_str raw with
              | None => Raise (ValueError raw)
              | Some threshold =>
                  if threshold <=? rq then
                    Ok (mkDecision txt false [] false [] true
                          (build_admin_large_order env platform q (Some d) rq))
                  else Ok out
              end
          | _, _ => Ok out
          end
    end
    end
  end.

End WithTables.

(** A small store for the examples: the query keeps the products whose
    lower-cased name contains the lower-cased search text. *)
Definition demo_search (catalog : list Product) (q : ustr) (everywhere : bool) (limit : Z)
    : list Product :=
  take (Z.to_nat limit)
    (filter (fun r => contains (str_lower q) (str_lower (p_name r)) = true) catalog).

Definition demo_env (catalog : list Product) (kv : list (ustr * ustr)) (now : dtime) : Env :=
  mkEnv (list_to_map kv) (demo_search catalog) now (u "2024-01-01 12:00:00").

Definition nokia (qty : Z) : Product :=
  mkProduct (u "Nokia 1280 black") qty 0 0 (Priced (u "450.0") (Number 450)).

End Logic.

(** ** The fact guard (core_ai.py) *)

Module AI.

Definition WARN : ustr := Eval vm_compute in u "WARN".
Definition MSG_NUMBERS : ustr := Eval vm_compute in
  u "Deepseek попытался вывести числа, которых нет в фактах. Использую строгий ответ".
Definition MSG_BANNED : ustr := Eval vm_compute in
  u "Deepseek использовал запрещенные слова. Использую строгий ответ".
Definition MSG_EMPTY : ustr := Eval vm_compute in
  u "Deepseek вернул пустой ответ. Использую строгий ответ".
Definition banned : list ustr := Eval vm_compute in
  [u "возможно"; u "примерно"; u "скорее всего"].

(** The states of a left-to-right scan for [\d+(?:[.,]\d+)?]: outside a
    match, inside the integer part, just after a separator that may start a
    fraction, inside the fraction. *)
Inductive scan :=
| Out
| Int (cur : ustr)
| Sep (cur : ustr) (sep : N)
| Frac (cur : ustr).

Definition is_sep (c : N) : bool := ((c =? 46) || (c =? 44))%N.

Section WithTables.
Context `{PyUnicode}.

Fixpoint scan_numbers (st : scan) (s : ustr) : list ustr :=
  match s with
  | [] =>
      match st with
      | Out => []
      | Int cur | Sep cur _ | Frac cur => [cur]
      end
  | c :: r =>
      match st with
      | Out => if is_digit c then scan_numbers (Int [c]) r else scan_numbers Out r
      | Int cur =>
          if is_digit c then scan_numbers (Int (cur ++ [c])) r
          else if is_sep c then scan_numbers (Sep cur c) r
          else cur :: scan_numbers Out r
      | Sep cur sep =>
          if is_digit c then scan_numbers (Frac (cur ++ [sep; c])) r
          else cur :: scan_numbers Out r
      | Frac cur =>
          if is_digit c then scan_numbers (Frac (cur ++ [c])) r
          else cur :: scan_numbers Out r
      end
  end.

(** [re.findall(r"\d+(?:[.,]\d+)?", text)] *)
Definition extract_numbers (text : ustr) : list ustr := scan_numbers Out text.

(** The answer, and what is passed to the logger. *)
Definition safe_ai_answer_or_fallback (ai_text facts_text fallback_text : ustr)
    : ustr * list (ustr * ustr) :=
  let facts_nums : gset ustr := list_to_set (extract_numbers facts_text) in
  let ai_nums : gset ustr := list_to_set (extract_numbers ai_text) in
  if (0 <? size (ai_nums ∖ facts_nums))%nat then
    (fallback_text, [(WARN, MSG_NUMBERS)])
  else
    let low := str_lower ai_text in
    if existsb (fun w => contains w low) banned then
      (fallback_text, [(WARN, MSG_BANNED)])
    else
      let t := strip ai_text in
      match t with
      | [] => (fallback_text, [(WARN, MSG_EMPTY)])
      | _ => (t, [])
      end.

(** When the guard turns a candidate down, in the words of the design. *)
Definition rejected (ai_text facts_text : ustr) : Prop :=
  (∃ n, n ∈ extract_numbers ai_text ∧ n ∉ extract_numbers facts_text) ∨
  (∃ w, w ∈ banned ∧ contains w (str_lower ai_text) = true) ∨
  strip ai_text = [].

End WithTables.
End AI.

(** [int(x)] for a float [x]: truncation towards zero. *)
Definition py_int (q : Q) : Z := Z.quot (Qnum q) (Zpos (Qden q)).

(** ** Tickets (core_bot_telegram.py) *)

Module Tickets.

Record Ticket := mkTicket {
  ticket_id : ustr;
  platform : ustr;
  customer_chat_id : Z;
  customer_text : ustr;
  summary : ustr;
  created_ts : Q;
  claimed_by : option Z;
  last_ping_ts : Q;
  stage : Z;
  resolved : bool
}.

Definition set_claimed_by (v : option Z) (t : Ticket) : Ticket :=
  mkTicket (ticket_id t) (platform t) (customer_chat_id t) (customer_text t)
    (summary t) (created_ts t) v (last_ping_ts t) (stage t) (resolved t).
Definition set_last_ping_ts (v : Q) (t : Ticket) : Ticket :=
  mkTicket (ticket_id t) (platform t) (customer_chat_id t) (customer_text t)
    (summary t) (created_ts t) (claimed_by t) v (stage t) (resolved t).
Definition set_stage (v : Z) (t : Ticket) : Ticket :=
  mkTicket (ticket_id t) (platform t) (customer_chat_id t) (customer_text t)
    (summary t) (created_ts t) (claimed_by t) (last_ping_ts t) v (resolved t).
Definition set_resolved (v : bool) (t : Ticket) : Ticket :=
  mkTicket (ticket_id t) (platform t) (customer_chat_id t) (customer_text t)
    (summary t) (created_ts t) (claimed_by t) (last_ping_ts t) (stage t) v.

(** The three operator lists that [_load_ops] reads from the settings on
    every call. *)
Record Ops := mkOps {
  ops_main : list Z;
  ops_all : list Z;
  ops_admin : list Z
}.

(** What the runner does to the outside: a [sendMessage] request and a
    call of the logger. *)
Inductive event :=
| Sent (chat_id : Z) (text : ustr)
| Logged (level : ustr) (msg : ustr).

(** The outside world: [wall n] is what the [n]-th call of [time.time()]
    returns, [ticks] counts the calls made so far, [trace] collects the
    events, oldest first. *)
Record World := mkWorld {
  wall : nat -> Q;
  ticks : nat;
  trace : list event
}.

(** [self._tickets]: Ticket objects live in [heap] and are named by their
    index; the dict maps ids to objects, in insertion order. *)
Record Store := mkStore {
  heap : list Ticket;
  tickets : list (ustr * nat)
}.

Definition M (A : Type) : Type := World -> A * World.
Definition ret {A} (a : A) : M A := fun w => (a, w).
Definition bind {A B} (k : A -> M B) (m : M A) : M B :=
  fun w => let (a, w') := m w in k a w'.
#[global] Instance M_ret : MRet M := @ret.
#[global] Instance M_bind : MBind M := @bind.

Definition time_time : M Q :=
  fun w => (wall w (ticks w), mkWorld (wall w) (S (ticks w)) (trace w)).
Definition emit (e : event) : M unit :=
  fun w => (tt, mkWorld (wall w) (ticks w) (trace w ++ [e])).
Definition logger (level msg : ustr) : M unit := emit (Logged level msg).

Fixpoint for_each {A} (l : list A) (f : A -> M unit) : M unit :=
  match l with
  | [] => ret tt
  | x :: r => f x ;; for_each r f
  end.

Definition INFO : ustr := Eval vm_compute in u "INFO".
Definition WARN : ustr := Eval vm_compute in u "WARN".
Definition ERROR : ustr := Eval vm_compute in u "ERROR".

Definition BOT_ : ustr := Eval vm_compute in u "Bot:" ++ [10%N].

Definition _bot_prefix (text : ustr) : ustr :=
  let t := strip text in
  match t with
  | [] => []
  | _ => BOT_ ++ t
  end.

(** What comes back from [self._session.post]: a response with its
    status code and text, or an exception with its message. *)
Inductive answer :=
| Response (status_code : Z) (text : ustr)
| Failure (e : ustr).

(** The transport is outside the program: [post tr] is what it answers to
    the request that the trace [tr] ends with. *)
Class Transport := { post : list event -> answer }.

Definition request `{Transport} : M answer := fun w => (post (trace w), w).

Definition SEND_HTTP : ustr := Eval vm_compute in u "Telegram sendMessage HTTP ".
Definition SEND_ERROR : ustr := Eval vm_compute in u "Telegram sendMessage ошибка: ".
Definition COLON_ : ustr := Eval vm_compute in u ": ".

(** [_send]: nothing is requested for an empty text; an answer other than
    200 and an exception are logged, and the caller goes on. *)
Definition _send `{Transport} (chat_id : Z) (text : ustr) : M unit :=
  match text with
  | [] => ret tt
  | _ =>
      emit (Sent chat_id text);;
      r ← request;
      match r with
      | Response status_code body =>
          if status_code =? 200 then ret tt
          else logger ERROR (SEND_HTTP ++ str_of_Z status_code ++ COLON_ ++ take 200 body)
      | Failure e => logger ERROR (SEND_ERROR ++ e)
      end
  end.

(** Assignment [d[k] = v] on an insertion-ordered dict. *)
Fixpoint dict_set {V} (k : ustr) (v : V) (d : list (ustr * V)) : list (ustr * V) :=
  match d with
  | [] => [(k, v)]
  | (k', v') :: r =>
      if decide (k' = k) then (k, v) :: r else (k', v') :: dict_set k v r
  end.

Definition _create_ticket (platform : ustr) (customer_chat_id : Z)
    (customer_text summary : ustr) (s : Store) : M (ustr * Store) :=
  t1 ← time_time;
  let tid := str_of_Z (py_int t1) ++ u "_" ++ str_of_Z customer_chat_id in
  t2 ← time_time;
  let t := mkTicket tid platform customer_chat_id customer_text summary
             t2 None 0 0 false in
  ret (tid, mkStore (heap s ++ [t]) (dict_set tid (length (heap s)) (tickets s))).

(** [self._tickets.values()], as the objects themselves. *)
Definition values (s : Store) : list nat := map snd (tickets s).

Definition is_open (h : list Ticket) (r : nat) : bool :=
  match h !! r with
  | Some t => negb (resolved t) && bool_decide (claimed_by t = None)
  | None => false
  end.

Definition key_of (h : list Ticket) (r : nat) : Q :=
  match h !! r with
  | Some t => created_ts t
  | None => 0
  end.

(** [list.sort(key=...)] is stable: an element goes in front of the first
    one whose key is not smaller. *)
Fixpoint insert_by (key : nat -> Q) (x : nat) (l : list nat) : list nat :=
  match l with
  | [] => [x]
  | y :: r =>
      if Qle_bool (key x) (key y) then x :: l else y :: insert_by key x r
  end.
Definition sort_by (key : nat -> Q) (l : list nat) : list nat :=
  foldr (insert_by key) [] l.

Definition _claim_oldest (operator_chat_id : Z) (s : Store) : option nat * Store :=
  let open_tickets := filter (fun r => is_open (heap s) r = true) (values s) in
  let open_tickets := sort_by (key_of (heap s)) open_tickets in
  match open_tickets with
  | [] => (None, s)
  | r :: _ =>
      (Some r,
       mkStore (alter (set_claimed_by (Some operator_chat_id)) r (heap s)) (tickets s))
  end.

Definition _ping_ticket_stage `{Transport} (t : Ticket) (target_ids : list Z) : M Ticket :=
  for_each target_ids (fun cid => _send cid (summary t));;
  now ← time_time;
  ret (set_last_ping_ts now t).

(** [list(set(l))] for a list of chat ids: the members of [l] without
    repetition, in the order in which the set yields them.  That order
    comes from the hash table of the interpreter and is not the order of
    [l]; the program relies on the two laws only. *)
Class PySet := {
  set_list : list Z -> list Z;
  set_list_NoDup : ∀ l, NoDup (set_list l);
  set_list_elem : ∀ l x, x ∈ set_list l ↔ x ∈ l
}.

(** [list(set(ops["main"] + ops["all"]))]. *)
Definition union_targets `{PySet} (ops : Ops) : list Z :=
  set_list (ops_main ops ++ ops_all ops).

Definition nonempty {A} (l : list A) : bool :=
  match l with [] => false | _ => true end.

Definition TICKET_ : ustr := Eval vm_compute in u "Ticket ".
Definition TAIL_MAIN : ustr := Eval vm_compute in u " отправлен главному оператору".
Definition TAIL_REPEAT60 : ustr := Eval vm_compute in
  u " повтор через 60 сек всем операторам".
Definition TAIL_REPEAT180 : ustr := Eval vm_compute in
  u " повтор через 3 минуты всем операторам".
Definition TAIL_FINAL : ustr := Eval vm_compute in u " финал клиенту после 7 минут".
Definition TAIL_ADMIN : ustr := Eval vm_compute in
  u " 1 час без реакции, отправлено админу".

Definition msg_main (tid : ustr) : ustr := TICKET_ ++ tid ++ TAIL_MAIN.
Definition msg_repeat60 (tid : ustr) : ustr := TICKET_ ++ tid ++ TAIL_REPEAT60.
Definition msg_repeat180 (tid : ustr) : ustr := TICKET_ ++ tid ++ TAIL_REPEAT180.
Definition msg_final (tid : ustr) : ustr := TICKET_ ++ tid ++ TAIL_FINAL.
Definition msg_admin (tid : ustr) : ustr := TICKET_ ++ tid ++ TAIL_ADMIN.
Definition BUSY : ustr := Eval vm_compute in
  u "Извините, сейчас оператор занят. Как освободится главный оператор, он вам напишет.".

(** The body of the loop of [_process_escalations], for one ticket. *)
Definition escalate `{Transport, PySet} (ops : Ops) (now : Q) (t : Ticket) : M Ticket :=
  if resolved t then ret t
  else if bool_decide (claimed_by t ≠ None) then ret t
  else
    let age := (now - created_ts t)%Q in
    if (stage t =? 0) && Qeq_bool (last_ping_ts t) 0 then
      t ← (if nonempty (ops_main ops) then
             t ← _ping_ticket_stage t (ops_main ops);
             logger INFO (msg_main (ticket_id t));;
             ret t
           else ret t);
      ret (set_stage 1 t)
    else if (stage t =? 1) && Qle_bool 60 age
            && Qle_bool 60 (now - last_ping_ts t) then
      let targets := union_targets ops in
      t ← (if nonempty targets then
             t ← _ping_ticket_stage t targets;
             logger WARN (msg_repeat60 (ticket_id t));;
             ret t
           else ret t);
      ret (set_stage 2 t)
    else if (stage t =? 2) && Qle_bool (60 + 180) age
            && Qle_bool 180 (now - last_ping_ts t) then
      let targets := union_targets ops in
      t ← (if nonempty targets then
             t ← _ping_ticket_stage t targets;
             logger WARN (msg_repeat180 (ticket_id t));;
             ret t
           else ret t);
      ret (set_stage 3 t)
    else if (stage t =? 3) && Qle_bool (60 + 180 + 420) age then
      _send (customer_chat_id t) (_bot_prefix BUSY);;
      let t := set_stage 4 t in
      logger ERROR (msg_final (ticket_id t));;
      ret t
    else if Qle_bool 3600 age then
      t ← (if nonempty (ops_admin ops) then
             t ← _ping_ticket_stage t (ops_admin ops);
             logger ERROR (msg_admin (ticket_id t));;
             ret t
           else ret t);
      ret (set_resolved true t)
    else ret t.

(** The loop over the snapshot [list(self._tickets.values())]; each
    iteration updates the object it visits. *)
Fixpoint escalate_all `{Transport, PySet} (ops : Ops) (now : Q) (rs : list nat)
    (h : list Ticket) : M (list Ticket) :=
  match rs with
  | [] => ret h
  | r :: rs' =>
      match h !! r with
      | Some t =>
          t' ← escalate ops now t;
          escalate_all ops now rs' (<[r := t']> h)
      | None => escalate_all ops now rs' h
      end
  end.

Definition _process_escalations `{Transport, PySet} (ops : Ops) (s : Store) : M Store :=
  now ← time_time;
  h ← escalate_all ops now (values s) (heap s);
  ret (mkStore h (tickets s)).

(** *** Sequences of operations *)

Inductive op :=
| Create (platform : ustr) (customer_chat_id : Z) (customer_text summary : ustr)
| Claim (operator_chat_id : Z)
| Pass (ops : Ops).

Definition step `{Transport, PySet} (o : op) (st : Store * World) : Store * World :=
  match o with
  | Create p c x sm => let '((_, s), w) := _create_ticket p c x sm st.1 st.2 in (s, w)
  | Claim c => ((_claim_oldest c st.1).2, st.2)
  | Pass ops => _process_escalations ops st.1 st.2
  end.

Definition run `{Transport, PySet} (os : list op) (st : Store * World) : Store * World :=
  foldl (fun st o => step o st) st os.

Definition empty_store : Store := mkStore [] [].

(** A clock that starts at [t0] and advances by [dt] at every reading. *)
Definition linear_clock (t0 dt : Q) : nat -> Q :=
  fun n => (t0 + inject_Z (Z.of_nat n) * dt)%Q.

(** *** Vocabulary for the properties *)

Definition live (t : Ticket) : Prop :=
  resolved t = false ∧ claimed_by t = None.
Definition frozen (t : Ticket) : Prop :=
  resolved t = true ∨ claimed_by t ≠ None.

(** The messages a ping sends. *)
Definition pings (t : Ticket) (targets : list Z) : list event :=
  match summary t with
  | [] => []
  | _ => map (fun cid => Sent cid (summary t)) targets
  end.

(** The line that [_send] logs for an answer, if any. *)
Definition failure_line (a : answer) : list event :=
  match a with
  | Response status_code body =>
      if status_code =? 200 then []
      else [Logged ERROR (SEND_HTTP ++ str_of_Z status_code ++ COLON_ ++ take 200 body)]
  | Failure e => [Logged ERROR (SEND_ERROR ++ e)]
  end.

(** The trace after the events [evs] have happened on top of [tr]: every
    request is followed by the line that its answer makes [_send] log. *)
Fixpoint deliver `{Transport} (tr evs : list event) : list event :=
  match evs with
  | [] => tr
  | Sent c x :: r =>
      deliver ((tr ++ [Sent c x]) ++ failure_line (post (tr ++ [Sent c x]))) r
  | Logged level msg :: r => deliver (tr ++ [Logged level msg]) r
  end.

(** What one notification round leaves behind: the ping and its log line,
    or nothing at all for an empty target list. *)
Definition notified `{Transport} (t : Ticket) (targets : list Z) (level msg : ustr)
    (w : World) : Ticket * World :=
  if nonempty targets then
    (set_last_ping_ts (wall w (ticks w)) t,
     mkWorld (wall w) (S (ticks w))
       (deliver (trace w) (pings t targets ++ [Logged level msg])))
  else (t, w).

(** The guards of the loop body, in the order the source tests them. *)
Definition fires1 (t : Ticket) : bool :=
  (stage t =? 0) && Qeq_bool (last_ping_ts t) 0.
Definition fires2 (now : Q) (t : Ticket) : bool :=
  (stage t =? 1) && Qle_bool 60 (now - created_ts t)
  && Qle_bool 60 (now - last_ping_ts t).
Definition fires3 (now : Q) (t : Ticket) : bool :=
  (stage t =? 2) && Qle_bool (60 + 180) (now - created_ts t)
  && Qle_bool 180 (now - last_ping_ts t).
Definition fires4 (now : Q) (t : Ticket) : bool :=
  (stage t =? 3) && Qle_bool (60 + 180 + 420) (now - created_ts t).
Definition overdue (now : Q) (t : Ticket) : bool :=
  Qle_bool 3600 (now - created_ts t).

(** Whether the loop body pings for the ticket: a notification round is
    due and its target list is not empty. *)
Definition pinged `{PySet} (ops : Ops) (now : Q) (t : Ticket) : bool :=
  if fires1 t then nonempty (ops_main ops)
  else if fires2 now t then nonempty (union_targets ops)
  else if fires3 now t then nonempty (union_targets ops)
  else if fires4 now t then false
  else if overdue now t then nonempty (ops_admin ops)
  else false.

Definition stage_after (now : Q) (t : Ticket) : Z :=
  if fires1 t then 1 else if fires2 now t then 2
  else if fires3 now t then 3 else if fires4 now t then 4 else stage t.

Definition resolved_after (now : Q) (t : Ticket) : bool :=
  negb (fires1 t || fires2 now t || fires3 now t || fires4 now t) && overdue now t.

(** The fields no operation ever writes. *)
Definition same_request (t t' : Ticket) : Prop :=
  ticket_id t' = ticket_id t ∧ platform t' = platform t ∧
  customer_chat_id t' = customer_chat_id t ∧ customer_text t' = customer_text t ∧
  summary t' = summary t ∧ created_ts t' = created_ts t.

(** How a Ticket object may differ from an earlier state of itself. *)
Definition evolves (t t' : Ticket) : Prop :=
  same_request t t' ∧ stage t <= stage t' ∧
  (∀ c, claimed_by t = Some c → claimed_by t' = Some c) ∧
  (resolved t = true → resolved t' = true) ∧
  (frozen t → t' = t).

Definition heap_evolves (h h' : list Ticket) : Prop :=
  ∀ i t, h !! i = Some t → ∃ t', h' !! i = Some t' ∧ evolves t t'.

(** A store is well formed when the dict names each object once and every
    name is allocated. *)
Definition wf (s : Store) : Prop :=
  NoDup (values s) ∧ Forall (fun r => (r < length (heap s))%nat) (values s).

(** Two transports for the examples: one that answers 200 to every
    request, and one that is down and answers 502 to every request. *)
#[global] Instance reliable : Transport := {| post := fun _ => Response 200 (u "{}") |}.
Definition down : Transport := {| post := fun _ => Response 502 (u "Bad Gateway") |}.

(** A set order for the examples: the members by their residue modulo 8,
    which is where a small non-negative integer sits in a hash table of
    eight slots.  CPython yields this order for up to four ids between 0
    and 2^61 - 2 whose residues differ; nothing but the examples uses it. *)
Definition slot_le (x y : Z) : Prop := x mod 8 <= y mod 8.
#[global] Instance slot_le_dec : RelDecision slot_le := fun x y => Z_le_dec (x mod 8) (y mod 8).
Definition by_slot (l : list Z) : list Z := merge_sort slot_le (remove_dups l).

Lemma by_slot_NoDup l : NoDup (by_slot l).
Proof.
  apply (proj2 (NoDup_Permutation_proper _ _ (merge_sort_Permutation slot_le (remove_dups l)))).
  apply NoDup_remove_dups.
Qed.

Lemma by_slot_elem l x : x ∈ by_slot l ↔ x ∈ l.
Proof.
  etrans; [|apply elem_of_remove_dups].
  apply (elem_of_Permutation_proper x _ _ (merge_sort_Permutation slot_le (remove_dups l))).
Qed.

#[global] Instance small_table : PySet := Build_PySet by_slot by_slot_NoDup by_slot_elem.

(** One ticket, created at time 0 and not yet seen by any pass, and a
    roster with operators in every list. *)
Definition fresh_ticket : Ticket :=
  mkTicket (u "0_5") (u "telegram") 5 (u "hi") (u "S") 0 None 0 0 false.
Definition fresh_store : Store := mkStore [fresh_ticket] [(u "0_5", 0%nat)].
Definition demo_ops : Ops := mkOps [7] [8; 7] [9].
Definition world_at (t : Q) : World := mkWorld (linear_clock t 0) 0 [].

(** The requests and the log lines of one notification round, and of one
    run of the loop body: they depend on the ticket and on [now], not on
    the clock readings taken meanwhile.  The lines that [_send] adds for
    the answers are not among them: [deliver] puts them in. *)
Definition round (t : Ticket) (targets : list Z) (level msg : ustr) : list event :=
  if nonempty targets then pings t targets ++ [Logged level msg] else [].

Definition events_of `{PySet} (ops : Ops) (now : Q) (t : Ticket) : list event :=
  if resolved t then []
  else if bool_decide (claimed_by t ≠ None) then []
  else if fires1 t then round t (ops_main ops) INFO (msg_main (ticket_id t))
  else if fires2 now t then round t (union_targets ops) WARN (msg_repeat60 (ticket_id t))
  else if fires3 now t then round t (union_targets ops) WARN (msg_repeat180 (ticket_id t))
  else if fires4 now t then
    [Sent (customer_chat_id t) (_bot_prefix BUSY); Logged ERROR (msg_final (ticket_id t))]
  else if overdue now t then round t (ops_admin ops) ERROR (msg_admin (ticket_id t))
  else [].

Definition events_at `{PySet} (ops : Ops) (now : Q) (h : list Ticket) (r : nat)
    : list event :=
  match h !! r with
  | Some t => events_of ops now t
  | None => []
  end.

(** *** Counting, for the round-trip property *)





Definition sent_messages (tr : list event) : list (Z * ustr) :=
  flat_map (fun e => match e with Sent c x => [(c, x)] | Logged _ _ => [] end) tr.





(** The same state under another clock. *)
Definition set_clock (f : nat -> Q) (st : Store * World) : Store * World :=
  (st.1, mkWorld f (ticks st.2) (trace st.2)).









End Tickets.

(** ** Vocabulary for the properties of the builder and the guard *)

Module Shapes.
Import Text Logic AI.

(** A time of day written as two digits, a colon and two digits. *)
Definition hhmm (h m : Z) : ustr := two_digits h ++ [58%N] ++ two_digits m.

#[global] Instance dtime_eq_dec : EqDecision dtime.
Proof. solve_decision. Defined.

(** The code points of a decimal numeral: the digits and the minus sign. *)
Definition plain (c : N) : Prop := (48 <= c <= 57)%N ∨ c = 45%N.

(** [repr(s)] for a string without quotes or escapes. *)
Definition quote (s : ustr) : ustr := [39%N] ++ s ++ [39%N].

Section WithTables.
Context `{PyUnicode}.

(** A non-empty run of digits. *)
Definition digits (d : ustr) : Prop :=
  d ≠ [] ∧ Forall (fun c => is_digit c = true) d.

(** A match of the number pattern: digits, or digits, one separator and
    digits again. *)
Definition number_shaped (n : ustr) : Prop :=
  ∃ a, digits a ∧
    (n = a ∨ ∃ sep f, n = a ++ sep :: f ∧ is_sep sep = true ∧ digits f).

(** What the scan has read of the match it is in. *)
Definition scan_ok (st : scan) : Prop :=
  match st with
  | Out => True
  | Int cur => digits cur
  | Sep cur sep => digits cur ∧ is_sep sep = true
  | Frac cur => ∃ a sep f, cur = a ++ sep :: f ∧ digits a ∧ is_sep sep = true ∧ digits f
  end.

End WithTables.

End Shapes.

(** ** Vocabulary for the properties of the store *)

Module StoreInv.
Import Tickets.

(** The dict is consistent with the objects: no key and no object occurs
    twice, and every key is the id of the object it names. *)
Definition consistent (s : Store) : Prop :=
  NoDup (map fst (tickets s)) ∧ NoDup (values s) ∧
  ∀ k r, (k, r) ∈ tickets s → ∃ t, heap s !! r = Some t ∧ ticket_id t = k.

(** Something is due for the ticket in a pass at time [now]. *)
Definition due (now : Q) (t : Ticket) : bool :=
  negb (resolved t) && bool_decide (claimed_by t = None) &&
  (fires1 t || fires2 now t || fires3 now t || fires4 now t || overdue now t).

(** What holds of every ticket the runner ever holds. *)
Definition sane (t : Ticket) : Prop :=
  0 <= stage t <= 4 ∧
  (stage t = 0 → last_ping_ts t = 0%Q) ∧
  (resolved t = true → claimed_by t = None).

(** Two open tickets, the first one older. *)
Definition two_tickets : Store :=
  mkStore [fresh_ticket;
           mkTicket (u "3_6") (u "telegram") 6 (u "hey") (u "S2") 3 None 0 0 false]
          [(u "0_5", 0%nat); (u "3_6", 1%nat)].

(** Three open tickets; the first of the dict is the youngest, the other
    two were created at the same time. *)
Definition three_waiting : Store :=
  mkStore [mkTicket (u "3_6") (u "telegram") 6 (u "hey") (u "S1") 3 None 0 0 false;
           mkTicket (u "0_5") (u "telegram") 5 (u "hi") (u "S2") 0 None 0 0 false;
           mkTicket (u "0_4") (u "telegram") 4 (u "ho") (u "S3") 0 None 0 0 false]
          [(u "3_6", 0%nat); (u "0_5", 1%nat); (u "0_4", 2%nat)].

(** A ticket at stage 1 that was pinged at time 10. *)
Definition pinged_ticket : Ticket :=
  mkTicket (u "0_5") (u "telegram") 5 (u "hi") (u "S") 0 None 10 1 false.

End StoreInv.

(** ** The message loop (core_bot_telegram.py) *)

Module Runner.
Import Text Logic Tickets StoreInv.

(** An update of [getUpdates], as far as the loop reads it: the message
    may be missing, and so may the id of its chat; a message without text
    reads as the empty text. *)
Record Message := mkMessage {
  chat_id : option Z;
  text : ustr
}.
Record Update := mkUpdate {
  update_id : Z;
  message : option Message
}.

(** What the handling of one update reads from the settings: the table
    itself with the catalogue and the clock, the operator lists of
    [_load_ops], and the rows of the decoded trigger list that are objects,
    each with the text of its fields [triggers] and [answer]. *)
Record Setup := mkSetup {
  env : Env;
  ops : Ops;
  trigger_rows : list (ustr * ustr)
}.

(** [self._offset] and [self._tickets] *)
Record Bot := mkBot {
  _offset : Z;
  _tickets : Store
}.

Definition TELEGRAM : ustr := Eval vm_compute in u "telegram".
Definition KEY_MODE : ustr := Eval vm_compute in u "bot_answer_mode".
Definition MODE_TRIGGERS : ustr := Eval vm_compute in u "triggers".
Definition NO_REQUESTS : ustr := Eval vm_compute in u "Нет активных запросов".
Definition TAKEN : ustr := Eval vm_compute in u "Взято в работу. Ticket ".
Definition PLATFORM_ : ustr := Eval vm_compute in u ". Платформа: ".
Definition TAKEN_BY : ustr := Eval vm_compute in u " взят оператором ".
Definition INCOMING : ustr := Eval vm_compute in u "Telegram входящее: chat_id ".
Definition TEXT_ : ustr := Eval vm_compute in u " text ".
Definition NO_ANSWER : ustr := Eval vm_compute in
  u "Я бот программы автоответов. К сожалению, не могу дать ответ на ваш вопрос. Я уже отправил ваш вопрос оператору, он ответит в рабочее время.".
Definition HELP_TRIGGERS : ustr := Eval vm_compute in
  u "Help,telegram, триггеры не сработали. Вопрос клиента: ".
Definition BOT_ANSWER : ustr := Eval vm_compute in [10%N] ++ u "Ответ бота клиенту: ".
Definition PUT_PLUS : ustr := Eval vm_compute in
  [10%N] ++ u "Поставьте + если берете в работу.".
Definition CREATED : ustr := Eval vm_compute in u "Создан тикет ".
Definition FOR_ESCALATION : ustr := Eval vm_compute in u " для эскалации".
Definition ADMIN_INFORMED : ustr := Eval vm_compute in u "Отправлено админу инфо".
Definition MAIN_INFORMED : ustr := Eval vm_compute in
  u "Отправлено главному оператору мягкое уведомление без тикета".
Definition UPDATE_ERROR : ustr := Eval vm_compute in u "Telegram обработка update ошибка: ".
Definition INVALID_LITERAL : ustr := Eval vm_compute in
  u "invalid literal for int() with base 10: ".
Definition NO_GET : ustr := Eval vm_compute in
  u "'sqlite3.Row' object has no attribute 'get'".

Definition _is_operator_chat (ops : Ops) (chat_id : Z) : bool :=
  bool_decide (chat_id ∈ ops_main ops) || bool_decide (chat_id ∈ ops_all ops)
  || bool_decide (chat_id ∈ ops_admin ops).

Definition _send_admin_info `{Transport} (ops : Ops) (msg : ustr) : M unit :=
  for_each (ops_admin ops) (fun cid => _send cid msg).

Definition _send_main_info `{Transport} (ops : Ops) (msg : ustr) : M unit :=
  for_each (ops_main ops) (fun cid => _send cid msg).

(** [s.split(sep)] for a separator of one code point. *)
Fixpoint split_on (sep : N) (s : ustr) : list ustr :=
  match s with
  | [] => [[]]
  | c :: r =>
      if (c =? sep)%N then [] :: split_on sep r
      else match split_on sep r with
           | w :: ws => (c :: w) :: ws
           | [] => [[c]]
           end
  end.

(** The loop body of [_load_triggers], over the rows that are objects. *)
Definition _load_triggers (rows : list (ustr * ustr)) : list (ustr * ustr) :=
  flat_map (fun row =>
              let trig := strip row.1 in
              let ans := strip row.2 in
              if nonempty_str trig && nonempty_str ans then [(trig, ans)] else [])
           rows.

Section WithTables.
Context `{PyUnicode} {transport : Transport} {pyset : PySet}.

(** [repr(s)] of a string, for the text of the [ValueError] of [int()]. *)
Variable repr : ustr -> ustr.

(** [str(e)] of an exception of the builder. *)
Definition exn_text (e : exn) : ustr :=
  match e with
  | AttributeError => NO_GET
  | ValueError arg => INVALID_LITERAL ++ repr arg
  end.

(** [[t.strip().lower() for t in trig.split(",") if t.strip()]] *)
Definition trigger_keys (trig : ustr) : list ustr :=
  map (fun t => str_lower (strip t))
      (filter (fun t => strip t ≠ []) (split_on 44 trig)).

Definition key_hits (q k : ustr) : bool := nonempty_str k && contains k q.

Fixpoint first_answer (q : ustr) (rows : list (ustr * ustr)) : option ustr :=
  match rows with
  | [] => None
  | (trig, ans) :: rest =>
      if existsb (key_hits q) (trigger_keys trig) then Some ans
      else first_answer q rest
  end.

Definition _match_trigger (rows : list (ustr * ustr)) (text : ustr) : option ustr :=
  let q := str_lower text in
  let q := replace_yo q in
  first_answer q (_load_triggers rows).

(** An operator wrote: only a plus sign does anything. *)
Definition on_operator (chat_id : Z) (text : ustr) (s : Store) : M Store :=
  if bool_decide (strip text = [43%N]) then
    match _claim_oldest chat_id s with
    | (None, s) => _send chat_id NO_REQUESTS;; ret s
    | (Some r, s) =>
        match heap s !! r with
        | Some t =>
            _send chat_id (TAKEN ++ ticket_id t ++ PLATFORM_ ++ platform t);;
            logger INFO (TICKET_ ++ ticket_id t ++ TAKEN_BY ++ str_of_Z chat_id);;
            ret s
        | None => ret s
        end
    end
  else ret s.

Definition open_ticket (chat_id : Z) (text summ : ustr) (s : Store) : M Store :=
  r ← _create_ticket TELEGRAM chat_id text summ s;
  logger WARN (CREATED ++ r.1 ++ FOR_ESCALATION);;
  ret r.2.

Definition on_triggers (cfg : Setup) (chat_id : Z) (text : ustr) (s : Store) : M Store :=
  match _match_trigger (trigger_rows cfg) text with
  | Some ans => _send chat_id (_bot_prefix ans);; ret s
  | None =>
      let txt := NO_ANSWER in
      _send chat_id (_bot_prefix txt);;
      let summ := HELP_TRIGGERS ++ text ++ BOT_ANSWER ++ txt ++ PUT_PLUS in
      open_ticket chat_id text summ s
  end.

Definition when (b : bool) (m : M unit) : M unit := if b then m else ret tt.

Definition on_decision (cfg : Setup) (chat_id : Z) (text : ustr) (decision : BotDecision)
    (s : Store) : M Store :=
  when (nonempty_str (reply_text decision))
       (_send chat_id (_bot_prefix (reply_text decision)));;
  when (notify_admin decision && nonempty_str (admin_message decision))
       (_send_admin_info (ops cfg) (admin_message decision);;
        logger INFO ADMIN_INFORMED);;
  when (notify_main decision && nonempty_str (main_message decision))
       (_send_main_info (ops cfg) (main_message decision);;
        logger INFO MAIN_INFORMED);;
  if ticket_needed decision && nonempty_str (ticket_summary decision) then
    open_ticket chat_id text (ticket_summary decision) s
  else ret s.

Definition on_customer (cfg : Setup) (chat_id : Z) (text : ustr) (s : Store) : M Store :=
  logger INFO (INCOMING ++ str_of_Z chat_id ++ TEXT_ ++ text);;
  let mode := get_setting (env cfg) KEY_MODE MODE_AI in
  let mode := str_lower (strip (match mode with [] => MODE_AI | _ => mode end)) in
  if bool_decide (mode = MODE_TRIGGERS) then on_triggers cfg chat_id text s
  else
    match handle_customer_message (env cfg) TELEGRAM text mode with
    | Ok decision => on_decision cfg chat_id text decision s
    | Raise e => logger ERROR (UPDATE_ERROR ++ exn_text e);; ret s
    end.

(** The body of the loop over the updates, with its [try]. *)
Definition handle_update (cfg : Setup) (upd : Update) (b : Bot) : M Bot :=
  let offset := Z.max (_offset b) (update_id upd + 1) in
  match message upd with
  | None => ret (mkBot offset (_tickets b))
  | Some msg =>
      match chat_id msg with
      | None => ret (mkBot offset (_tickets b))
      | Some chat_id =>
          s ← (if _is_operator_chat (ops cfg) chat_id
               then on_operator chat_id (text msg) (_tickets b)
               else on_customer cfg chat_id (text msg) (_tickets b));
          ret (mkBot offset s)
      end
  end.

(** One turn of the [while] loop of [_loop]: the updates of one
    [getUpdates], each handled with the settings found at that moment, then
    the escalation pass. *)
Fixpoint handle_all (work : list (Setup * Update)) (b : Bot) : M Bot :=
  match work with
  | [] => ret b
  | (cfg, upd) :: rest => b ← handle_update cfg upd b; handle_all rest b
  end.

Definition turn (work : list (Setup * Update)) (roster : Ops) (b : Bot) : M Bot :=
  b ← handle_all work b;
  s ← _process_escalations roster (_tickets b);
  ret (mkBot (_offset b) s).

End WithTables.

(** *** Vocabulary for the properties *)

(** The world after [k] more readings of the clock and the events [evs],
    each request followed by the line that [_send] logs when the transport
    fails. *)
Definition grow `{Transport} (w : World) (k : nat) (evs : list event) : World :=
  mkWorld (wall w) (k + ticks w) (deliver (trace w) evs).

(** What [_send] and a loop of [_send] over a list of chats request. *)
Definition sends (c : Z) (x : ustr) : list event :=
  match x with [] => [] | _ => [Sent c x] end.
Definition informs (targets : list Z) (x : ustr) : list event :=
  match x with [] => [] | _ => map (fun cid => Sent cid x) targets end.

(** The ticket that [_create_ticket] makes in world [w]. *)
Definition new_ticket (chat_id : Z) (text summ : ustr) (w : World) : Ticket :=
  mkTicket (str_of_Z (py_int (wall w (ticks w))) ++ [95%N] ++ str_of_Z chat_id)
    TELEGRAM chat_id text summ (wall w (S (ticks w))) None 0 0 false.

Definition with_new (t : Ticket) (s : Store) : Store :=
  mkStore (heap s ++ [t]) (dict_set (ticket_id t) (length (heap s)) (tickets s)).

Section WithTables.
Context `{PyUnicode} {transport : Transport}.

(** A key of the row occurs in the text. *)
Definition row_hits (q : ustr) (row : ustr * ustr) : Prop :=
  ∃ k, k ∈ trigger_keys row.1 ∧ k ≠ [] ∧ contains k q = true.

(** The answer mode that the loop computes from the settings. *)
Definition answer_mode (e : Env) : ustr :=
  let mode := get_setting e KEY_MODE MODE_AI in
  str_lower (strip (match mode with [] => MODE_AI | _ => mode end)).

(** What the loop does with a decision, up to the ticket. *)
Definition decision_events (cfg : Setup) (c : Z) (d : BotDecision) : list event :=
  (if nonempty_str (reply_text d) then sends c (_bot_prefix (reply_text d)) else []) ++
  (if notify_admin d && nonempty_str (admin_message d)
   then informs (ops_admin (ops cfg)) (admin_message d) ++ [Logged INFO ADMIN_INFORMED]
   else []) ++
  (if notify_main d && nonempty_str (main_message d)
   then informs (ops_main (ops cfg)) (main_message d) ++ [Logged INFO MAIN_INFORMED]
   else []).

(** How the state of the bot and the world may differ from an earlier state
    of theirs. *)
Definition good (b b' : Bot) (w w' : World) : Prop :=
  (consistent (_tickets b) → consistent (_tickets b')) ∧
  heap_evolves (heap (_tickets b)) (heap (_tickets b')) ∧
  _offset b <= _offset b' ∧
  ∃ k evs, w' = grow w k evs.

End WithTables.

(** A shop with one product, the roster of the examples, and two trigger
    rows. *)
Definition demo_setup (kv : list (ustr * ustr)) : Setup :=
  mkSetup (demo_env [nokia 7] kv (mkTime 12 0 0 0)) demo_ops
          [(u "привет, hello", u "Здравствуйте"); (u "ёлка, Ёлки", u "Есть")].

Definition update_from (chat : Z) (x : ustr) : Update :=
  mkUpdate 41 (Some (mkMessage (Some chat) x)).

End Runner.

(** * Properties of the ticket store *)

Module TicketFacts.
Import Tickets.

Ltac unfold_m :=
  unfold mbind, mret, M_bind, M_ret, bind, ret, logger, emit, request, time_time in *.

Lemma live_or_frozen t : live t ∨ frozen t.
Proof.
  unfold live, frozen. destruct (resolved t), (claimed_by t); naive_solver.
Qed.

Lemma is_open_spec h r :
  is_open h r = true ↔ ∃ t, h !! r = Some t ∧ live t.
Proof.
  unfold is_open, live. destruct (h !! r) as [t|]; [|naive_solver].
  rewrite andb_true_iff, negb_true_iff, bool_decide_eq_true. naive_solver.
Qed.

Section WithOutside.
Context {transport : Transport} {pyset : PySet}.

(** *** The trace under a transport that may fail *)

Lemma deliver_app tr a b : deliver tr (a ++ b) = deliver (deliver tr a) b.
Proof.
  revert tr. induction a as [|[c x|level msg] a IH]; intros tr; simpl; [done|..];
    apply IH.
Qed.

Lemma deliver_logged tr level msg : deliver tr [Logged level msg] = tr ++ [Logged level msg].
Proof. done. Qed.

Lemma deliver_prefix tr evs : tr `prefix_of` deliver tr evs.
Proof.
  revert tr. induction evs as [|[c x|level msg] evs IH]; intros tr; simpl; [done|..].
  - etrans; [|apply IH]. rewrite <- app_assoc. by apply prefix_app_r.
  - etrans; [|apply IH]. by apply prefix_app_r.
Qed.

Lemma sent_messages_app a b : sent_messages (a ++ b) = sent_messages a ++ sent_messages b.
Proof. unfold sent_messages. by rewrite flat_map_app. Qed.

Lemma sent_messages_failure_line a : sent_messages (failure_line a) = [].
Proof. destruct a as [st body|e]; simpl; [|done]. by destruct (st =? 200). Qed.

(** The transport adds log lines only: the requests of the trace are the
    requests that were made, in their order. *)
Lemma sent_messages_deliver tr evs :
  sent_messages (deliver tr evs) = sent_messages tr ++ sent_messages evs.
Proof.
  revert tr. induction evs as [|[c x|level msg] evs IH]; intros tr; simpl.
  - by rewrite app_nil_r.
  - rewrite IH, !sent_messages_app, sent_messages_failure_line, app_nil_r.
    by rewrite <- app_assoc.
  - rewrite IH, sent_messages_app. simpl. by rewrite app_nil_r.
Qed.

Lemma elem_of_sent_messages c x tr : (c, x) ∈ sent_messages tr ↔ Sent c x ∈ tr.
Proof.
  induction tr as [|[c' x'|level msg] tr IH]; simpl.
  - by rewrite !elem_of_nil.
  - rewrite !elem_of_cons, IH. split; intros [Hx|Hx]; auto; left; congruence.
  - rewrite elem_of_cons, IH. split; [auto|]. intros [Hx|Hx]; [done|auto].
Qed.

Lemma sent_deliver c x tr evs :
  Sent c x ∈ deliver tr evs ↔ Sent c x ∈ tr ∨ Sent c x ∈ evs.
Proof.
  rewrite <- !elem_of_sent_messages, sent_messages_deliver. apply elem_of_app.
Qed.

(** With every request answered by 200 the trace is the events themselves. *)
Lemma deliver_all_ok tr evs :
  (∀ tr', failure_line (post tr') = []) → deliver tr evs = tr ++ evs.
Proof.
  intros Hok. revert tr. induction evs as [|[c x|level msg] evs IH]; intros tr; simpl.
  - by rewrite app_nil_r.
  - rewrite Hok, app_nil_r, IH. by rewrite <- app_assoc.
  - rewrite IH. by rewrite <- app_assoc.
Qed.

Lemma send_spec chat_id text w :
  _send chat_id text w =
  (tt, mkWorld (wall w) (ticks w)
         (deliver (trace w) match text with [] => [] | _ => [Sent chat_id text] end)).
Proof.
  unfold _send. destruct text as [|a text]; [by destruct w|].
  unfold_m. cbn [trace wall ticks deliver]. unfold failure_line.
  destruct (post _) as [st body|e]; [|done].
  destruct (st =? 200); [|done]. by rewrite app_nil_r.
Qed.

Lemma for_each_send text targets w :
  for_each targets (fun cid => _send cid text) w =
  (tt, mkWorld (wall w) (ticks w)
         (deliver (trace w)
            match text with [] => [] | _ => map (fun cid => Sent cid text) targets end)).
Proof.
  revert w. induction targets as [|c l IH]; intros w; simpl.
  - destruct w, text; done.
  - unfold mbind, M_bind, bind. rewrite send_spec, IH. cbn [wall ticks trace].
    destruct text as [|a text]; [done|].
    by rewrite <- deliver_app.
Qed.

Lemma ping_spec t targets w :
  _ping_ticket_stage t targets w =
  (set_last_ping_ts (wall w (ticks w)) t,
   mkWorld (wall w) (S (ticks w)) (deliver (trace w) (pings t targets))).
Proof.
  unfold _ping_ticket_stage. unfold_m. rewrite for_each_send. done.
Qed.

Lemma notify_spec t targets level msg w :
  (if nonempty targets then
     t' ← _ping_ticket_stage t targets; logger level (msg (ticket_id t'));; ret t'
   else ret t) w
  = notified t targets level (msg (ticket_id t)) w.
Proof.
  unfold notified. destruct (nonempty targets); [|done].
  unfold mbind, M_bind, bind. rewrite ping_spec. unfold_m. simpl.
  by rewrite deliver_app.
Qed.

Lemma escalate_frozen ops now t w : frozen t → escalate ops now t w = (t, w).
Proof.
  intros [H|H]; unfold escalate.
  - by rewrite H.
  - destruct (resolved t); [done|]. by rewrite bool_decide_eq_true_2.
Qed.

Lemma escalate_live ops now t w :
  live t →
  escalate ops now t w =
  if fires1 t then
    let (t1, w1) := notified t (ops_main ops) INFO (msg_main (ticket_id t)) w in
    (set_stage 1 t1, w1)
  else if fires2 now t then
    let (t1, w1) := notified t (union_targets ops) WARN (msg_repeat60 (ticket_id t)) w in
    (set_stage 2 t1, w1)
  else if fires3 now t then
    let (t1, w1) := notified t (union_targets ops) WARN (msg_repeat180 (ticket_id t)) w in
    (set_stage 3 t1, w1)
  else if fires4 now t then
    (set_stage 4 t,
     mkWorld (wall w) (ticks w)
       (deliver (trace w) [Sent (customer_chat_id t) (_bot_prefix BUSY);
                           Logged ERROR (msg_final (ticket_id t))]))
  else if overdue now t then
    let (t1, w1) := notified t (ops_admin ops) ERROR (msg_admin (ticket_id t)) w in
    (set_resolved true t1, w1)
  else (t, w).
Proof.
  intros [Hr Hc]. unfold escalate. rewrite Hr.
  rewrite bool_decide_eq_false_2 by (rewrite Hc; naive_solver).
  fold (fires1 t) (fires2 now t) (fires3 now t) (fires4 now t) (overdue now t).
  destruct (fires1 t).
  { unfold mbind at 1, M_bind at 1, bind at 1.
    rewrite (notify_spec t (ops_main ops) INFO msg_main). by destruct (notified _ _ _ _ _). }
  destruct (fires2 now t).
  { unfold mbind at 1, M_bind at 1, bind at 1.
    rewrite (notify_spec t _ WARN msg_repeat60). by destruct (notified _ _ _ _ _). }
  destruct (fires3 now t).
  { unfold mbind at 1, M_bind at 1, bind at 1.
    rewrite (notify_spec t _ WARN msg_repeat180). by destruct (notified _ _ _ _ _). }
  destruct (fires4 now t).
  { unfold mbind at 1, M_bind at 1, bind at 1. rewrite send_spec.
    unfold_m. cbn [wall ticks trace set_stage ticket_id].
    destruct (_bot_prefix BUSY) as [|a b] eqn:E; [by vm_compute in E|]. done. }
  destruct (overdue now t); [|done].
  unfold mbind at 1, M_bind at 1, bind at 1.
  rewrite (notify_spec t _ ERROR msg_admin). by destruct (notified _ _ _ _ _).
Qed.

(** The loop body, branch by branch. *)
Ltac by_branch ops now t :=
  unfold pinged, stage_after, resolved_after, same_request, notified;
  destruct (fires1 t); [by destruct (nonempty (ops_main ops))|];
  destruct (fires2 now t); [by destruct (nonempty (union_targets ops))|];
  destruct (fires3 now t); [by destruct (nonempty (union_targets ops))|];
  destruct (fires4 now t); [done|];
  destruct (overdue now t); [by destruct (nonempty (ops_admin ops))|done].

(** The time of the last ping: the reading taken in [_ping_ticket_stage]
    when a round with targets fires, and the old value otherwise. *)
Lemma escalate_ping ops now t w :
  live t →
  (pinged ops now t = false → last_ping_ts (escalate ops now t w).1 = last_ping_ts t) ∧
  (pinged ops now t = true →
     last_ping_ts (escalate ops now t w).1 = wall w (ticks w) ∧
     ticks (escalate ops now t w).2 = S (ticks w)).
Proof.
  intros Hl. rewrite (escalate_live _ _ _ _ Hl). by_branch ops now t.
Qed.

Lemma escalate_fields ops now t w :
  live t →
  let t' := (escalate ops now t w).1 in
  stage t' = stage_after now t ∧ resolved t' = resolved_after now t ∧
  claimed_by t' = None ∧ same_request t t'.
Proof.
  intros Hl. rewrite (escalate_live _ _ _ _ Hl). destruct Hl as [Hr Hc].
  by_branch ops now t.
Qed.

Lemma stage_after_ge now t : stage t <= stage_after now t.
Proof.
  unfold stage_after, fires1, fires2, fires3, fires4.
  repeat case_match; try lia;
    repeat match goal with H : _ && _ = true |- _ => apply andb_true_iff in H; destruct H end; lia.
Qed.

Lemma escalate_all_length ops now rs : ∀ h w,
  length (escalate_all ops now rs h w).1 = length h.
Proof.
  induction rs as [|r rs IH]; intros h w; simpl; [done|].
  destruct (h !! r) as [t|]; [|apply IH].
  unfold mbind, M_bind, bind. destruct (escalate ops now t w) as [t' w1].
  rewrite IH. apply length_insert.
Qed.

Lemma escalate_all_other ops now rs : ∀ h w r,
  r ∉ rs → (escalate_all ops now rs h w).1 !! r = h !! r.
Proof.
  induction rs as [|r0 rs IH]; intros h w r Hr; simpl; [done|].
  apply not_elem_of_cons in Hr as [Hne Hr].
  destruct (h !! r0) as [t|]; [|by apply IH].
  unfold mbind, M_bind, bind. destruct (escalate ops now t w) as [t' w1].
  rewrite IH by done. by apply list_lookup_insert_ne.
Qed.

(** The loop body and the loop leave the clock as it is and only read it. *)
Lemma escalate_clock ops now t w :
  ∃ k, wall (escalate ops now t w).2 = wall w ∧
       ticks (escalate ops now t w).2 = (ticks w + k)%nat.
Proof.
  destruct (live_or_frozen t) as [Hl|Hf].
  - rewrite (escalate_live _ _ _ _ Hl). unfold notified.
    repeat case_match; simplify_eq; simpl;
      first [by exists 0%nat; split; [|lia] | by exists 1%nat; split; [|lia]].
  - rewrite (escalate_frozen _ _ _ _ Hf). exists 0%nat. split; [done|simpl; lia].
Qed.

Lemma escalate_all_clock ops now rs : ∀ h w,
  ∃ k, wall (escalate_all ops now rs h w).2 = wall w ∧
       ticks (escalate_all ops now rs h w).2 = (ticks w + k)%nat.
Proof.
  induction rs as [|r rs IH]; intros h w; simpl.
  { exists 0%nat. split; [done|lia]. }
  destruct (h !! r) as [t|]; [|apply IH].
  unfold mbind, M_bind, bind.
  destruct (escalate_clock ops now t w) as (k1 & Hw1 & Hk1).
  destruct (escalate ops now t w) as [t' w1]. simpl in Hw1, Hk1.
  destruct (IH (<[r:=t']> h) w1) as (k2 & Hw2 & Hk2).
  exists (k1 + k2)%nat. split; [congruence|lia].
Qed.

Lemma escalate_all_visit ops now rs : ∀ h w r t,
  NoDup rs → r ∈ rs → h !! r = Some t →
  ∃ wk, (escalate_all ops now rs h w).1 !! r = Some (escalate ops now t wk).1.
Proof.
  induction rs as [|r0 rs IH]; intros h w r t Hnd Hin Ht; [by apply elem_of_nil in Hin|].
  apply NoDup_cons in Hnd as [Hr0 Hnd]. simpl.
  destruct (decide (r = r0)) as [->|Hne].
  - rewrite Ht. unfold mbind, M_bind, bind.
    destruct (escalate ops now t w) as [t' w1] eqn:E.
    rewrite escalate_all_other by done.
    exists w. rewrite E. simpl. apply list_lookup_insert_eq.
    by eapply lookup_lt_Some.
  - apply elem_of_cons in Hin as [?|Hin]; [done|].
    destruct (h !! r0) as [t0|]; [|by apply IH].
    unfold mbind, M_bind, bind. destruct (escalate ops now t0 w) as [t' w1].
    apply IH; [done..|]. by rewrite list_lookup_insert_ne.
Qed.

(** The same, with the clock of the world in which the ticket is visited. *)
Lemma escalate_all_visit_clock ops now rs : ∀ h w r t,
  NoDup rs → r ∈ rs → h !! r = Some t →
  ∃ wk, (escalate_all ops now rs h w).1 !! r = Some (escalate ops now t wk).1 ∧
        wall wk = wall w ∧ (ticks w <= ticks wk)%nat ∧
        (ticks (escalate ops now t wk).2 <= ticks (escalate_all ops now rs h w).2)%nat.
Proof.
  induction rs as [|r0 rs IH]; intros h w r t Hnd Hin Ht; [by apply elem_of_nil in Hin|].
  apply NoDup_cons in Hnd as [Hr0 Hnd]. simpl.
  destruct (decide (r = r0)) as [->|Hne].
  - rewrite Ht. unfold mbind, M_bind, bind.
    destruct (escalate ops now t w) as [t' w1] eqn:E.
    rewrite escalate_all_other by done.
    exists w. rewrite E. simpl. split_and!; [|done|done|].
    + apply list_lookup_insert_eq. by eapply lookup_lt_Some.
    + destruct (escalate_all_clock ops now rs (<[r0:=t']> h) w1) as (k & _ & ->). lia.
  - apply elem_of_cons in Hin as [?|Hin]; [done|].
    destruct (h !! r0) as [t0|] eqn:Ht0; [|by apply IH].
    unfold mbind, M_bind, bind.
    destruct (escalate_clock ops now t0 w) as (k & Hw1 & Hk1).
    destruct (escalate ops now t0 w) as [t' w1]. simpl in Hw1, Hk1.
    destruct (IH (<[r0:=t']> h) w1 r t Hnd Hin) as (wk & E & Hwk & Hle & Hfin).
    { by rewrite list_lookup_insert_ne. }
    exists wk. split_and!; [done|congruence|lia|done].
Qed.

Lemma escalate_world ops now t w :
  ∃ k, (escalate ops now t w).2 =
       mkWorld (wall w) (ticks w + k) (deliver (trace w) (events_of ops now t)).
Proof.
  destruct (live_or_frozen t) as [Hl|Hf].
  - rewrite (escalate_live _ _ _ _ Hl). unfold events_of, notified, round.
    destruct Hl as [-> Hc]. rewrite bool_decide_eq_false_2 by (rewrite Hc; tauto).
    destruct (fires1 t).
    { destruct (nonempty _); [exists 1%nat|exists 0%nat]; destruct w; simpl;
        rewrite ?app_nil_r; f_equal; lia. }
    destruct (fires2 now t).
    { destruct (nonempty _); [exists 1%nat|exists 0%nat]; destruct w; simpl;
        rewrite ?app_nil_r; f_equal; lia. }
    destruct (fires3 now t).
    { destruct (nonempty _); [exists 1%nat|exists 0%nat]; destruct w; simpl;
        rewrite ?app_nil_r; f_equal; lia. }
    destruct (fires4 now t).
    { exists 0%nat. destruct w; simpl. f_equal; lia. }
    destruct (overdue now t).
    { destruct (nonempty _); [exists 1%nat|exists 0%nat]; destruct w; simpl;
        rewrite ?app_nil_r; f_equal; lia. }
    exists 0%nat. destruct w; simpl. f_equal; lia.
  - rewrite (escalate_frozen _ _ _ _ Hf). exists 0%nat.
    assert (events_of ops now t = []) as ->.
    { unfold events_of. destruct Hf as [->|Hf]; [done|].
      destruct (resolved t); [done|]. by rewrite bool_decide_eq_true_2. }
    destruct w; simpl. f_equal; lia.
Qed.

Lemma events_at_insert ops now h r0 t' rs :
  r0 ∉ rs →
  flat_map (events_at ops now (<[r0 := t']> h)) rs = flat_map (events_at ops now h) rs.
Proof.
  induction rs as [|r rs IH]; intros Hn; [done|].
  apply not_elem_of_cons in Hn as [Hne Hn]. simpl. rewrite IH by done.
  f_equal. unfold events_at. by rewrite list_lookup_insert_ne.
Qed.

Lemma escalate_all_world ops now rs : ∀ h w,
  NoDup rs →
  ∃ k, (escalate_all ops now rs h w).2 =
       mkWorld (wall w) (ticks w + k)
         (deliver (trace w) (flat_map (events_at ops now h) rs)).
Proof.
  induction rs as [|r rs IH]; intros h w Hnd; simpl.
  { exists 0%nat. destruct w; simpl. f_equal; lia. }
  apply NoDup_cons in Hnd as [Hr Hnd]. unfold events_at at 1.
  destruct (h !! r) as [t|] eqn:Ht; [|by apply IH].
  unfold mbind, M_bind, bind.
  destruct (escalate_world ops now t w) as [k1 E1].
  destruct (escalate ops now t w) as [t' w1]. simpl in E1. subst w1.
  destruct (IH (<[r := t']> h)
              (mkWorld (wall w) (ticks w + k1) (deliver (trace w) (events_of ops now t))) Hnd)
    as [k2 E2].
  rewrite E2. simpl. exists (k1 + k2)%nat.
  rewrite events_at_insert by done. rewrite deliver_app. f_equal. lia.
Qed.

(** The guards, as propositions. *)
Lemma fires1_iff t : fires1 t = true ↔ stage t = 0 ∧ (last_ping_ts t == 0)%Q.
Proof. unfold fires1. rewrite andb_true_iff, Z.eqb_eq, Qeq_bool_iff. done. Qed.

Lemma fires2_iff now t :
  fires2 now t = true ↔
  stage t = 1 ∧ (60 <= now - created_ts t)%Q ∧ (60 <= now - last_ping_ts t)%Q.
Proof.
  unfold fires2. rewrite !andb_true_iff, Z.eqb_eq, !Qle_bool_iff. tauto.
Qed.

Lemma fires3_iff now t :
  fires3 now t = true ↔
  stage t = 2 ∧ (240 <= now - created_ts t)%Q ∧ (180 <= now - last_ping_ts t)%Q.
Proof.
  unfold fires3. rewrite !andb_true_iff, Z.eqb_eq, !Qle_bool_iff.
  assert (60 + 180 == 240)%Q as -> by reflexivity. tauto.
Qed.

Lemma fires4_iff now t :
  fires4 now t = true ↔ stage t = 3 ∧ (660 <= now - created_ts t)%Q.
Proof.
  unfold fires4. rewrite !andb_true_iff, Z.eqb_eq, !Qle_bool_iff.
  assert (60 + 180 + 420 == 660)%Q as -> by reflexivity. tauto.
Qed.

Lemma overdue_iff now t : overdue now t = true ↔ (3600 <= now - created_ts t)%Q.
Proof. unfold overdue. apply Qle_bool_iff. Qed.

Lemma process_escalations_unfold ops s w :
  _process_escalations ops s w =
  let r := escalate_all ops (wall w (ticks w)) (values s) (heap s)
             (mkWorld (wall w) (S (ticks w)) (trace w)) in
  (mkStore r.1 (tickets s), r.2).
Proof.
  unfold _process_escalations, time_time, mbind, M_bind, bind, mret, M_ret, ret.
  simpl. by destruct (escalate_all _ _ _ _ _).
Qed.

(** C1 (amended): one escalation pass over a well-formed store treats every
    unresolved, unclaimed ticket as follows.  A ticket never pinged at
    stage 0 goes to stage 1 whatever its age; it reaches stage 2 exactly
    when it was at stage 1 with age >= 60s and >= 60s since the last ping;
    stage 3 exactly when at stage 2 with age >= 240s and >= 180s since the
    last ping; stage 4 exactly when at stage 3 with age >= 660s, and then the
    only message goes to the customer's chat.  The pass resolves the ticket
    exactly when its age is >= 3600s and no stage transition fired in this
    pass; the summary then goes to the admin list (to nobody when that list
    is empty), and no later pass touches the ticket.  The time of the last
    ping becomes a reading of the clock taken during the pass when a round
    with a non-empty target list fired, and stays what it was otherwise.
    The trace of the pass is made of the events of its tickets, in the
    order of the dict, each request followed by the line that [_send] logs
    when the transport fails. *)
Theorem escalation_pass_schedule ops s w :
  wf s →
  let now := wall w (ticks w) in
  let res := _process_escalations ops s w in
  trace res.2 = deliver (trace w) (flat_map (events_at ops now (heap s)) (values s)) ∧
  ∀ r t, r ∈ values s → heap s !! r = Some t → live t →
  ∃ t', heap res.1 !! r = Some t' ∧ same_request t t' ∧ claimed_by t' = None ∧
    let age := (now - created_ts t)%Q in
    let idle := (now - last_ping_ts t)%Q in
    (stage t = 0 → (last_ping_ts t == 0)%Q → stage t' = 1) ∧
    (stage t' = 2 ∧ stage t ≠ 2 ↔ stage t = 1 ∧ (60 <= age)%Q ∧ (60 <= idle)%Q) ∧
    (stage t' = 3 ∧ stage t ≠ 3 ↔ stage t = 2 ∧ (240 <= age)%Q ∧ (180 <= idle)%Q) ∧
    (stage t' = 4 ∧ stage t ≠ 4 ↔ stage t = 3 ∧ (660 <= age)%Q) ∧
    (stage t' = 4 ∧ stage t ≠ 4 →
       events_of ops now t =
       [Sent (customer_chat_id t) (_bot_prefix BUSY); Logged ERROR (msg_final (ticket_id t))]) ∧
    (resolved t' = true ↔ (3600 <= age)%Q ∧ stage t' = stage t) ∧
    (resolved t' = true →
       events_of ops now t = round t (ops_admin ops) ERROR (msg_admin (ticket_id t)) ∧
       ∀ ops' now' w', escalate ops' now' t' w' = (t', w')) ∧
    (pinged ops now t = false → last_ping_ts t' = last_ping_ts t) ∧
    (pinged ops now t = true →
       ∃ n, (ticks w < n)%nat ∧ (n < ticks res.2)%nat ∧ last_ping_ts t' = wall w n).
Proof.
  intros [Hnd Hlt] now res. subst res. rewrite process_escalations_unfold.
  cbv zeta. cbn [fst snd heap]. fold now.
  split.
  { destruct (escalate_all_world ops now (values s) (heap s)
                (mkWorld (wall w) (S (ticks w)) (trace w)) Hnd) as [k E].
    rewrite E. done. }
  intros r t Hr Ht Hl.
  destruct (escalate_all_visit_clock ops now (values s) (heap s)
              (mkWorld (wall w) (S (ticks w)) (trace w)) r t Hnd Hr Ht)
    as (wk & Hk & Hwall & Hticks & Hfin).
  cbn [wall ticks] in Hwall, Hticks.
  eexists. split; [exact Hk|].
  assert (Hfields :
    stage (escalate ops now t wk).1 = stage_after now t ∧
    resolved (escalate ops now t wk).1 = resolved_after now t ∧
    claimed_by (escalate ops now t wk).1 = None ∧
    same_request t (escalate ops now t wk).1).
  { rewrite (escalate_live _ _ _ _ Hl). destruct Hl as [Hres0 Hcl0]. by_branch ops now t. }
  destruct Hfields as (Hs & Hres & Hc & Hsame).
  split; [done|]. split; [done|].
  assert (Hlast :
    (pinged ops now t = false →
       last_ping_ts (escalate ops now t wk).1 = last_ping_ts t) ∧
    (pinged ops now t = true →
       last_ping_ts (escalate ops now t wk).1 = wall wk (ticks wk) ∧
       ticks (escalate ops now t wk).2 = S (ticks wk))).
  { rewrite (escalate_live _ _ _ _ Hl). by_branch ops now t. }
  destruct Hlast as [Hquiet Hping].
  rewrite Hs, Hres. unfold stage_after, resolved_after.
  pose proof (fires1_iff t) as F1. pose proof (fires2_iff now t) as F2.
  pose proof (fires3_iff now t) as F3. pose proof (fires4_iff now t) as F4.
  pose proof (overdue_iff now t) as F5.
  assert (Hev : events_of ops now t =
    if fires1 t then round t (ops_main ops) INFO (msg_main (ticket_id t))
    else if fires2 now t then round t (union_targets ops) WARN (msg_repeat60 (ticket_id t))
    else if fires3 now t then round t (union_targets ops) WARN (msg_repeat180 (ticket_id t))
    else if fires4 now t then
      [Sent (customer_chat_id t) (_bot_prefix BUSY); Logged ERROR (msg_final (ticket_id t))]
    else if overdue now t then round t (ops_admin ops) ERROR (msg_admin (ticket_id t))
    else []).
  { unfold events_of. destruct Hl as [-> Hc0].
    by rewrite bool_decide_eq_false_2 by (rewrite Hc0; tauto). }
  rewrite Hev.
  assert (Hfz : resolved_after now t = true →
                ∀ ops' now' w', escalate ops' now' (escalate ops now t wk).1 w'
                                = ((escalate ops now t wk).1, w')).
  { intros Hra ops' now' w'. apply escalate_frozen. left. by rewrite Hres. }
  unfold resolved_after in Hfz.
  assert (Hstamp : pinged ops now t = true →
            ∃ n, (ticks w < n)%nat ∧
                 (n < ticks (escalate_all ops now (values s) (heap s)
                               (mkWorld (wall w) (S (ticks w)) (trace w))).2)%nat ∧
                 last_ping_ts (escalate ops now t wk).1 = wall w n).
  { intros Hp. destruct (Hping Hp) as [Hlp Htk]. exists (ticks wk).
    split; [lia|]. split; [lia|]. by rewrite Hlp, Hwall. }
  clear Hping Hwall Hticks Hfin Hk.
  set (P0 := (last_ping_ts t == 0)%Q) in *.
  set (P2a := (60 <= now - created_ts t)%Q) in *.
  set (P2b := (60 <= now - last_ping_ts t)%Q) in *.
  set (P3a := (240 <= now - created_ts t)%Q) in *.
  set (P3b := (180 <= now - last_ping_ts t)%Q) in *.
  set (P4 := (660 <= now - created_ts t)%Q) in *.
  set (P5 := (3600 <= now - created_ts t)%Q) in *.
  clearbody P0 P2a P2b P3a P3b P4 P5.
  destruct (fires1 t), (fires2 now t), (fires3 now t), (fires4 now t), (overdue now t);
    simpl in Hfz |- *;
    repeat match goal with
           | H : true = true ↔ _ |- _ => apply proj1 in H; specialize (H eq_refl)
           | H : false = true ↔ _ |- _ => apply proj2 in H
           end;
    split_and!; try split; intros;
    solve [intuition (first [done | lia | by apply Hfz | by exfalso; auto])].
Qed.

Lemma pass_trace ops s w :
  wf s →
  trace (_process_escalations ops s w).2 =
  deliver (trace w) (flat_map (events_at ops (wall w (ticks w)) (heap s)) (values s)).
Proof.
  intros [Hnd _]. rewrite process_escalations_unfold. cbv zeta. cbn [snd].
  destruct (escalate_all_world ops (wall w (ticks w)) (values s) (heap s)
              (mkWorld (wall w) (S (ticks w)) (trace w)) Hnd) as [k E].
  by rewrite E.
Qed.

Lemma pass_visit_clock ops s w r t :
  wf s → r ∈ values s → heap s !! r = Some t →
  ∃ wk, heap (_process_escalations ops s w).1 !! r =
        Some (escalate ops (wall w (ticks w)) t wk).1 ∧
        wall wk = wall w ∧ (ticks w < ticks wk)%nat ∧
        (ticks (escalate ops (wall w (ticks w)) t wk).2
         <= ticks (_process_escalations ops s w).2)%nat.
Proof.
  intros [Hnd _] Hr Ht. rewrite process_escalations_unfold. cbv zeta. cbn [fst snd heap].
  destruct (escalate_all_visit_clock ops (wall w (ticks w)) (values s) (heap s)
              (mkWorld (wall w) (S (ticks w)) (trace w)) r t Hnd Hr Ht)
    as (wk & Hk & Hwall & Hticks & Hfin).
  exists wk. cbn [wall ticks] in Hwall, Hticks. split_and!; [done|done|lia|done].
Qed.

Lemma pass_visit ops s w r t :
  wf s → r ∈ values s → heap s !! r = Some t →
  ∃ wk, heap (_process_escalations ops s w).1 !! r =
        Some (escalate ops (wall w (ticks w)) t wk).1.
Proof.
  intros [Hnd _] Hr Ht. rewrite process_escalations_unfold. cbv zeta. cbn [fst heap].
  by apply escalate_all_visit.
Qed.

Lemma union_targets_nil ops :
  ops_main ops = [] → ops_all ops = [] → union_targets ops = [].
Proof.
  unfold union_targets. intros -> ->. simpl.
  destruct (set_list []) as [|x l] eqn:E; [done|].
  assert (Hx : x ∈ @nil Z).
  { apply set_list_elem. rewrite E. apply list_elem_of_here. }
  by apply elem_of_nil in Hx.
Qed.

Lemma union_targets_elem ops c :
  c ∈ union_targets ops ↔ c ∈ ops_main ops ∨ c ∈ ops_all ops.
Proof. unfold union_targets. by rewrite set_list_elem, elem_of_app. Qed.

(** C5: in a pass over a well-formed store, a ticket whose stage transition
    is due and whose target list is empty advances all the same: afterwards
    its stage is one higher, it is still unresolved and unclaimed, its
    last-ping time and its request data are as before, and nothing is sent
    or logged for it.  The trace of the pass is made of the events of its
    tickets. *)
Theorem empty_roster_still_advances ops s w :
  wf s →
  let now := wall w (ticks w) in
  let res := _process_escalations ops s w in
  trace res.2 = deliver (trace w) (flat_map (events_at ops now (heap s)) (values s)) ∧
  ∀ r t, r ∈ values s → heap s !! r = Some t → live t →
    let age := (now - created_ts t)%Q in
    let idle := (now - last_ping_ts t)%Q in
    let advanced_to k :=
      ∃ t', heap res.1 !! r = Some t' ∧ stage t' = k ∧
            resolved t' = false ∧ claimed_by t' = None ∧
            last_ping_ts t' = last_ping_ts t ∧ same_request t t' ∧
            events_of ops now t = [] in
    (stage t = 0 → (last_ping_ts t == 0)%Q → ops_main ops = [] → advanced_to 1) ∧
    (stage t = 1 → (60 <= age)%Q → (60 <= idle)%Q →
       ops_main ops = [] → ops_all ops = [] → advanced_to 2) ∧
    (stage t = 2 → (240 <= age)%Q → (180 <= idle)%Q →
       ops_main ops = [] → ops_all ops = [] → advanced_to 3).
Proof.
  intros Hwf now res. split; [by apply pass_trace|].
  intros r t Hr Ht Hl age idle advanced_to.
  destruct (pass_visit ops s w r t Hwf Hr Ht) as [wk Hk]. fold now in Hk. fold res in Hk.
  subst advanced_to. cbv beta. rewrite Hk.
  assert (Hfields :
    stage (escalate ops now t wk).1 = stage_after now t ∧
    resolved (escalate ops now t wk).1 = resolved_after now t ∧
    claimed_by (escalate ops now t wk).1 = None ∧
    same_request t (escalate ops now t wk).1).
  { rewrite (escalate_live _ _ _ _ Hl). destruct Hl as [Hres0 Hcl0]. by_branch ops now t. }
  destruct Hfields as (Hs & Hres & Hc & Hsame).
  assert (Hlast :
    (pinged ops now t = false →
       last_ping_ts (escalate ops now t wk).1 = last_ping_ts t) ∧
    (pinged ops now t = true →
       last_ping_ts (escalate ops now t wk).1 = wall wk (ticks wk) ∧
       ticks (escalate ops now t wk).2 = S (ticks wk))).
  { rewrite (escalate_live _ _ _ _ Hl). by_branch ops now t. }
  destruct Hlast as [Hquiet _].
  assert (Hev : events_of ops now t =
    if fires1 t then round t (ops_main ops) INFO (msg_main (ticket_id t))
    else if fires2 now t then round t (union_targets ops) WARN (msg_repeat60 (ticket_id t))
    else if fires3 now t then round t (union_targets ops) WARN (msg_repeat180 (ticket_id t))
    else if fires4 now t then
      [Sent (customer_chat_id t) (_bot_prefix BUSY); Logged ERROR (msg_final (ticket_id t))]
    else if overdue now t then round t (ops_admin ops) ERROR (msg_admin (ticket_id t))
    else []).
  { unfold events_of. destruct Hl as [-> Hc0].
    by rewrite bool_decide_eq_false_2 by (rewrite Hc0; tauto). }
  rewrite Hev. unfold stage_after in Hs. unfold resolved_after in Hres.
  unfold pinged in Hquiet. unfold round. split_and!.
  - intros H0 Hp Hm. rewrite (proj2 (fires1_iff t)) in * by done.
    rewrite Hm in *. eexists. split; [done|]. split_and!; try done. by apply Hquiet.
  - intros H1 Ha Hi Hm Hall.
    assert (fires1 t = false) as E1.
    { apply not_true_is_false. rewrite fires1_iff. lia. }
    rewrite E1 in *. rewrite (proj2 (fires2_iff now t)) in * by done.
    rewrite union_targets_nil in * by done.
    eexists. split; [done|]. split_and!; try done. by apply Hquiet.
  - intros H2 Ha Hi Hm Hall.
    assert (fires1 t = false) as E1.
    { apply not_true_is_false. rewrite fires1_iff. lia. }
    assert (fires2 now t = false) as E2.
    { apply not_true_is_false. rewrite fires2_iff. lia. }
    rewrite E1, E2 in *. rewrite (proj2 (fires3_iff now t)) in * by done.
    rewrite union_targets_nil in * by done.
    eexists. split; [done|]. split_and!; try done. by apply Hquiet.
Qed.

(** *** Objects only move forward *)

Lemma evolves_refl t : evolves t t.
Proof. unfold evolves, same_request. split_and!; auto; lia. Qed.

Lemma frozen_evolves t t' : evolves t t' → frozen t → frozen t'.
Proof. intros (_ & _ & _ & _ & H) Hf. by rewrite (H Hf). Qed.

Lemma evolves_trans t1 t2 t3 : evolves t1 t2 → evolves t2 t3 → evolves t1 t3.
Proof.
  intros H12 H23. pose proof (frozen_evolves _ _ H12) as Hfz.
  destruct H12 as (S1 & L1 & C1 & R1 & F1), H23 as (S2 & L2 & C2 & R2 & F2).
  unfold evolves, same_request in *. split_and!; try (intuition congruence); try lia.
  all: first [ intros c Hc; apply C2, C1, Hc
             | intros Hf; rewrite <- (F1 Hf); apply F2; rewrite (F1 Hf); exact Hf ].
Qed.

Lemma escalate_evolves ops now t w : evolves t (escalate ops now t w).1.
Proof.
  destruct (live_or_frozen t) as [Hl|Hf].
  - destruct (escalate_fields ops now t w Hl) as (Hs & Hr & Hc & Hsame).
    destruct Hl as [Hres Hcl]. unfold evolves. split_and!.
    + done.
    + rewrite Hs. apply stage_after_ge.
    + intros c. rewrite Hcl. done.
    + rewrite Hres. done.
    + intros [Hf|Hf]; congruence.
  - rewrite escalate_frozen by done. apply evolves_refl.
Qed.

Lemma claim_evolves c t : live t → evolves t (set_claimed_by (Some c) t).
Proof.
  intros [Hr Hc]. unfold evolves, same_request. simpl. split_and!; auto; try lia.
  - intros c'. rewrite Hc. done.
  - intros [Hf|Hf]; congruence.
Qed.

Lemma heap_evolves_refl h : heap_evolves h h.
Proof. intros i t Ht. exists t. split; [done|apply evolves_refl]. Qed.

Lemma heap_evolves_trans h1 h2 h3 :
  heap_evolves h1 h2 → heap_evolves h2 h3 → heap_evolves h1 h3.
Proof.
  intros H12 H23 i t Ht. destruct (H12 i t Ht) as (t2 & Ht2 & E12).
  destruct (H23 i t2 Ht2) as (t3 & Ht3 & E23). exists t3.
  split; [done|]. by eapply evolves_trans.
Qed.

Lemma heap_evolves_insert h r t t' :
  h !! r = Some t → evolves t t' → heap_evolves h (<[r := t']> h).
Proof.
  intros Hr He i ti Hi. destruct (decide (i = r)) as [->|Hne].
  - exists t'. rewrite list_lookup_insert_eq by (by eapply lookup_lt_Some).
    split; [done|]. congruence.
  - exists ti. rewrite list_lookup_insert_ne by done. split; [done|apply evolves_refl].
Qed.

Lemma escalate_all_evolves ops now rs : ∀ h w,
  heap_evolves h (escalate_all ops now rs h w).1.
Proof.
  induction rs as [|r rs IH]; intros h w; simpl; [apply heap_evolves_refl|].
  destruct (h !! r) as [t|] eqn:Ht; [|apply IH].
  unfold mbind, M_bind, bind.
  pose proof (escalate_evolves ops now t w) as He.
  destruct (escalate ops now t w) as [t' w1]. simpl in He.
  eapply heap_evolves_trans; [|apply IH]. by eapply heap_evolves_insert.
Qed.

(** *** The sort behind [_claim_oldest] *)

Lemma insert_by_elem key x l y : y ∈ insert_by key x l ↔ y = x ∨ y ∈ l.
Proof.
  induction l as [|z l IH]; simpl.
  - rewrite list_elem_of_singleton, elem_of_nil. tauto.
  - destruct (Qle_bool (key x) (key z)).
    + by rewrite elem_of_cons.
    + rewrite !elem_of_cons, IH. tauto.
Qed.

Lemma sort_by_elem key l y : y ∈ sort_by key l ↔ y ∈ l.
Proof.
  induction l as [|x l IH]; simpl; [done|].
  rewrite insert_by_elem, elem_of_cons, IH. done.
Qed.

Lemma sort_by_head key l :
  match sort_by key l with
  | [] => l = []
  | r :: _ => r ∈ l ∧ ∀ x, x ∈ l → (key r <= key x)%Q
  end.
Proof.
  induction l as [|x l IH]; simpl; [done|].
  destruct (sort_by key l) as [|r rest] eqn:E; simpl.
  - subst l. split; [apply list_elem_of_here|].
    intros y Hy. apply list_elem_of_singleton in Hy as ->. apply Qle_refl.
  - destruct IH as [Hr Hmin].
    destruct (Qle_bool (key x) (key r)) eqn:Hle.
    + apply Qle_bool_iff in Hle. split; [apply list_elem_of_here|].
      intros y Hy. apply elem_of_cons in Hy as [->|Hy]; [apply Qle_refl|].
      eapply Qle_trans; [exact Hle|]. by apply Hmin.
    + split; [by apply list_elem_of_further|].
      intros y Hy. apply elem_of_cons in Hy as [->|Hy]; [|by apply Hmin].
      destruct (Qlt_le_dec (key r) (key x)) as [Hlt|Hge]; [by apply Qlt_le_weak|].
      apply Qle_bool_iff in Hge. congruence.
Qed.


Lemma claim_oldest_open c s r s' :
  _claim_oldest c s = (Some r, s') →
  r ∈ values s ∧ is_open (heap s) r = true ∧
  s' = mkStore (alter (set_claimed_by (Some c)) r (heap s)) (tickets s).
Proof.
  unfold _claim_oldest.
  pose proof (sort_by_head (key_of (heap s))
                (filter (fun r => is_open (heap s) r = true) (values s))) as Hh.
  destruct (sort_by _ _) as [|r0 rest]; [done|].
  intros [= <- <-]. destruct Hh as [Hin _].
  apply list_elem_of_filter in Hin as [Ho Hin]. done.
Qed.

Lemma claim_heap_evolves c s : heap_evolves (heap s) (heap (_claim_oldest c s).2).
Proof.
  destruct (_claim_oldest c s) as [[r|] s'] eqn:E.
  - apply claim_oldest_open in E as (_ & Ho & ->). simpl.
    apply is_open_spec in Ho as (t & Ht & Hl).
    intros i ti Hi. destruct (decide (i = r)) as [->|Hne].
    + exists (set_claimed_by (Some c) t). rewrite list_lookup_alter_eq, Ht.
      split; [done|]. assert (ti = t) as -> by congruence. by apply claim_evolves.
    + exists ti. rewrite list_lookup_alter_ne by done.
      split; [done|apply evolves_refl].
  - unfold _claim_oldest in E. destruct (sort_by _ _); [|done].
    injection E as <-. apply heap_evolves_refl.
Qed.

Lemma step_heap_evolves o st : heap_evolves (heap st.1) (heap (step o st).1).
Proof.
  destruct st as [s w]. destruct o as [p c x sm|c|ops]; simpl.
  - intros i t Ht. exists t. split; [|apply evolves_refl].
    by apply lookup_app_l_Some.
  - apply claim_heap_evolves.
  - rewrite process_escalations_unfold. cbv zeta. cbn [fst heap].
    apply escalate_all_evolves.
Qed.


Lemma events_of_frozen ops now t : frozen t → events_of ops now t = [].
Proof.
  unfold events_of. intros [->|Hf]; [done|].
  destruct (resolved t); [done|]. by rewrite bool_decide_eq_true_2.
Qed.

(** C2: [_claim_oldest] returns nothing, and changes nothing, exactly when
    the dict holds no unresolved unclaimed ticket.  Otherwise it returns a
    ticket of the dict that was unresolved and unclaimed, whose creation
    time is minimal among those; afterwards the [claimed_by] of that ticket
    is the operator, its other fields are as before, and every other
    object is as before. *)
Theorem claim_oldest_spec c s :
  match _claim_oldest c s with
  | (None, s') =>
      s' = s ∧ ∀ r t, r ∈ values s → heap s !! r = Some t → ¬ live t
  | (Some r, s') =>
      r ∈ values s ∧ tickets s' = tickets s ∧
      ∃ t, heap s !! r = Some t ∧ resolved t = false ∧ claimed_by t = None ∧
        (∀ r' t', r' ∈ values s → heap s !! r' = Some t' → live t' →
                  (created_ts t <= created_ts t')%Q) ∧
        (∃ t', heap s' !! r = Some t' ∧ claimed_by t' = Some c ∧
               resolved t' = false ∧ stage t' = stage t ∧
               last_ping_ts t' = last_ping_ts t ∧ same_request t t') ∧
        ∀ r', r' ≠ r → heap s' !! r' = heap s !! r'
  end.
Proof.
  unfold _claim_oldest.
  pose proof (sort_by_head (key_of (heap s))
                (filter (fun r => is_open (heap s) r = true) (values s))) as Hh.
  destruct (sort_by _ _) as [|r0 rest].
  - split; [done|]. intros r t Hr Ht Hl.
    eapply (filter_nil_not_elem_of _ _ r Hh); [|done].
    apply is_open_spec. eauto.
  - destruct Hh as [Hin Hmin].
    apply list_elem_of_filter in Hin as [Ho Hin].
    apply is_open_spec in Ho as (t & Ht & Hr & Hc).
    split; [done|]. split; [done|]. exists t. simpl. split_and!; try done.
    + intros r' t' Hr' Ht' Hl'.
      specialize (Hmin r'). unfold key_of in Hmin. rewrite Ht, Ht' in Hmin.
      apply Hmin. apply list_elem_of_filter. split; [|done].
      apply is_open_spec. eauto.
    + exists (set_claimed_by (Some c) t). rewrite list_lookup_alter_eq, Ht.
      split; [done|]. by split_and!.
    + intros r' Hne. by rewrite list_lookup_alter_ne.
Qed.


(** C4 fails on the code: two creations for the same chat within one
    second get the same id, and the second replaces the first in the dict. *)
Theorem create_twice_same_second :
  let w := mkWorld (linear_clock (1002 # 10) (1 # 10)) 0 [] in
  let '((id1, s1), w1) := _create_ticket (u "telegram") 5 (u "first") (u "S1") empty_store w in
  let '((id2, s2), w2) := _create_ticket (u "telegram") 5 (u "second") (u "S2") s1 w1 in
  id1 = u "100_5" ∧ id2 = id1 ∧
  length (tickets s1) = 1%nat ∧ length (tickets s2) = 1%nat ∧
  ((fun r => customer_text <$> heap s2 !! r) <$> values s2) = [Some (u "second")].
Proof. vm_compute. done. Qed.

(** *** Counting the requests to the admins *)














Lemma pass_frame ops s w :
  let res := _process_escalations ops s w in
  tickets res.1 = tickets s ∧ length (heap res.1) = length (heap s) ∧
  wall res.2 = wall w ∧ (ticks w <= ticks res.2)%nat.
Proof.
  rewrite process_escalations_unfold. cbv zeta. cbn [fst snd heap tickets].
  split; [done|]. split; [apply escalate_all_length|].
  destruct (escalate_all_clock ops (wall w (ticks w)) (values s) (heap s)
              (mkWorld (wall w) (S (ticks w)) (trace w))) as (k & Ha & Hb).
  rewrite Ha, Hb. simpl. split; [done|lia].
Qed.








(** *** Creation *)

Lemma create_unfold p c x sm s w :
  _create_ticket p c x sm s w =
  let tid := str_of_Z (py_int (wall w (ticks w))) ++ u "_" ++ str_of_Z c in
  ((tid,
    mkStore (heap s ++ [mkTicket tid p c x sm (wall w (S (ticks w))) None 0 0 false])
            (dict_set tid (length (heap s)) (tickets s))),
   mkWorld (wall w) (S (S (ticks w))) (trace w)).
Proof. done. Qed.

Lemma dict_set_elem {V} k (v : V) d x :
  x ∈ map snd (dict_set k v d) → x = v ∨ x ∈ map snd d.
Proof.
  induction d as [|[k' v'] d IH]; simpl.
  - rewrite list_elem_of_singleton. tauto.
  - destruct (decide (k' = k)); simpl; rewrite !elem_of_cons; [tauto|].
    intros [?|H]; [tauto|]. destruct (IH H); tauto.
Qed.

Lemma dict_set_NoDup {V} k (v : V) d :
  NoDup (map snd d) → v ∉ map snd d → NoDup (map snd (dict_set k v d)).
Proof.
  induction d as [|[k' v'] d IH]; simpl; intros Hnd Hv.
  - apply NoDup_singleton.
  - apply NoDup_cons in Hnd as [Hv' Hnd]. apply not_elem_of_cons in Hv as [Hne Hv].
    destruct (decide (k' = k)); simpl; apply NoDup_cons.
    + done.
    + split; [|by apply IH]. intros H. apply dict_set_elem in H as [?|?]; congruence.
Qed.







End WithOutside.

(** *** Examples *)

(** Scenario C of the design: passes at 0s, 65s, 250s, 665s and 3601s
    after the creation. *)
Example scenario_c :
  let ops := mkOps [7] [7] [9] in
  let pass_at t st := run [Pass ops] (set_clock (linear_clock t 0) st) in
  let s1 := pass_at 0%Q (fresh_store, world_at 0) in
  let s2 := pass_at 65%Q s1 in
  let s3 := pass_at 250%Q s2 in
  let s4 := pass_at 665%Q s3 in
  let s5 := pass_at 3601%Q s4 in
  map (fun st => (stage <$> heap st.1 !! 0%nat, resolved <$> heap st.1 !! 0%nat))
      [s1; s2; s3; s4; s5]
  = [(Some 1, Some false); (Some 2, Some false); (Some 3, Some false);
     (Some 4, Some false); (Some 4, Some true)] ∧
  map fst (sent_messages (trace s5.2)) = [7; 7; 7; 5; 9].
Proof. vm_compute. done. Qed.

(** C1, as stated, fails: a ticket that is already an hour old when the
    first pass sees it is moved to stage 1 by that pass and stays
    unresolved. *)
Lemma overdue_fresh_ticket_not_resolved :
  let s' := (_process_escalations demo_ops fresh_store (world_at 4000)).1 in
  Qle_bool 3600 (4000 - created_ts fresh_ticket) = true ∧
  (resolved <$> heap s' !! 0%nat) = Some false ∧
  (stage <$> heap s' !! 0%nat) = Some 1.
Proof. vm_compute. done. Qed.

(** The same pass under the two transports: when the transport is down,
    every request is followed by the line that [_send] logs; the set of the
    stage-2 targets yields 8 before 7. *)
Example pass_with_transport_down :
  let s := mkStore [StoreInv.pinged_ticket] [(u "0_5", 0%nat)] in
  trace (@_process_escalations reliable small_table demo_ops s (world_at 75)).2 =
    [Sent 8 (u "S"); Sent 7 (u "S");
     Logged WARN (u "Ticket 0_5 повтор через 60 сек всем операторам")] ∧
  trace (@_process_escalations down small_table demo_ops s (world_at 75)).2 =
    [Sent 8 (u "S"); Logged ERROR (u "Telegram sendMessage HTTP 502: Bad Gateway");
     Sent 7 (u "S"); Logged ERROR (u "Telegram sendMessage HTTP 502: Bad Gateway");
     Logged WARN (u "Ticket 0_5 повтор через 60 сек всем операторам")].
Proof. vm_compute. done. Qed.

Lemma wf_fresh_store : wf fresh_store.
Proof.
  split; [apply NoDup_singleton|]. repeat constructor.
Qed.

Lemma escalation_pass_schedule_witness :
  let s := mkStore [StoreInv.pinged_ticket] [(u "0_5", 0%nat)] in
  let res := @_process_escalations down small_table demo_ops s (world_at 75) in
  wf s ∧
  trace res.2 =
    [Sent 8 (u "S"); Logged ERROR (u "Telegram sendMessage HTTP 502: Bad Gateway");
     Sent 7 (u "S"); Logged ERROR (u "Telegram sendMessage HTTP 502: Bad Gateway");
     Logged WARN (u "Ticket 0_5 повтор через 60 сек всем операторам")] ∧
  ∃ t', heap res.1 !! 0%nat = Some t' ∧ stage t' = 2 ∧ last_ping_ts t' = 75%Q.
Proof.
  intros s res.
  assert (Hwf : wf s).
  { split; [apply NoDup_singleton|]. repeat constructor. }
  split; [exact Hwf|].
  destruct (@escalation_pass_schedule down small_table demo_ops s (world_at 75) Hwf)
    as [Htr Hall].
  split.
  { etrans; [exact Htr|]. vm_compute. reflexivity. }
  destruct (Hall 0%nat StoreInv.pinged_ticket) as (t' & Ht' & _ & _ & Hsched).
  { apply list_elem_of_here. }
  { reflexivity. }
  { split; reflexivity. }
  exists t'. split; [exact Ht'|].
  cbv zeta in Hsched.
  destruct Hsched as (_ & H2 & _ & _ & _ & _ & _ & _ & Hping).
  split.
  - apply H2. split; [reflexivity|]. split; vm_compute; discriminate.
  - destruct (Hping eq_refl) as (n & Hlo & Hhi & ->).
    assert (n = 1%nat) as ->; [|reflexivity].
    revert Hlo Hhi. vm_compute. lia.
Defined.

Lemma claim_oldest_spec_witness :
  (_claim_oldest 7 StoreInv.three_waiting).1 = Some 1%nat ∧
  (claimed_by <$> heap (_claim_oldest 7 StoreInv.three_waiting).2 !! 1%nat)
  = Some (Some 7) ∧
  (claimed_by <$> heap (_claim_oldest 7 StoreInv.three_waiting).2 !! 2%nat)
  = Some None.
Proof.
  pose proof (claim_oldest_spec 7 StoreInv.three_waiting) as Hspec.
  destruct (_claim_oldest 7 StoreInv.three_waiting) as [[r|] s'] eqn:E.
  - assert (r = 1%nat) as -> by (vm_compute in E; congruence).
    destruct Hspec as (_ & _ & t & _ & _ & _ & _ & (t' & Ht' & Hc & _) & Hother).
    cbn [fst snd]. split; [reflexivity|]. split.
    + rewrite Ht'. cbn [fmap option_fmap option_map]. by rewrite Hc.
    + rewrite (Hother 2%nat) by discriminate. reflexivity.
  - vm_compute in E. discriminate E.
Defined.

Lemma empty_roster_still_advances_witness :
  let res := _process_escalations (mkOps [] [] []) fresh_store (world_at 0) in
  wf fresh_store ∧
  ∃ t', heap res.1 !! 0%nat = Some t' ∧ stage t' = 1 ∧
        last_ping_ts t' = last_ping_ts fresh_ticket.
Proof.
  intros res. split; [exact wf_fresh_store|].
  destruct (empty_roster_still_advances (mkOps [] [] []) fresh_store (world_at 0)
              wf_fresh_store) as [_ Hall].
  destruct (Hall 0%nat fresh_ticket) as (H1 & _ & _).
  { apply list_elem_of_here. }
  { reflexivity. }
  { split; reflexivity. }
  destruct H1 as (t' & Ht' & Hst & _ & _ & Hlp & _); [reflexivity..|].
  exists t'. split; [exact Ht'|]. split; [exact Hst|exact Hlp].
Defined.




End TicketFacts.
(** * Properties of the text normaliser *)

Module TextFacts.
Import Text.

Lemma lstrip_Forall (P : N → Prop) l : Forall P l → Forall P (lstrip l).
Proof.
  induction 1 as [|c r Hc Hr IH]; simpl; [constructor|].
  unfold lstrip in *. simpl. destruct (is_space c); [exact IH|by constructor].
Qed.

Lemma rstrip_Forall (P : N → Prop) l : Forall P l → Forall P (rstrip l).
Proof.
  induction 1 as [|c r Hc Hr IH]; simpl; [constructor|].
  destruct (rstrip r) as [|d r']; [destruct (is_space c); repeat constructor; done|].
  by constructor.
Qed.

Lemma strip_Forall (P : N → Prop) l : Forall P l → Forall P (strip l).
Proof. intros. by apply rstrip_Forall, lstrip_Forall. Qed.

Lemma rstrip_head c r d r' : rstrip (c :: r) = d :: r' → d = c.
Proof.
  simpl. destruct (rstrip r); [destruct (is_space c)|]; congruence.
Qed.

Lemma rstrip_idem l : rstrip (rstrip l) = rstrip l.
Proof.
  induction l as [|c r IH]; [done|]. simpl.
  destruct (rstrip r) as [|d r'] eqn:E.
  - destruct (is_space c) eqn:Hc; [done|]. simpl. by rewrite Hc.
  - change (rstrip (c :: d :: r')) with
      (match rstrip (d :: r') with [] => if is_space c then [] else [c] | x => c :: x end).
    by rewrite IH.
Qed.

Lemma lstrip_head l :
  lstrip l = [] ∨ ∃ c r, lstrip l = c :: r ∧ is_space c = false.
Proof.
  induction l as [|c r IH]; [by left|]. unfold lstrip in *. simpl.
  destruct (is_space c) eqn:Hc; [exact IH|]. right. eauto.
Qed.

Lemma strip_idem l : strip (strip l) = strip l.
Proof.
  unfold strip. destruct (lstrip_head l) as [->|(c & r & -> & Hc)]; [done|].
  assert (Hl : lstrip (rstrip (c :: r)) = rstrip (c :: r)).
  { destruct (rstrip (c :: r)) as [|d r'] eqn:E; [done|].
    apply rstrip_head in E as ->. unfold lstrip. simpl. by rewrite Hc. }
  rewrite Hl. apply rstrip_idem.
Qed.

Section WithTables.
Context `{PyUnicode}.

Lemma collapse_ws_Forall (P : N → Prop) s :
  P 32%N → Forall P s → Forall P (collapse_ws s).
Proof.
  intros H32. induction 1 as [|c r Hc Hr IH]; simpl; [constructor|].
  destruct (is_space c).
  - destruct r as [|c' r']; [by repeat constructor|].
    destruct (is_space c'); [exact IH|by constructor].
  - by constructor.
Qed.

Lemma tidy_collapse_ws s : tidy (collapse_ws s).
Proof.
  induction s as [|c r IH]; simpl; [done|].
  destruct (is_space c) eqn:Hc.
  - destruct r as [|c' r']; [simpl; tauto|].
    destruct (is_space c') eqn:Hc'; [exact IH|].
    split; [|exact IH]. intros _. split; [done|]. simpl. by rewrite Hc'.
  - split; [|exact IH]. congruence.
Qed.

Lemma collapse_ws_tidy l : tidy l → collapse_ws l = l.
Proof.
  induction l as [|c r IH]; [done|]. intros [Hc Hr]. simpl.
  destruct (is_space c) eqn:Es.
  - destruct (Hc eq_refl) as [-> Hn]. destruct r as [|c' r']; [done|].
    rewrite Hn. by rewrite IH.
  - by rewrite IH.
Qed.

Lemma tidy_lstrip l : tidy l → tidy (lstrip l).
Proof.
  induction l as [|c r IH]; [done|]. intros [Hc Hr]. unfold lstrip in *. simpl.
  destruct (is_space c) eqn:Es; [by apply IH|]. split; [congruence|done].
Qed.

Lemma tidy_rstrip l : tidy l → tidy (rstrip l).
Proof.
  induction l as [|c r IH]; [done|]. intros [Hc Hr]. simpl.
  specialize (IH Hr).
  destruct (rstrip r) as [|d r'] eqn:E.
  - destruct (is_space c) eqn:Es; [done|]. simpl. split; [congruence|done].
  - split; [|exact IH]. intros Es. destruct (Hc Es) as [-> Hn]. split; [done|].
    destruct r as [|c' r0]; [done|]. apply rstrip_head in E as ->. exact Hn.
Qed.

Lemma tidy_spaces l : tidy l → Forall (fun c => is_space c = true → c = 32%N) l.
Proof.
  induction l as [|c r IH]; [constructor|]. intros [Hc Hr].
  constructor; [|by apply IH]. intros Es. by destruct (Hc Es).
Qed.

(** What every code point of a normalised text satisfies. *)
Lemma normalize_text_chars x :
  Forall (fun c => lower_fixed c = true ∧ c ≠ 1105%N ∧ keep c = true)
         (normalize_text x).
Proof.
  unfold normalize_text. apply strip_Forall.
  apply collapse_ws_Forall; [split_and!; [apply lower_fixed_space|done|done]|].
  unfold sub_noise, replace_yo. rewrite !Forall_map.
  eapply Forall_impl; [apply (lower_out x)|]. intros c Hc. simpl.
  destruct (c =? 1105)%N eqn:E.
  - destruct (keep 1077%N) eqn:Ek.
    + split_and!; [apply lower_fixed_ie|done|done].
    + split_and!; [apply lower_fixed_space|done|done].
  - apply N.eqb_neq in E. destruct (keep c) eqn:Ek.
    + done.
    + split_and!; [apply lower_fixed_space|done|done].
Qed.

Lemma normalize_text_tidy x : tidy (normalize_text x).
Proof.
  unfold normalize_text, strip. apply tidy_rstrip, tidy_lstrip, tidy_collapse_ws.
Qed.

Lemma map_fixed {A} (f : A → A) l : Forall (fun c => f c = c) l → map f l = l.
Proof. induction 1 as [|c r Hc _ IH]; simpl; [done|]. by rewrite Hc, IH. Qed.

Lemma normalize_text_idem x : normalize_text (normalize_text x) = normalize_text x.
Proof.
  pose proof (normalize_text_chars x) as Hch.
  pose proof (normalize_text_tidy x) as Ht.
  set (y := normalize_text x) in *.
  assert (Hy : y = strip (collapse_ws (sub_noise (replace_yo (str_lower x))))) by done.
  unfold normalize_text at 1.
  rewrite lower_stable by (eapply Forall_impl; [exact Hch|]; by intros c (? & _)).
  assert (replace_yo y = y) as ->.
  { apply map_fixed. eapply Forall_impl; [exact Hch|]. intros c (_ & Hne & _). simpl.
    apply N.eqb_neq in Hne. by rewrite Hne. }
  assert (sub_noise y = y) as ->.
  { apply map_fixed. eapply Forall_impl; [exact Hch|]. intros c (_ & _ & Hk). simpl.
    by rewrite Hk. }
  rewrite collapse_ws_tidy by done.
  rewrite Hy. apply strip_idem.
Qed.

Lemma split_sp_chars s tok :
  tok ∈ split_sp s → Forall (fun c => c ∈ s ∧ c ≠ 32%N) tok.
Proof.
  revert tok. induction s as [|c r IH]; intros tok; simpl.
  - intros Ht. apply list_elem_of_singleton in Ht as ->. constructor.
  - assert (Hw : ∀ t, Forall (fun c0 => c0 ∈ r ∧ c0 ≠ 32%N) t →
                      Forall (fun c0 => c0 ∈ c :: r ∧ c0 ≠ 32%N) t).
    { intros t Hf. eapply Forall_impl; [exact Hf|].
      intros c0 [? ?]. split; [by right|done]. }
    destruct (c =? 32)%N eqn:E.
    + intros Ht. apply elem_of_cons in Ht as [->|Ht]; [constructor|]. by apply Hw, IH.
    + apply N.eqb_neq in E. destruct (split_sp r) as [|w ws] eqn:Es.
      * intros Ht. apply list_elem_of_singleton in Ht as ->.
        repeat constructor; done.
      * intros Ht. apply elem_of_cons in Ht as [->|Ht].
        -- constructor; [split; [by left|done]|]. apply Hw, IH. by left.
        -- apply Hw, IH. by right.
Qed.

(** C7: every token has at least two code points, all of them from the
    canonical alphabet (accepted by the letter-and-digit part of the
    pattern, not white space, in lower case, and never ё), and normalising
    a normalised text changes nothing. *)
Theorem tokens_canonical_normalize_idempotent x :
  (∀ tok, tok ∈ tokenize x → (2 <= length tok)%nat ∧ Forall canonical tok) ∧
  normalize_text (normalize_text x) = normalize_text x.
Proof.
  split; [|apply normalize_text_idem].
  intros tok Ht. unfold tokenize in Ht. apply list_elem_of_filter in Ht as [Hlen Ht].
  split; [done|].
  pose proof (normalize_text_chars x) as Hch. rewrite Forall_forall in Hch.
  pose proof (tidy_spaces _ (normalize_text_tidy x)) as Hsp. rewrite Forall_forall in Hsp.
  eapply Forall_impl; [apply (split_sp_chars _ _ Ht)|].
  intros c [Hin Hne]. destruct (Hch c Hin) as (Hf & Hyo & Hk).
  assert (Hs : is_space c = false).
  { destruct (is_space c) eqn:Es; [|done]. by specialize (Hsp c Hin Es). }
  unfold canonical. split_and!; try done.
  unfold keep in Hk. by rewrite Hs in Hk.
Qed.

End WithTables.

(** With the Latin and Cyrillic tables the canonical alphabet is a-z, а-я,
    0-9 and the lower-case letters that case-insensitive matching adds:
    dotless i, long s and seven old Cyrillic letter forms. *)
Lemma canonical_latin_cyrillic c :
  canonical c ↔
  (in_range 97 122 c || in_range 1072 1103 c || in_range 48 57 c
   || (c =? 305)%N || (c =? 383)%N || in_range 7296 7302 c) = true.
Proof.
  unfold canonical. cbn [alnum_ic lower_fixed latin_cyrillic].
  unfold lc_alnum_ic, lc_lower_fixed, is_space, in_range.
  rewrite negb_true_iff.
  repeat (progress rewrite ?orb_true_iff, ?orb_false_iff, ?andb_true_iff,
            ?andb_false_iff, ?N.leb_le, ?N.leb_gt, ?N.eqb_eq, ?N.eqb_neq).
  lia.
Qed.

Example tokenize_demo :
  tokenize (u "  Привет,  ЁЖИК!  Nokia-1280 ſtop a KİT ") =
  [u "привет"; u "ежик"; u "nokia"; u "1280"; u "ſtop"; u "ki"].
Proof. vm_compute. reflexivity. Qed.

End TextFacts.

(** * Properties of the fact guard *)

Module AIFacts.
Import AI.

Example extract_numbers_demo :
  extract_numbers (u "a1.5,6 7. 1,2,3 x12..4") =
  [u "1.5"; u "6"; u "7"; u "1,2"; u "3"; u "12"; u "4"].
Proof. vm_compute. reflexivity. Qed.

(** C8, as stated, fails: an accepted candidate is returned without its
    leading and trailing white space, not unchanged. *)
Lemma accepted_candidate_is_trimmed :
  let ai := u "  Есть 5 шт. " in
  let r := (safe_ai_answer_or_fallback ai (u "остаток 5") (u "Да")).1 in
  r = u "Есть 5 шт." ∧ r ≠ ai ∧ r ≠ u "Да".
Proof. vm_compute. split_and!; [done|discriminate|discriminate]. Qed.

Section WithTables.
Context `{PyUnicode}.

Lemma new_number_iff (ai facts : list ustr) :
  (0 <? size ((list_to_set ai : gset ustr) ∖ list_to_set facts))%nat = true ↔
  ∃ n, n ∈ ai ∧ n ∉ facts.
Proof.
  rewrite Nat.ltb_lt. split.
  - intros Hs. apply size_pos_elem_of in Hs as [n Hn].
    apply elem_of_difference in Hn as [Ha Hf].
    rewrite elem_of_list_to_set in Ha, Hf. eauto.
  - intros (n & Ha & Hf).
    assert (Hn : n ∈ (list_to_set ai : gset ustr) ∖ list_to_set facts).
    { apply elem_of_difference. rewrite !elem_of_list_to_set. done. }
    destruct (size _) eqn:E; [|lia].
    apply size_empty_iff in E. rewrite E in Hn. by apply elem_of_empty in Hn.
Qed.

Lemma banned_iff low :
  existsb (fun w => contains w low) banned = true ↔
  ∃ w, w ∈ banned ∧ contains w low = true.
Proof.
  rewrite existsb_exists. split; intros (w & Hw & Hc); exists w;
    (split; [by apply list_elem_of_In|done]).
Qed.

(** C8 (amended): the guard returns the fallback exactly when the candidate
    has a number that is not among the numbers of the facts, or its lower
    case contains a banned phrase, or it is empty once trimmed; in every
    other case it returns the candidate trimmed of leading and trailing
    white space. *)
Theorem fact_guard_spec ai_text facts_text fallback_text :
  let r := (safe_ai_answer_or_fallback ai_text facts_text fallback_text).1 in
  (rejected ai_text facts_text → r = fallback_text) ∧
  (¬ rejected ai_text facts_text → r = strip ai_text).
Proof.
  unfold safe_ai_answer_or_fallback, rejected. cbv zeta.
  pose proof (new_number_iff (extract_numbers ai_text) (extract_numbers facts_text)) as Hn.
  pose proof (banned_iff (str_lower ai_text)) as Hb.
  destruct (0 <? size _)%nat.
  { split; [done|]. intros Hr. exfalso. apply Hr. left. by apply Hn. }
  destruct (existsb _ banned).
  { split; [done|]. intros Hr. exfalso. apply Hr. right. left. by apply Hb. }
  destruct (strip ai_text) as [|c t] eqn:Es.
  { split; [done|]. intros Hr. exfalso. apply Hr. by right; right. }
  split; [|done]. intros [Hx|[Hx|Hx]].
  - apply Hn in Hx. done.
  - apply Hb in Hx. done.
  - done.
Qed.

End WithTables.
End AIFacts.

(** * Properties of the decision builder *)

Module LogicFacts.
Import Text Logic.

Example format_uah_demo :
  map format_uah
      [NoPrice; Priced (u "  ") Unreadable;
       Priced (u "100") (Number (100 # 1)); Priced (u "99.5") (Number (199 # 2));
       Priced (u "2.675") (Number (2675 # 1000)); Priced (u "-0.001") (Number (-1 # 1000));
       Priced (u "-1.5") (Number (-3 # 2)); Priced (u "0.005") (Number (5 # 1000));
       Priced (u "12,5") Unreadable; Priced (u "inf") Unreadable;
       Priced (u "nan") (NotANumber (u "NaN"));
       Priced (u "1e+26") (Number (inject_Z (10 ^ 26)))]
  = [u "нет"; u "нет"; u "100 гр."; u "99,50 гр."; u "2,68 гр."; u "0 гр.";
     u "-1,50 гр."; u "0,01 гр."; u "12,5"; u "inf"; u "NaN гр."; u "1e+26"].
Proof. vm_compute. reflexivity. Qed.

Example scan_bounded_demo :
  map (scan_bounded 4 NonWord)
      [u "надо 15 шт"; u "12345 7"; u "a12 3b 44 x_5 6"; u "nokia1280 1280"; u "0 5"]
  = [[u "15"]; [u "7"]; [u "44"; u "6"]; [u "1280"]; [u "0"; u "5"]].
Proof. vm_compute. reflexivity. Qed.

Example py_int_of_str_demo :
  map py_int_of_str [u "10"; u " 10 "; u "+5"; u "-5"; u "1_0"; u "_1"; u "1__0"; []; u "1.0"]
  = [Some 10; Some 10; Some 5; Some (-5); Some 10; None; None; None; None].
Proof. vm_compute. reflexivity. Qed.

(** Scenario A of the design: one product, a general question.  The
    design expects the product line as the reply; the builder reads the
    row it found with [r.get] and raises. *)
Example scenario_a :
  let env := demo_env [nokia 5] [] (mkTime 12 0 0 0) in
  find_rows env (u "nokia 1280") = [SqlRow (nokia 5)] ∧
  product_line (nokia 5) = u "Nokia 1280 black - 450 гр." ∧
  handle_customer_message env (u "telegram") (u "nokia 1280") (u "ai")
  = Raise AttributeError.
Proof. vm_compute. done. Qed.

(** Scenario B: nothing is found, the question goes to the operators. *)
Example scenario_b :
  let d := handle_customer_message (demo_env [nokia 5] [] (mkTime 12 0 0 0))
             (u "telegram") (u "xyz") (u "ai") in
  d = Ok (with_ticket FORWARDED
            (build_ticket_summary (u "telegram") (u "xyz") [] FORWARDED)).
Proof. vm_compute. reflexivity. Qed.

(** Scenario D: a large order of a product that is short.  The design
    expects the stock figure and a notice to the admins; the builder
    raises on the row it found. *)
Example scenario_d :
  handle_customer_message (demo_env [nokia 3] [] (mkTime 12 0 0 0))
    (u "telegram") (u "надо 15 шт nokia") (u "ai")
  = Raise AttributeError.
Proof. vm_compute. reflexivity. Qed.

(** C9 fails on the code: the product is matched, its quantity is 7 and
    the reply for 7 would be the count itself, but the builder raises
    [AttributeError] on the matched row and the customer gets no reply. *)
Theorem qty_question_raises :
  let env := demo_env [nokia 7] [] (mkTime 12 0 0 0) in
  detect_intent (u "сколько nokia") = Qty ∧
  find_rows env (u "сколько nokia") = [SqlRow (nokia 7)] ∧
  qty_to_public (p_qty (nokia 7)) = u "7" ∧
  handle_customer_message env (u "telegram") (u "сколько nokia") (u "ai")
  = Raise AttributeError.
Proof. vm_compute. done. Qed.


(** What [qty_to_public] prints: "0" for a quantity of zero or less, the
    exact count from 1 to 10, and the fixed text above 10. *)
Lemma qty_to_public_cases qty :
  (qty <= 0 → qty_to_public qty = [48%N]) ∧
  (1 <= qty <= 10 → qty_to_public qty = str_of_Z qty) ∧
  (10 < qty → qty_to_public qty = MORE_THAN_10).
Proof.
  unfold qty_to_public. split_and!; intros Hn.
  - by rewrite (proj2 (Z.leb_le _ _)) by lia.
  - rewrite (proj2 (Z.leb_gt _ _)) by lia. by rewrite (proj2 (Z.leb_le _ _)) by lia.
  - rewrite (proj2 (Z.leb_gt _ _)) by lia. by rewrite (proj2 (Z.leb_gt _ _)) by lia.
Qed.

Section WithTables.
Context `{PyUnicode}.

Lemma starts_with_length w s : starts_with w s = true → (length w <= length s)%nat.
Proof.
  revert s. induction w as [|a w IH]; intros s; simpl; [lia|].
  destruct s as [|b s]; [done|]. intros Hs. apply andb_true_iff in Hs as [_ Hs].
  apply IH in Hs. simpl. lia.
Qed.

Lemma contains_length w s : contains w s = true → (length w <= length s)%nat.
Proof.
  induction s as [|b s IH]; simpl; rewrite orb_true_iff.
  - intros [Hs|?]; [|done]. by apply starts_with_length in Hs.
  - intros [Hs|Hs]; [by apply starts_with_length in Hs|]. apply IH in Hs. lia.
Qed.

Lemma any_in_length ws qn n :
  Forall (fun w => (n <= length w)%nat) ws → any_in ws qn = true → (n <= length qn)%nat.
Proof.
  unfold any_in. intros Hf Ha. apply existsb_exists in Ha as (w & Hw & Hc).
  apply list_elem_of_In in Hw. rewrite Forall_forall in Hf.
  specialize (Hf w Hw). apply contains_length in Hc. lia.
Qed.

Lemma detect_intent_qty q :
  detect_intent q = Qty → (5 <= length (normalize_text q))%nat.
Proof.
  unfold detect_intent. cbv zeta.
  destruct (any_in words_qty (normalize_text q)) eqn:E.
  - intros _. eapply any_in_length; [|exact E].
    repeat constructor; simpl; lia.
  - repeat case_match; discriminate.
Qed.

(** *** The rows of the query *)

Definition is_sql (r : Row) : Prop := as_dict r = Raise AttributeError.

Lemma search_products_sql env q e l : Forall is_sql (search_products env q e l).
Proof.
  unfold search_products. destruct (strip q); [constructor|].
  apply Forall_fmap, Forall_true. done.
Qed.

Lemma first_found_sql env qs : Forall is_sql (first_found env qs).
Proof.
  induction qs as [|qq qs IH]; simpl; [constructor|].
  pose proof (search_products_sql env qq true 30) as Hs.
  by destruct (search_products env qq true 30).
Qed.

Lemma find_rows_sql env q : Forall is_sql (find_rows env q).
Proof.
  unfold find_rows.
  pose proof (search_products_sql env q false 30) as H1.
  pose proof (search_products_sql env q true 30) as H2.
  pose proof (first_found_sql env (semantic_expand_queries q)) as H3.
  destruct (search_products env q false 30); [|done].
  by destruct (search_products env q true 30).
Qed.

Lemma mapM_as_dict_sql r rows : is_sql r → mapM as_dict (r :: rows) = Raise AttributeError.
Proof. intros Hr. simpl. unfold is_sql in Hr. by rewrite Hr. Qed.

(** The builder, case by case: it returns for a blank message, for a
    greeting, in operator mode and when nothing is found; once a row is
    found every way on reads it with [r.get] and raises. *)
Lemma handle_outcomes env platform customer_text mode :
  handle_customer_message env platform customer_text mode =
  let q := strip customer_text in
  match q with
  | [] => Ok empty_decision
  | _ =>
      if is_greeting q then Ok (reply GREETING)
      else if bool_decide (str_lower (strip (match mode with [] => MODE_AI | _ => mode end))
                           = MODE_OPERATOR)
      then Ok (with_ticket FORWARDED (build_ticket_summary platform q [] FORWARDED))
      else match find_rows env q with
           | [] => Ok (with_ticket FORWARDED (build_ticket_summary platform q [] FORWARDED))
           | _ => Raise AttributeError
           end
  end.
Proof.
  unfold handle_customer_message. cbv zeta.
  destruct (strip customer_text) as [|c0 q0]; [done|].
  destruct (is_greeting _); [done|].
  destruct (bool_decide _); [done|].
  pose proof (find_rows_sql env (c0 :: q0)) as Hsql.
  destruct (find_rows env (c0 :: q0)) as [|r0 rows]; [done|].
  apply Forall_cons in Hsql as [Hr0 Hrows].
  unfold best_match_of.
  destruct (tokenize (c0 :: q0)) as [|t0 ts].
  - cbn [mbind result_bind].
    destruct (_ && _).
    + cbn [take]. by rewrite mapM_as_dict_sql.
    + unfold is_sql in Hr0. rewrite Hr0. by destruct (_ && _).
  - by rewrite mapM_as_dict_sql.
Qed.


End WithTables.


End LogicFacts.
(** * Further properties of the decision builder *)

Module LogicMore.
Import Text Logic LogicFacts Shapes.

Lemma starts_with_iff w s : starts_with w s = true ↔ ∃ t, s = w ++ t.
Proof.
  revert s. induction w as [|a w IH]; intros s; simpl.
  - split; [eauto|done].
  - destruct s as [|b s].
    + split; [done|]. intros [t Ht]. discriminate.
    + rewrite andb_true_iff, N.eqb_eq, IH. split.
      * intros [-> [t ->]]. eauto.
      * intros [t [= -> ->]]. eauto.
Qed.

Lemma contains_iff w s : contains w s = true ↔ ∃ a t, s = a ++ w ++ t.
Proof.
  induction s as [|b s IH]; simpl; rewrite orb_true_iff, starts_with_iff.
  - split.
    + intros [[t Ht]|?]; [|done]. exists [], t. done.
    + intros (a & t & Hs). left. destruct a; [|discriminate]. eauto.
  - rewrite IH. split.
    + intros [[t Ht]|(a & t & ->)]; [exists [], t; done|]. exists (b :: a), t. done.
    + intros (a & t & Hs). destruct a as [|c a].
      * left. eauto.
      * right. injection Hs as -> ->. eauto.
Qed.

Lemma contains_trans w1 w2 s :
  contains w1 w2 = true → contains w2 s = true → contains w1 s = true.
Proof.
  rewrite !contains_iff. intros (a & t & ->) (a' & t' & ->).
  exists (a' ++ a), (t ++ t'). by rewrite <- !app_assoc.
Qed.

Lemma insert_desc_elem x l y : y ∈ insert_desc x l ↔ y = x ∨ y ∈ l.
Proof.
  induction l as [|z l IH]; simpl.
  - rewrite list_elem_of_singleton, elem_of_nil. tauto.
  - destruct (z.1 <=? x.1).
    + by rewrite elem_of_cons.
    + rewrite !elem_of_cons, IH. tauto.
Qed.

Lemma sort_desc_elem l y : y ∈ sort_desc l ↔ y ∈ l.
Proof.
  induction l as [|x l IH]; simpl; [done|].
  rewrite insert_desc_elem, elem_of_cons, IH. done.
Qed.

Lemma sort_desc_length l : length (sort_desc l) = length l.
Proof.
  induction l as [|x l IH]; simpl; [done|]. rewrite <- IH.
  generalize (sort_desc l). intros m. induction m as [|z m IHm]; simpl; [done|].
  destruct (z.1 <=? x.1); simpl; [done|]. by rewrite IHm.
Qed.

Lemma sort_desc_head l :
  match sort_desc l with
  | [] => l = []
  | b :: _ => b ∈ l ∧ ∀ x, x ∈ l → x.1 <= b.1
  end.
Proof.
  induction l as [|x l IH]; simpl; [done|].
  destruct (sort_desc l) as [|b rest] eqn:E; simpl.
  - subst l. split; [apply list_elem_of_here|].
    intros y Hy. apply list_elem_of_singleton in Hy as ->. lia.
  - destruct IH as [Hb Hmax]. destruct (Z.leb_spec b.1 x.1) as [Hle|Hgt].
    + split; [apply list_elem_of_here|].
      intros y Hy. apply elem_of_cons in Hy as [->|Hy]; [lia|].
      specialize (Hmax y Hy). lia.
    + split; [by apply list_elem_of_further|].
      intros y Hy. apply elem_of_cons in Hy as [->|Hy]; [lia|by apply Hmax].
Qed.

Lemma elem_take {A} (x : A) n l : x ∈ take n l → x ∈ l.
Proof.
  revert n. induction l as [|y l IH]; intros [|n]; simpl; try (by intros ?%elem_of_nil).
  intros [->|Hx]%elem_of_cons; [apply list_elem_of_here|].
  apply list_elem_of_further. by eapply IH.
Qed.

Lemma sort_desc_first l b rest :
  sort_desc l = b :: rest →
  ∃ l1 l2, l = l1 ++ b :: l2 ∧ (∀ x, x ∈ l1 → (x.1 < b.1)) ∧ (∀ x, x ∈ l2 → (x.1 <= b.1)).
Proof.
  revert b rest. induction l as [|x l IH]; intros b rest; simpl; [done|].
  destruct (sort_desc l) as [|b' rest'] eqn:E; simpl.
  - pose proof (sort_desc_length l) as Hl. rewrite E in Hl. destruct l; [|done].
    intros [= <- <-]. exists [], []. split_and!; [done|..]; by intros ? ?%elem_of_nil.
  - destruct (IH b' rest' eq_refl) as (l1 & l2 & -> & H1 & H2).
    destruct (Z.leb_spec b'.1 x.1) as [Hle|Hgt].
    + intros [= <- <-]. exists [], (l1 ++ b' :: l2). split_and!; [done|by intros ? ?%elem_of_nil|].
      intros y [Hy|[->|Hy]%elem_of_cons]%elem_of_app; [specialize (H1 y Hy)|..|specialize (H2 y Hy)]; lia.
    + intros [= <- <-]. exists (x :: l1), l2. split_and!; [done| |done].
      intros y [->|Hy]%elem_of_cons; [lia|by apply H1].
Qed.

Lemma dedupe_spec seen l :
  NoDup (dedupe seen l) ∧
  ∀ x, x ∈ dedupe seen l → x ∈ l ∧ (x ∉ seen) ∧ x ≠ [].
Proof.
  revert seen. induction l as [|y l IH]; intros seen; simpl.
  - split; [constructor|]. by intros ? ?%elem_of_nil.
  - destruct y as [|c y].
    + destruct (IH seen) as [Hn Hx]. split; [done|]. intros x Hi.
      destruct (Hx x Hi) as (? & ? & ?). split_and!; [by right|done..].
    + case_bool_decide as Hs.
      * destruct (IH seen) as [Hn Hx]. split; [done|]. intros x Hi.
        destruct (Hx x Hi) as (? & ? & ?). split_and!; [by right|done..].
      * destruct (IH ((c :: y) :: seen)) as [Hn Hx]. split.
        -- constructor; [|done]. intros Hi. destruct (Hx _ Hi) as (_ & Hns & _).
           apply Hns. by left.
        -- intros x [->|Hi]%elem_of_cons; [split_and!; [by left|done..]|].
           destruct (Hx x Hi) as (? & Hns & ?). split_and!; [by right| |done].
           intros Hin. apply Hns. by right.
Qed.

Lemma NoDup_take {A} n (l : list A) : NoDup l → NoDup (take n l).
Proof.
  revert n. induction l as [|x l IH]; intros n Hn; destruct n; simpl; try constructor.
  - apply NoDup_cons in Hn as [Hx Hn]. intros Hi. apply Hx. by eapply elem_take.
  - apply NoDup_cons in Hn as [Hx Hn]. by apply IH.
Qed.

Lemma str_of_Z_nonempty n : str_of_Z n ≠ [].
Proof.
  unfold str_of_Z, u. destruct (Z.to_int n) as [d|d]; [|done].
  destruct d; done.
Qed.

Lemma join_cons_nonempty sep x l : x ≠ [] → join sep (x :: l) ≠ [].
Proof.
  intros Hx. destruct l as [|y l]; simpl; [done|].
  destruct x; [done|]. done.
Qed.

Lemma app_nonempty_l {A} (l1 l2 : list A) : l1 ≠ [] → l1 ++ l2 ≠ [].
Proof. destruct l1; [done|]. done. Qed.

Lemma product_line_nonempty r : product_line r ≠ [].
Proof.
  unfold product_line. change (u " - ") with [32%N; 45%N; 32%N].
  destruct (p_name r); done.
Qed.

Lemma qty_to_public_nonempty n : qty_to_public n ≠ [].
Proof.
  unfold qty_to_public. repeat case_match; try done. apply str_of_Z_nonempty.
Qed.

Lemma build_ticket_summary_nonempty p q found b : build_ticket_summary p q found b ≠ [].
Proof.
  unfold build_ticket_summary. cbv zeta.
  change (u "Help,") with [72%N; 101%N; 108%N; 112%N; 44%N].
  destruct found; simpl; done.
Qed.

(** X10: a whole number of hryvnias is printed without decimals as long
    as it has at most 26 digits; from 10^26 on [quantize] raises and the
    text of the price comes back as it is, without the currency. *)
Theorem format_uah_whole text n :
  strip text ≠ [] →
  format_uah (Priced text (Number (inject_Z n))) =
  if Z.abs n <? 10 ^ 26 then str_of_Z n ++ GR else text.
Proof.
  intros Ht. unfold format_uah, round_half_up. cbv zeta.
  destruct (strip text) as [|c0 t0]; [done|].
  assert (Hn : Qnum (inject_Z n * 100) = n * 100) by (simpl; lia).
  assert (Hd : Z.pos (Qden (inject_Z n * 100)) = 1) by done.
  rewrite Hn, Hd.
  assert (Hc : Z.sgn (n * 100) * ((2 * Z.abs (n * 100) + 1) / (2 * 1)) = n * 100).
  { replace (2 * Z.abs (n * 100) + 1) with (1 + Z.abs (n * 100) * 2) by lia.
    change (2 * 1) with 2.
    rewrite Z.div_add by lia. change (1 / 2) with 0. lia. }
  rewrite Hc.
  assert (Hp : 10 ^ 28 = 10 ^ 26 * 100) by reflexivity.
  destruct (Z.ltb_spec (Z.abs n) (10 ^ 26)) as [Hlt|Hge].
  - rewrite (proj2 (Z.leb_gt _ _)) by lia.
    rewrite Z.rem_mul by lia. cbn [Z.eqb].
    by rewrite Z.quot_mul by lia.
  - by rewrite (proj2 (Z.leb_le _ _)) by lia.
Qed.

Lemma hhmm_check :
  forallb (fun h =>
    forallb (fun m =>
      bool_decide (parse_time_hhmm (hhmm h m) = Some (mkTime h m 0 0))
      && bool_decide (parse_time_hhmm ([32%N] ++ str_of_Z h ++ [58%N] ++ two_digits m ++ [10%N])
                      = Some (mkTime h m 0 0)))
      (seqZ 0 60))
    (seqZ 0 24) = true.
Proof. vm_compute. reflexivity. Qed.

(** X9: with the Latin tables every time of day written as HH:MM, or as
    H:MM with white space around, parses back to itself. *)
Theorem parse_time_hhmm_round_trip h m :
  0 <= h <= 23 → 0 <= m <= 59 →
  parse_time_hhmm (hhmm h m) = Some (mkTime h m 0 0) ∧
  parse_time_hhmm ([32%N] ++ str_of_Z h ++ [58%N] ++ two_digits m ++ [10%N])
  = Some (mkTime h m 0 0).
Proof.
  intros Hh Hm. pose proof hhmm_check as Hc.
  rewrite forallb_forall in Hc. specialize (Hc h).
  rewrite forallb_forall in Hc.
  assert (Hin : ∀ x n, 0 <= x < n → In x (seqZ 0 n)).
  { intros x n Hx. apply list_elem_of_In, elem_of_seqZ. lia. }
  specialize (Hc (Hin h 24 ltac:(lia)) m (Hin m 60 ltac:(lia))).
  apply andb_true_iff in Hc as [H1 H2].
  apply bool_decide_eq_true in H1, H2. done.
Qed.

Section WithTables.
Context `{PyUnicode}.

Lemma template_nonempty i rq best : template i rq best ≠ [].
Proof.
  unfold template. cbv zeta.
  destruct i; repeat case_match; try done;
    try apply product_line_nonempty; try apply qty_to_public_nonempty.
Qed.

Lemma build_admin_large_order_nonempty env p q found n :
  build_admin_large_order env p q found n ≠ [].
Proof.
  unfold build_admin_large_order. cbv zeta.
  change (u "Info,") with [73%N; 110%N; 102%N; 111%N; 44%N]. done.
Qed.

Lemma decision_cases env platform customer_text mode d :
  handle_customer_message env platform customer_text mode = Ok d →
  (strip customer_text = [] ∧ d = empty_decision) ∨
  (strip customer_text ≠ [] ∧
   (d = reply GREETING ∨
    d = with_ticket FORWARDED
          (build_ticket_summary platform (strip customer_text) [] FORWARDED))).
Proof.
  rewrite handle_outcomes. cbv zeta.
  destruct (strip customer_text) as [|c0 q0].
  { intros [= <-]. by left. }
  intros Hd. right. split; [done|]. revert Hd.
  destruct (is_greeting _).
  { intros [= <-]. by left. }
  destruct (bool_decide _).
  { intros [= <-]. by right. }
  destruct (find_rows env (c0 :: q0)); [|done].
  intros [= <-]. by right.
Qed.

Lemma builder_raises env platform customer_text mode e :
  handle_customer_message env platform customer_text mode = Raise e →
  e = AttributeError ∧ find_rows env (strip customer_text) ≠ [].
Proof.
  rewrite handle_outcomes. cbv zeta.
  destruct (strip customer_text) as [|c0 q0]; [done|].
  destruct (is_greeting _); [done|].
  destruct (bool_decide _); [done|].
  destruct (find_rows env (c0 :: q0)); [done|].
  by intros [= <-].
Qed.

(** What the message loop needs to know of a decision. *)
Lemma ticket_decision env platform customer_text mode d :
  handle_customer_message env platform customer_text mode = Ok d →
  (ticket_needed d = true →
     ticket_summary d ≠ [] ∧ (reply_text d = FORWARDED ∨ reply_text d = OUTSIDE_HOURS) ∧
     notify_main d = false ∧ notify_admin d = false) ∧
  (notify_admin d = true → notify_main d = false).
Proof.
  intros Hd. pose proof build_ticket_summary_nonempty as Hs.
  destruct (decision_cases _ _ _ _ _ Hd) as [[_ ->] | [_ [-> | ->]]]; simpl;
    split; try done.
  intros _. split_and!; try done. by left.
Qed.


(** X2: the builder raises exactly when the message is neither blank nor
    a greeting, the mode is not the operator mode and the search finds a
    row, and the exception is then the [AttributeError] of [r.get] on an
    [sqlite3.Row]: the [ValueError] of [int()] on the large-order setting is
    never reached.  A decision that is returned notifies nobody and never
    carries the out-of-hours notice. *)
Theorem builder_raises_on_every_match env platform customer_text mode :
  let q := strip customer_text in
  let found :=
    q ≠ [] ∧ is_greeting q = false ∧
    str_lower (strip (match mode with [] => MODE_AI | _ => mode end)) ≠ MODE_OPERATOR ∧
    find_rows env q ≠ [] in
  match handle_customer_message env platform customer_text mode with
  | Raise e => e = AttributeError ∧ found
  | Ok d =>
      ¬ found ∧ notify_main d = false ∧ notify_admin d = false ∧
      reply_text d ≠ OUTSIDE_HOURS
  end.
Proof.
  rewrite handle_outcomes. cbv zeta.
  destruct (strip customer_text) as [|c0 q0].
  { split_and!; try done. by intros [? _]. }
  destruct (is_greeting _).
  { split_and!; try done. by intros (_ & ? & _). }
  case_bool_decide as Hm.
  { split_and!; try done. by intros (_ & _ & ? & _). }
  destruct (find_rows env (c0 :: q0)); [|done].
  split_and!; try done. by intros (_ & _ & _ & ?).
Qed.

Lemma any_in_intro ws w qn : w ∈ ws → contains w qn = true → any_in ws qn = true.
Proof.
  intros Hw Hc. unfold any_in. apply existsb_exists. exists w.
  split; [by apply list_elem_of_In|done].
Qed.

(** X4: the price keyword "сколько стоит" is shadowed: a text that
    contains it contains "сколько", which is tested first, so the question
    is read as one about the quantity. *)
Theorem how_much_is_quantity q :
  contains (u "сколько стоит") (normalize_text q) = true → detect_intent q = Qty.
Proof.
  intros Hc. unfold detect_intent. cbv zeta.
  assert (any_in words_qty (normalize_text q) = true) as ->; [|done].
  apply (any_in_intro _ (u "сколько")).
  - vm_compute. apply list_elem_of_here.
  - eapply contains_trans; [|exact Hc]. vm_compute. reflexivity.
Qed.

(** X5: the matcher returns nothing exactly for an empty result; otherwise
    the best row is a row of the result and the head of the short list, the
    short list has at most five rows, all from the result, the best row has
    the highest score when the query has tokens, and is the first row when
    it has none. *)
Theorem best_match_spec q rows :
  match best_match_from_rows q rows with
  | (None, top) => rows = [] ∧ top = []
  | (Some b, top) =>
      b ∈ rows ∧ head top = Some b ∧ (length top <= 5)%nat ∧
      (∀ r, r ∈ top → r ∈ rows) ∧
      (tokenize q ≠ [] →
         ∀ r, r ∈ rows →
           score (normalize_text q) (tokenize q) r
           <= score (normalize_text q) (tokenize q) b) ∧
      (tokenize q = [] → head rows = Some b)
  end.
Proof.
  unfold best_match_from_rows. destruct rows as [|r0 rows]; [done|]. cbv zeta.
  destruct (tokenize q) as [|t0 ts] eqn:Et.
  - split_and!; try done.
    + apply list_elem_of_here.
    + rewrite length_take. lia.
    + intros r Hr. by eapply elem_take.
  - set (qt := t0 :: ts). set (qn := normalize_text q).
    set (scored := map (fun r => (score qn qt r, r)) (r0 :: rows)).
    pose proof (sort_desc_head scored) as Hh.
    assert (Hin : ∀ x, x ∈ sort_desc scored → x.2 ∈ r0 :: rows ∧ x.1 = score qn qt x.2).
    { intros x Hx. apply (proj1 (sort_desc_elem _ _)) in Hx. unfold scored in Hx.
      apply list_elem_of_fmap in Hx as (r & -> & Hr). done. }
    destruct (sort_desc scored) as [|b rest] eqn:Es.
    { unfold scored in Hh. discriminate. }
    destruct Hh as [Hb Hmax]. cbn [head fmap option_fmap option_map].
    destruct (Hin b (list_elem_of_here _ _)) as [Hb2 Hsc].
    split_and!; try done.
    + rewrite length_map, length_take. lia.
    + intros r Hr. apply list_elem_of_fmap in Hr as (x & -> & Hx).
      apply elem_take in Hx. by apply Hin.
    + intros _ r Hr. rewrite <- Hsc.
      apply (Hmax (score qn qt r, r)). unfold scored.
      apply list_elem_of_fmap. eauto.
Qed.

(** X6: ties go to the earlier row: every row in front of the best one
    scores strictly less. *)
Theorem best_match_tie_break q rows b top :
  tokenize q ≠ [] →
  best_match_from_rows q rows = (Some b, top) →
  ∃ r1 r2, rows = r1 ++ b :: r2 ∧
    ∀ r, r ∈ r1 →
      score (normalize_text q) (tokenize q) r < score (normalize_text q) (tokenize q) b.
Proof.
  intros Ht. unfold best_match_from_rows. destruct rows as [|r0 rows]; [done|]. cbv zeta.
  destruct (tokenize q) as [|t0 ts] eqn:Et; [done|].
  set (qt := t0 :: ts). set (qn := normalize_text q).
  destruct (sort_desc _) as [|x rest] eqn:Es; [done|]. cbn [head fmap option_fmap option_map].
  intros [= <- <-].
  apply sort_desc_first in Es as (l1 & l2 & Hl & H1 & _).
  change (map (λ r : Product, (score qn qt r, r)) (r0 :: rows))
    with ((λ r : Product, (score qn qt r, r)) <$> (r0 :: rows)) in Hl.
  apply fmap_app_inv in Hl as (r1 & r2' & -> & Hr2 & ->).
  destruct r2' as [|b r2]; [done|]. injection Hr2 as -> ->.
  exists r1, r2. split; [done|]. intros r Hr.
  apply (H1 (score qn qt r, r)). apply list_elem_of_fmap. eauto.
Qed.

(** X7: the derived search texts hold no repetition and no empty text,
    and there are at most eight of them. *)
Theorem semantic_expand_queries_spec q :
  NoDup (semantic_expand_queries q) ∧
  ([] ∉ semantic_expand_queries q) ∧
  (length (semantic_expand_queries q) <= 8)%nat.
Proof.
  unfold semantic_expand_queries. cbv zeta.
  match goal with |- context [dedupe [] ?l] => destruct (dedupe_spec [] l) as [Hn Hx] end.
  split_and!.
  - by apply NoDup_take.
  - intros Hi. apply elem_take in Hi. by destruct (Hx _ Hi) as (_ & _ & ?).
  - rewrite length_take. lia.
Qed.

(** X8: a parsed time is a time of day on the minute, and it was written
    with one or two digits, a colon and two digits. *)
Theorem parse_time_hhmm_bounds s t :
  parse_time_hhmm s = Some t →
  (0 <= hour t <= 23) ∧ (0 <= minute t <= 59) ∧ second t = 0 ∧ microsecond t = 0 ∧
  (length (strip s) = 4 ∨ length (strip s) = 5)%nat ∧ 58%N ∈ strip s.
Proof.
  unfold parse_time_hhmm. cbv zeta.
  destruct (strip s) as [|a [|b [|c [|d [|e [|f r]]]]]]; try done.
  - destruct (_ && _) eqn:Hc; [|done].
    destruct (int_of_digits [a]) as [hh|]; [|done].
    destruct (int_of_digits [c; d]) as [mm|]; [|done].
    destruct (_ || _) eqn:Hr; [done|]. intros [= <-]. simpl.
    apply orb_false_iff in Hr as [[[H1 H2]%orb_false_iff H3]%orb_false_iff H4].
    apply Z.ltb_ge in H1, H2, H3, H4.
    apply andb_true_iff in Hc as [[[Hc _]%andb_true_iff _]%andb_true_iff _].
    apply N.eqb_eq in Hc as ->.
    split_and!; try lia; try (by left); set_solver.
  - destruct (_ && _) eqn:Hc; [|done].
    destruct (int_of_digits [a; b]) as [hh|]; [|done].
    destruct (int_of_digits [d; e]) as [mm|]; [|done].
    destruct (_ || _) eqn:Hr; [done|]. intros [= <-]. simpl.
    apply orb_false_iff in Hr as [[[H1 H2]%orb_false_iff H3]%orb_false_iff H4].
    apply Z.ltb_ge in H1, H2, H3, H4.
    apply andb_true_iff in Hc as [[[[Hc _]%andb_true_iff _]%andb_true_iff _]%andb_true_iff _].
    apply N.eqb_eq in Hc as ->.
    split_and!; try lia; try (by right); set_solver.
Qed.

(** X26: in operator mode every message that is not blank makes a ticket
    with the forwarding notice, except a greeting: a text with a greeting
    word gets the greeting and no ticket, whatever else it says. *)
Theorem operator_mode_skips_greetings env platform customer_text mode :
  strip customer_text ≠ [] →
  str_lower (strip (match mode with [] => MODE_AI | _ => mode end)) = MODE_OPERATOR →
  ∃ d, handle_customer_message env platform customer_text mode = Ok d ∧
    ticket_needed d = negb (is_greeting (strip customer_text)) ∧
    reply_text d = (if is_greeting (strip customer_text) then GREETING else FORWARDED) ∧
    notify_main d = false ∧ notify_admin d = false.
Proof.
  intros Hq Hm. unfold handle_customer_message. cbv zeta.
  destruct (strip customer_text) as [|c0 q0]; [done|]. rewrite Hm.
  destruct (is_greeting _); eexists; (split; [reflexivity|]); done.
Qed.

Lemma str_lower_idem s : str_lower (str_lower s) = str_lower s.
Proof. apply lower_stable, lower_out. Qed.

(** X11: lower-casing a text first changes nothing downstream: the
    normal form, the tokens, the greeting test, the requested quantity and
    the intent are the same. *)
Theorem case_insensitive q :
  normalize_text (str_lower q) = normalize_text q ∧
  tokenize (str_lower q) = tokenize q ∧
  is_greeting (str_lower q) = is_greeting q ∧
  extract_requested_qty (str_lower q) = extract_requested_qty q ∧
  detect_intent (str_lower q) = detect_intent q.
Proof.
  assert (Hn : normalize_text (str_lower q) = normalize_text q).
  { unfold normalize_text. by rewrite str_lower_idem. }
  assert (He : extract_requested_qty (str_lower q) = extract_requested_qty q).
  { unfold extract_requested_qty. by rewrite Hn. }
  split_and!; try done.
  - unfold tokenize. by rewrite Hn.
  - unfold is_greeting. by rewrite Hn.
  - unfold detect_intent. by rewrite Hn, He.
Qed.

End WithTables.

Lemma parse_time_hhmm_round_trip_witness :
  parse_time_hhmm (hhmm 9 5) = Some (mkTime 9 5 0 0) ∧
  parse_time_hhmm ([32%N] ++ str_of_Z 9 ++ [58%N] ++ two_digits 5 ++ [10%N])
  = Some (mkTime 9 5 0 0).
Proof. apply (parse_time_hhmm_round_trip 9 5); lia. Defined.


Lemma format_uah_whole_witness :
  format_uah (Priced (u "450.0") (Number (inject_Z 450))) = u "450 гр." ∧
  format_uah (Priced (u "1e+26") (Number (inject_Z (10 ^ 26)))) = u "1e+26".
Proof.
  split.
  - refine (format_uah_whole (u "450.0") 450 _). vm_compute. discriminate.
  - refine (format_uah_whole (u "1e+26") (10 ^ 26) _). vm_compute. discriminate.
Defined.

Lemma how_much_is_quantity_witness :
  detect_intent (u "Сколько стоит nokia?") = Qty.
Proof. apply how_much_is_quantity. vm_compute. reflexivity. Defined.

Lemma best_match_tie_break_witness :
  ∃ r1 r2, [nokia 1; nokia 2] = r1 ++ nokia 1 :: r2 ∧
    ∀ r, r ∈ r1 →
      score (normalize_text (u "nokia")) (tokenize (u "nokia")) r
      < score (normalize_text (u "nokia")) (tokenize (u "nokia")) (nokia 1).
Proof.
  refine (best_match_tie_break (u "nokia") [nokia 1; nokia 2] (nokia 1)
            [nokia 1; nokia 2] _ _).
  - vm_compute. discriminate.
  - vm_compute. reflexivity.
Defined.

Lemma operator_mode_skips_greetings_witness :
  let q := u "спасибо, позовите оператора" in
  ∃ d, handle_customer_message (demo_env [nokia 7] [] (mkTime 12 0 0 0))
         (u "telegram") q (u "Operator") = Ok d ∧
    ticket_needed d = negb (is_greeting (strip q)) ∧
    reply_text d = (if is_greeting (strip q) then GREETING else FORWARDED) ∧
    notify_main d = false ∧ notify_admin d = false.
Proof.
  refine (operator_mode_skips_greetings (demo_env [nokia 7] [] (mkTime 12 0 0 0))
            (u "telegram") (u "спасибо, позовите оператора") (u "Operator") _ _).
  - vm_compute. discriminate.
  - vm_compute. reflexivity.
Defined.

Lemma parse_time_hhmm_bounds_witness :
  let t := mkTime 9 30 0 0 in
  (0 <= hour t <= 23) ∧ (0 <= minute t <= 59).
Proof.
  destruct (parse_time_hhmm_bounds (u " 9:30 ") (mkTime 9 30 0 0)) as (Hh & Hm & _).
  - vm_compute. reflexivity.
  - split; [exact Hh|exact Hm].
Defined.
End LogicMore.

(** * Further properties of the fact guard *)

Module AIMore.
Import Text Logic AI Shapes AIFacts.
Section WithTables.
Context `{PyUnicode}.

Lemma digits_snoc cur c : digits cur → is_digit c = true → digits (cur ++ [c]).
Proof.
  intros [Hne Hd] Hc. split; [by destruct cur|].
  apply Forall_app. split; [done|]. by repeat constructor.
Qed.

Lemma digits_one c : is_digit c = true → digits [c].
Proof. intros Hc. split; [done|]. by repeat constructor. Qed.

Lemma digits_shaped cur : digits cur → number_shaped cur.
Proof. intros Hd. exists cur. split; [done|]. by left. Qed.

Lemma frac_shaped cur : scan_ok (Frac cur) → number_shaped cur.
Proof. intros (a & sep & f & -> & Ha & Hs & Hf). exists a. split; [done|]. right. eauto. Qed.

Lemma scan_numbers_shaped s : ∀ st,
  scan_ok st → Forall number_shaped (scan_numbers st s).
Proof.
  induction s as [|c s IH]; intros st Hst.
  - destruct st as [|cur|cur sep|cur]; simpl; repeat constructor.
    + by apply digits_shaped.
    + apply digits_shaped. by destruct Hst.
    + by apply frac_shaped.
  - destruct st as [|cur|cur sep|cur]; simpl.
    + destruct (is_digit c) eqn:Ed; apply IH; [|done]. by apply digits_one.
    + destruct (is_digit c) eqn:Ed.
      * apply IH. by apply digits_snoc.
      * destruct (is_sep c) eqn:Es.
        -- apply IH. done.
        -- constructor; [by apply digits_shaped|]. by apply IH.
    + destruct Hst as [Hd Hs]. destruct (is_digit c) eqn:Ed.
      * apply IH. exists cur, sep, [c]. split_and!; try done.
        by apply digits_one.
      * constructor; [by apply digits_shaped|]. by apply IH.
    + destruct (is_digit c) eqn:Ed.
      * apply IH. destruct Hst as (a & sep & f & -> & Ha & Hs & Hf).
        exists a, sep, (f ++ [c]). split_and!; try done.
        -- by rewrite <- app_assoc.
        -- by apply digits_snoc.
      * constructor; [by apply frac_shaped|]. by apply IH.
Qed.

(** X12: every number found in a text is a run of digits, or two runs of
    digits joined by one point or comma; it is never empty and never starts
    or ends with the separator. *)
Theorem extract_numbers_shape text n :
  n ∈ extract_numbers text → number_shaped n.
Proof.
  intros Hn. pose proof (scan_numbers_shaped text Out I) as Hf.
  rewrite Forall_forall in Hf. by apply Hf.
Qed.

Lemma scan_numbers_skip c r st :
  is_digit c = false → is_sep c = false →
  scan_numbers st (c :: r) = scan_numbers st [] ++ scan_numbers Out r.
Proof. intros Hd Hs. destruct st; simpl; by rewrite Hd, ?Hs. Qed.

Lemma is_sep_space c : is_space c = true → is_sep c = false.
Proof.
  intros Hc. unfold is_sep. destruct (c =? 46)%N eqn:E1.
  { apply N.eqb_eq in E1 as ->. done. }
  destruct (c =? 44)%N eqn:E2; [|done].
  apply N.eqb_eq in E2 as ->. done.
Qed.

Section Spaces.
Hypothesis space_not_digit : ∀ c, is_space c = true → is_digit c = false.

Lemma scan_numbers_lstrip s : scan_numbers Out (lstrip s) = scan_numbers Out s.
Proof.
  induction s as [|c s IH]; [done|]. unfold lstrip in *. simpl.
  destruct (is_space c) eqn:Ec; [|done].
  by rewrite (space_not_digit _ Ec).
Qed.

Lemma scan_numbers_rstrip s : ∀ st, scan_numbers st (rstrip s) = scan_numbers st s.
Proof.
  induction s as [|c s IH]; intros st; [done|].
  simpl rstrip. destruct (rstrip s) as [|d r'] eqn:Er.
  - destruct (is_space c) eqn:Ec.
    + rewrite scan_numbers_skip by auto using is_sep_space.
      rewrite <- (IH Out). simpl. by rewrite app_nil_r.
    + destruct st; simpl; rewrite <- ?IH; reflexivity.
  - destruct st; simpl; rewrite <- ?IH; reflexivity.
Qed.

Lemma extract_numbers_strip s : extract_numbers (strip s) = extract_numbers s.
Proof.
  unfold extract_numbers, strip. by rewrite scan_numbers_rstrip, scan_numbers_lstrip.
Qed.

(** X13: whatever the candidate, the answer of the guard is the fallback,
    with one warning logged, or the trimmed candidate, with nothing logged;
    in the second case it is not empty, each of its numbers occurs in the
    facts, and the candidate holds no banned phrase.  (White space is never
    a digit.) *)
Theorem guard_answer_is_grounded ai_text facts_text fallback_text :
  let r := safe_ai_answer_or_fallback ai_text facts_text fallback_text in
  (r.1 = fallback_text ∧ ∃ msg, r.2 = [(WARN, msg)]) ∨
  (r.1 = strip ai_text ∧ r.2 = [] ∧ r.1 ≠ [] ∧
   (∀ n, n ∈ extract_numbers r.1 → n ∈ extract_numbers facts_text) ∧
   (∀ w, w ∈ banned → contains w (str_lower ai_text) = false)).
Proof.
  unfold safe_ai_answer_or_fallback. cbv zeta.
  pose proof (new_number_iff (extract_numbers ai_text) (extract_numbers facts_text)) as Hn.
  pose proof (banned_iff (str_lower ai_text)) as Hb.
  destruct (0 <? size _)%nat eqn:E1; [left; eauto|].
  destruct (existsb _ banned) eqn:E2; [left; eauto|].
  destruct (strip ai_text) as [|c t] eqn:Es; [left; eauto|].
  right. cbn [fst snd]. split_and!; try done.
  - intros n Hin. rewrite <- Es, extract_numbers_strip in Hin.
    destruct (decide (n ∈ extract_numbers facts_text)) as [|Hno]; [done|].
    exfalso. assert (false = true) as [=]. apply Hn. eauto.
  - intros w Hw. destruct (contains w (str_lower ai_text)) eqn:Ec; [|done].
    assert (false = true) as [=]. apply Hb. eauto.
Qed.

End Spaces.
End WithTables.

Lemma lc_space_not_digit c :
  is_space c = true → is_digit (H := latin_cyrillic) c = false.
Proof.
  intros Hc. unfold is_digit. cbn [digit_value latin_cyrillic].
  unfold lc_digit_value, in_range.
  destruct ((48 <=? c) && (c <=? 57))%N eqn:E; [|done].
  exfalso. unfold is_space in Hc.
  apply andb_true_iff in E as [E1 E2]. apply N.leb_le in E1, E2.
  repeat (apply orb_true_iff in Hc as [Hc|Hc]);
    repeat (apply andb_true_iff in Hc as [? ?]);
    repeat match goal with
      | H : (_ <=? _)%N = true |- _ => apply N.leb_le in H
      | H : (_ =? _)%N = true |- _ => apply N.eqb_eq in H
      end; lia.
Qed.

Lemma extract_numbers_shape_witness : number_shaped (u "1.5").
Proof.
  apply (extract_numbers_shape (u "a1.5")).
  replace (extract_numbers (u "a1.5")) with [u "1.5"] by (vm_compute; reflexivity).
  apply list_elem_of_here.
Defined.

Lemma guard_answer_is_grounded_witness :
  let r := safe_ai_answer_or_fallback (u " Есть 5 шт. ") (u "остаток 5") (u "Да") in
  (r.1 = u "Да" ∧ ∃ msg, r.2 = [(WARN, msg)]) ∨
  (r.1 = strip (u " Есть 5 шт. ") ∧ r.2 = [] ∧ r.1 ≠ [] ∧
   (∀ n, n ∈ extract_numbers r.1 → n ∈ extract_numbers (u "остаток 5")) ∧
   (∀ w, w ∈ banned → contains w (str_lower (u " Есть 5 шт. ")) = false)).
Proof.
  apply (guard_answer_is_grounded (H := latin_cyrillic) lc_space_not_digit).
Defined.

End AIMore.

(** * Further properties of the ticket store *)

Module TicketMore.
Import Tickets TicketFacts Shapes StoreInv.

(** *** Ticket ids *)

Lemma utf8_decode_ascii l :
  Forall (fun b => (b < 128)%N) l → utf8_decode l = l.
Proof.
  induction 1 as [|b l Hb _ IH]; [done|]. simpl.
  apply N.ltb_lt in Hb. by rewrite Hb, IH.
Qed.

Lemma string_of_uint_plain d :
  Forall plain (map N_of_ascii (list_ascii_of_string (NilEmpty.string_of_uint d))).
Proof.
  induction d; simpl; constructor; try done; left; cbv; split; discriminate.
Qed.

Lemma string_of_int_plain d :
  Forall plain (map N_of_ascii (list_ascii_of_string (NilZero.string_of_int d))).
Proof.
  assert (Hz : Forall plain [48%N]).
  { constructor; [|constructor]. left. cbv. split; discriminate. }
  destruct d as [d|d]; simpl.
  - destruct d; first [exact Hz | apply string_of_uint_plain].
  - constructor; [by right|].
    destruct d; first [exact Hz | apply string_of_uint_plain].
Qed.

Lemma str_of_Z_ascii n :
  str_of_Z n = map N_of_ascii (list_ascii_of_string (NilZero.string_of_int (Z.to_int n))).
Proof.
  unfold str_of_Z, u. apply utf8_decode_ascii.
  eapply Forall_impl; [apply string_of_int_plain|].
  intros c [Hc| ->]; [lia|done].
Qed.

Lemma str_of_Z_plain n : Forall plain (str_of_Z n).
Proof. rewrite str_of_Z_ascii. apply string_of_int_plain. Qed.

Lemma N_of_ascii_inj a b : N_of_ascii a = N_of_ascii b → a = b.
Proof. intros E. by rewrite <- (ascii_N_embedding a), <- (ascii_N_embedding b), E. Qed.

Lemma list_ascii_of_string_inj a b :
  list_ascii_of_string a = list_ascii_of_string b → a = b.
Proof.
  intros E. by rewrite <- (string_of_list_ascii_of_string a),
    <- (string_of_list_ascii_of_string b), E.
Qed.

Lemma to_int_proper n : Z.to_int n ≠ Decimal.Pos Decimal.Nil ∧ Z.to_int n ≠ Decimal.Neg Decimal.Nil.
Proof.
  destruct n as [|p|p]; simpl; split; try discriminate;
    intros [= E]; by apply (DecimalPos.Unsigned.to_uint_nonnil p).
Qed.

Lemma str_of_Z_inj a b : str_of_Z a = str_of_Z b → a = b.
Proof.
  rewrite !str_of_Z_ascii. intros E.
  apply (list_fmap_eq_inj _ N_of_ascii_inj) in E.
  apply list_ascii_of_string_inj in E.
  apply DecimalZ.to_int_inj.
  destruct (to_int_proper a) as [Ha1 Ha2], (to_int_proper b) as [Hb1 Hb2].
  pose proof (NilZero.isi _ Ha1 Ha2) as Ia. pose proof (NilZero.isi _ Hb1 Hb2) as Ib.
  rewrite E in Ia. rewrite Ia in Ib. by injection Ib.
Qed.

Lemma split_at_mark (m : N) a a' b b' :
  a ++ m :: b = a' ++ m :: b' → m ∉ a → m ∉ a' → a = a' ∧ b = b'.
Proof.
  revert a'. induction a as [|x a IH]; intros [|y a'] E Ha Ha'; simpl in E.
  - by injection E.
  - injection E as <- _. exfalso. apply Ha'. by left.
  - injection E as -> _. exfalso. apply Ha. by left.
  - injection E as -> E. apply IH in E as [-> ->]; [done| |].
    + intros ?. apply Ha. by right.
    + intros ?. apply Ha'. by right.
Qed.

Lemma mark_not_plain n : 95%N ∉ str_of_Z n.
Proof.
  intros Hin. pose proof (str_of_Z_plain n) as Hp.
  rewrite Forall_forall in Hp. destruct (Hp _ Hin) as [?|?]; [lia|done].
Qed.

(** X14: two tickets get the same id exactly when they are created for
    the same chat within the same whole second. *)
Theorem ticket_ids_collide_iff p c x sm s w p' c' x' sm' s' w' :
  (_create_ticket p c x sm s w).1.1 = (_create_ticket p' c' x' sm' s' w').1.1 ↔
  py_int (wall w (ticks w)) = py_int (wall w' (ticks w')) ∧ c = c'.
Proof.
  rewrite !create_unfold. cbv zeta. cbn [fst].
  change (u "_") with [95%N]. split.
  - intros E. apply split_at_mark in E as [E1 E2]; try apply mark_not_plain.
    split; by apply str_of_Z_inj.
  - by intros [-> ->].
Qed.

Section WithOutside.
Context {transport : Transport} {pyset : PySet}.

(** *** The dict and the objects *)

Lemma dict_set_in {V} k (v : V) d x :
  x ∈ dict_set k v d → x = (k, v) ∨ x ∈ d.
Proof.
  induction d as [|[k' v'] d IH]; simpl.
  - intros ->%list_elem_of_singleton. by left.
  - destruct (decide (k' = k)) as [->|Hne].
    + intros [->|Hin]%elem_of_cons; [by left|]. right. by right.
    + intros [->|Hin]%elem_of_cons; [right; by left|].
      destruct (IH Hin) as [->|?]; [by left|]. right. by right.
Qed.

Lemma dict_set_fst {V} k (v : V) d :
  map fst (dict_set k v d) =
  if bool_decide (k ∈ map fst d) then map fst d else map fst d ++ [k].
Proof.
  induction d as [|[k' v'] d IH]; simpl; [done|].
  destruct (decide (k' = k)) as [->|Hne]; simpl.
  - rewrite bool_decide_eq_true_2; [done|by left].
  - rewrite IH. destruct (bool_decide (k ∈ map fst d)) eqn:E.
    + apply bool_decide_eq_true in E. rewrite bool_decide_eq_true_2; [done|by right].
    + apply bool_decide_eq_false in E. rewrite bool_decide_eq_false_2; [done|].
      intros [?|?]%elem_of_cons; [by apply Hne|done].
Qed.

Lemma dict_set_fst_NoDup {V} k (v : V) d :
  NoDup (map fst d) → NoDup (map fst (dict_set k v d)).
Proof.
  intros Hnd. rewrite dict_set_fst. destruct (bool_decide _) eqn:E; [done|].
  apply bool_decide_eq_false in E.
  apply NoDup_app. split_and!; [done| |apply NoDup_singleton].
  intros x Hx ->%list_elem_of_singleton. done.
Qed.

Lemma consistent_wf s : consistent s → wf s.
Proof.
  intros (_ & Hv & Hk). split; [done|].
  apply Forall_forall. intros r Hr. unfold values in Hr.
  apply list_elem_of_fmap in Hr as ([k r'] & -> & Hin).
  destruct (Hk _ _ Hin) as (t & Ht & _). by apply lookup_lt_Some in Ht.
Qed.

Lemma consistent_evolves s s' :
  consistent s → tickets s' = tickets s → heap_evolves (heap s) (heap s') →
  consistent s'.
Proof.
  intros (Hk & Hv & Hid) Et Hev. unfold consistent, values. rewrite Et.
  split_and!; try done.
  intros k r Hin. destruct (Hid _ _ Hin) as (t & Ht & <-).
  destruct (Hev _ _ Ht) as (t' & Ht' & ((Hi & _) & _)). eauto.
Qed.

Lemma consistent_create p c x sm s w :
  consistent s → consistent (_create_ticket p c x sm s w).1.2.
Proof.
  intros Hc. pose proof (consistent_wf _ Hc) as [_ Hlt].
  destruct Hc as (Hk & Hv & Hid).
  rewrite create_unfold. cbv zeta. cbn [fst snd]. unfold consistent, values. cbn [heap tickets].
  split_and!.
  - by apply dict_set_fst_NoDup.
  - apply dict_set_NoDup; [done|]. intros Hin.
    rewrite Forall_forall in Hlt. specialize (Hlt _ Hin). lia.
  - intros k r [[= -> ->]|Hin]%dict_set_in.
    + eexists. split; [by rewrite lookup_app_r, Nat.sub_diag by lia|done].
    + destruct (Hid _ _ Hin) as (t & Ht & <-). exists t. split; [|done].
      rewrite lookup_app_l; [done|]. by apply lookup_lt_Some in Ht.
Qed.

Lemma claim_tickets c s : tickets (_claim_oldest c s).2 = tickets s.
Proof. unfold _claim_oldest. cbv zeta. by destruct (sort_by _ _). Qed.

Lemma consistent_step o st : consistent st.1 → consistent (step o st).1.
Proof.
  intros Hc. destruct o as [p c x sm|c|ops].
  - unfold step. pose proof (consistent_create p c x sm st.1 st.2 Hc) as Hn.
    destruct (_create_ticket p c x sm st.1 st.2) as [[tid s'] w']. exact Hn.
  - apply (consistent_evolves st.1); [done|apply claim_tickets|].
    apply (step_heap_evolves (Claim c)).
  - apply (consistent_evolves st.1); [done| |apply (step_heap_evolves (Pass ops))].
    simpl. by destruct (pass_frame ops st.1 st.2) as [? _].
Qed.

(** X15: whatever is created, claimed and escalated, in any order, the
    dict stays consistent with the objects: keys and objects are unique,
    every key is the id of its ticket, every object is allocated. *)
Theorem run_keeps_store_consistent os st :
  consistent st.1 → consistent (run os st).1 ∧ wf (run os st).1.
Proof.
  intros Hc. assert (Hr : consistent (run os st).1).
  { revert st Hc. induction os as [|o os IH]; intros st Hc; [done|].
    simpl. apply IH. by apply consistent_step. }
  split; [done|]. by apply consistent_wf.
Qed.

(** *** The order of claims *)

(** The head of a stable sort is the first of the smallest elements. *)
Lemma sort_by_first key l r rest :
  sort_by key l = r :: rest →
  ∃ l1 l2, l = l1 ++ r :: l2 ∧
    (∀ x, x ∈ l1 → (key r < key x)%Q) ∧ (∀ x, x ∈ l2 → (key r <= key x)%Q).
Proof.
  revert r rest. induction l as [|x l IH]; intros r rest E; [done|].
  simpl in E. destruct (sort_by key l) as [|r0 rest0] eqn:Es.
  - simpl in E. injection E as <- <-.
    pose proof (sort_by_head key l) as Hh. rewrite Es in Hh. subst l.
    exists [], []. split_and!; try done; intros y Hy; by apply elem_of_nil in Hy.
  - destruct (IH _ _ eq_refl) as (l1 & l2 & -> & H1 & H2).
    simpl in E. destruct (Qle_bool (key x) (key r0)) eqn:Ele.
    + injection E as <- <-. apply Qle_bool_iff in Ele.
      exists [], (l1 ++ r0 :: l2). split_and!; try done.
      * intros y Hy. by apply elem_of_nil in Hy.
      * intros y [Hy|[->|Hy]%elem_of_cons]%elem_of_app.
        -- apply Qlt_le_weak. eapply Qle_lt_trans; [exact Ele|by apply H1].
        -- done.
        -- eapply Qle_trans; [exact Ele|by apply H2].
    + injection E as <- <-.
      assert (Hlt : (key r0 < key x)%Q).
      { apply Qnot_le_lt. intros Hle. apply Qle_bool_iff in Hle. congruence. }
      exists (x :: l1), l2. split_and!; try done.
      intros y [->|Hy]%elem_of_cons; [done|by apply H1].
Qed.

Lemma filter_split {A} (P : A → Prop) `{∀ x, Decision (P x)} (l : list A) f1 r f2 :
  filter P l = f1 ++ r :: f2 →
  ∃ l1 l2, l = l1 ++ r :: l2 ∧ filter P l1 = f1 ∧ filter P l2 = f2 ∧ P r.
Proof.
  revert f1. induction l as [|x l IH]; intros f1 E.
  - by destruct f1.
  - rewrite filter_cons in E. destruct (decide (P x)) as [Hx|Hx].
    + destruct f1 as [|y f1]; simpl in E.
      * injection E as -> <-. exists [], l. split_and!; done.
      * injection E as -> E. destruct (IH _ E) as (l1 & l2 & -> & <- & <- & Hr).
        exists (y :: l1), l2. split_and!; try done.
        by rewrite filter_cons, decide_True.
    + destruct (IH _ E) as (l1 & l2 & -> & <- & <- & Hr).
      exists (x :: l1), l2. split_and!; try done.
      by rewrite filter_cons, decide_False.
Qed.

(** X16: the ticket a claim takes is the first, in the order of the dict,
    of the oldest open tickets: every open ticket in front of it is strictly
    younger, every open ticket behind it is not older. *)
Theorem claim_oldest_tie_break c s r s' :
  _claim_oldest c s = (Some r, s') →
  ∃ l1 l2, values s = l1 ++ r :: l2 ∧
    (∀ x, x ∈ l1 → is_open (heap s) x = true →
          (key_of (heap s) r < key_of (heap s) x)%Q) ∧
    (∀ x, x ∈ l2 → is_open (heap s) x = true →
          (key_of (heap s) r <= key_of (heap s) x)%Q).
Proof.
  unfold _claim_oldest. cbv zeta.
  destruct (sort_by _ _) as [|r0 rest] eqn:Es; [done|]. intros [= <- _].
  apply sort_by_first in Es as (f1 & f2 & Ef & H1 & H2).
  apply filter_split in Ef as (l1 & l2 & -> & <- & <- & _).
  exists l1, l2. split_and!; [done| |].
  - intros x Hx Ho. apply H1. by apply list_elem_of_filter.
  - intros x Hx Ho. apply H2. by apply list_elem_of_filter.
Qed.

(** X17: two claims in a row take two different tickets, the older one
    first, and the second claim leaves the first one with its operator. *)
Theorem claims_are_fifo c1 c2 s r1 s1 r2 s2 :
  _claim_oldest c1 s = (Some r1, s1) →
  _claim_oldest c2 s1 = (Some r2, s2) →
  r1 ≠ r2 ∧ (key_of (heap s) r1 <= key_of (heap s) r2)%Q ∧
  (claimed_by <$> heap s2 !! r1) = Some (Some c1) ∧
  (claimed_by <$> heap s2 !! r2) = Some (Some c2).
Proof.
  intros E1 E2.
  assert (Hfirst : ∃ l1 l2, values s = l1 ++ r1 :: l2 ∧
            (∀ x, x ∈ l1 → is_open (heap s) x = true →
                  (key_of (heap s) r1 < key_of (heap s) x)%Q) ∧
            (∀ x, x ∈ l2 → is_open (heap s) x = true →
                  (key_of (heap s) r1 <= key_of (heap s) x)%Q)).
  { revert E1. unfold _claim_oldest. cbv zeta.
    destruct (sort_by _ _) as [|r0 rest] eqn:Es; [done|]. intros [= <- _].
    apply sort_by_first in Es as (f1 & f2 & Ef & H1 & H2).
    apply filter_split in Ef as (l1 & l2 & -> & <- & <- & _).
    exists l1, l2. split_and!; [done| |]; intros x Hx Ho;
      [apply H1|apply H2]; by apply list_elem_of_filter. }
  destruct Hfirst as (l1 & l2 & Ev & Hb & Ha).
  apply claim_oldest_open in E1 as (Hr1 & Ho1 & ->).
  apply claim_oldest_open in E2 as (Hr2 & Ho2 & ->). cbn [heap tickets values] in *.
  apply is_open_spec in Ho1 as (t1 & Ht1 & Hl1).
  apply is_open_spec in Ho2 as (t2 & Ht2 & Hl2).
  assert (Hne : r1 ≠ r2).
  { intros <-. rewrite list_lookup_alter_eq, Ht1 in Ht2. simpl in Ht2.
    injection Ht2 as <-. destruct Hl2 as [_ Hc]. done. }
  rewrite list_lookup_alter_ne in Ht2 by done.
  assert (Hopen2 : is_open (heap s) r2 = true) by (apply is_open_spec; eauto).
  split_and!; [done| | |].
  - unfold values in Hr2. cbn [tickets] in Hr2. fold (values s) in Hr2. rewrite Ev in Hr2.
    apply elem_of_app in Hr2 as [Hin|[->|Hin]%elem_of_cons]; [|done|by apply Ha].
    apply Qlt_le_weak. by apply Hb.
  - rewrite list_lookup_alter_ne by done. rewrite list_lookup_alter_eq, Ht1. done.
  - rewrite list_lookup_alter_eq, list_lookup_alter_ne, Ht2 by done. done.
Qed.

(** *** Passes with nothing to do *)

Lemma escalate_not_due ops now t w : due now t = false → escalate ops now t w = (t, w).
Proof.
  intros Hd. destruct (live_or_frozen t) as [Hl|Hf]; [|by apply escalate_frozen].
  rewrite escalate_live by done. destruct Hl as [Hr Hc].
  unfold due in Hd. rewrite Hr, Hc in Hd. simpl in Hd.
  rewrite !orb_false_iff in Hd. destruct Hd as ((((-> & ->) & ->) & ->) & ->). done.
Qed.

Lemma escalate_all_quiet ops now rs : ∀ h w,
  (∀ r t, r ∈ rs → h !! r = Some t → due now t = false) →
  escalate_all ops now rs h w = (h, w).
Proof.
  induction rs as [|r rs IH]; intros h w Hq; [done|]. simpl.
  destruct (h !! r) as [t|] eqn:Ht.
  - unfold mbind, M_bind, bind. rewrite (escalate_not_due _ _ _ _ (Hq r t ltac:(by left) Ht)).
    rewrite list_insert_id by done. apply IH. intros r' t' Hr'. apply Hq. by right.
  - apply IH. intros r' t' Hr'. apply Hq. by right.
Qed.

(** X18: a pass over a store in which nothing is due (every ticket is
    claimed, resolved, or still inside its waiting time) changes no ticket,
    sends nothing and logs nothing; it only reads the clock once. *)
Theorem quiet_pass ops s w :
  (∀ r t, r ∈ values s → heap s !! r = Some t → due (wall w (ticks w)) t = false) →
  _process_escalations ops s w = (s, mkWorld (wall w) (S (ticks w)) (trace w)).
Proof.
  intros Hq. rewrite process_escalations_unfold. cbv zeta.
  rewrite escalate_all_quiet by done. by destruct s.
Qed.

(** *** Who is written to *)

Lemma pings_sent t targets c x :
  Sent c x ∈ pings t targets → x = summary t ∧ c ∈ targets.
Proof.
  unfold pings. destruct (summary t) eqn:E; [by intros ?%elem_of_nil|]. rewrite <- E.
  intros (c' & [= -> ->] & Hin)%list_elem_of_fmap. done.
Qed.

Lemma round_sent t targets level msg c x :
  Sent c x ∈ round t targets level msg → x = summary t ∧ c ∈ targets.
Proof.
  unfold round. destruct (nonempty targets); [|by intros ?%elem_of_nil].
  intros [Hin|Hin]%elem_of_app; [by apply pings_sent|].
  by apply list_elem_of_singleton in Hin.
Qed.

(** X19: a pass writes only to operators of the roster, and then the
    summary of an open ticket, or to the customer of an open ticket at
    stage 3, and then the apology. *)
Theorem pass_recipients ops s w c x :
  wf s →
  Sent c x ∈ trace (_process_escalations ops s w).2 →
  Sent c x ∈ trace w ∨
  ∃ r t, r ∈ values s ∧ heap s !! r = Some t ∧ live t ∧
    ((x = summary t ∧ (c ∈ ops_main ops ∨ c ∈ ops_all ops ∨ c ∈ ops_admin ops)) ∨
     (x = _bot_prefix BUSY ∧ c = customer_chat_id t ∧ stage t = 3)).
Proof.
  intros Hwf. rewrite pass_trace by done.
  intros [Hin|Hin]%sent_deliver; [by left|]. right.
  apply list_elem_of_In, in_flat_map in Hin as (r & Hr & Hin).
  apply list_elem_of_In in Hr, Hin.
  unfold events_at in Hin. destruct (heap s !! r) as [t|] eqn:Ht; [|by apply elem_of_nil in Hin].
  exists r, t. split_and!; try done.
  - destruct (live_or_frozen t) as [|Hf]; [done|].
    rewrite events_of_frozen in Hin by done. by apply elem_of_nil in Hin.
  - unfold events_of in Hin.
    destruct (resolved t); [by apply elem_of_nil in Hin|].
    destruct (bool_decide _); [by apply elem_of_nil in Hin|].
    destruct (fires1 t).
    { apply round_sent in Hin as [-> ?]. left. auto. }
    destruct (fires2 _ t).
    { apply round_sent in Hin as [-> [?|?]%union_targets_elem]; left; auto. }
    destruct (fires3 _ t).
    { apply round_sent in Hin as [-> [?|?]%union_targets_elem]; left; auto. }
    destruct (fires4 _ t) eqn:E4.
    { apply fires4_iff in E4 as [E4 _].
      apply elem_of_cons in Hin as [[= -> ->]|Hin]; [by right|].
      by apply list_elem_of_singleton in Hin. }
    destruct (overdue _ t); [|by apply elem_of_nil in Hin].
    apply round_sent in Hin as [-> ?]. left. auto.
Qed.

(** *** What is never undone *)



Lemma sane_notified t targets level msg w k :
  sane t → live t → 1 <= k <= 4 →
  sane (set_stage k (notified t targets level msg w).1).
Proof.
  intros (Hs & Hp & Hr) [Hres Hcl] Hk. unfold notified.
  destruct (nonempty targets); cbn [fst]; split_and!; cbn;
    first [lia|done|intros; lia].
Qed.

Lemma sane_escalate ops now t w : sane t → sane (escalate ops now t w).1.
Proof.
  intros Hs. destruct (live_or_frozen t) as [Hl|Hf]; [|by rewrite escalate_frozen].
  rewrite escalate_live by done.
  destruct (fires1 t) eqn:E1.
  { destruct (notified _ _ _ _ _) as [t1 w1] eqn:En.
    change t1 with (t1, w1).1. rewrite <- En. by apply sane_notified. }
  destruct (fires2 now t).
  { destruct (notified _ _ _ _ _) as [t1 w1] eqn:En.
    change t1 with (t1, w1).1. rewrite <- En. by apply sane_notified. }
  destruct (fires3 now t).
  { destruct (notified _ _ _ _ _) as [t1 w1] eqn:En.
    change t1 with (t1, w1).1. rewrite <- En. by apply sane_notified. }
  destruct (fires4 now t).
  { destruct Hs as (Hs & Hp & Hr). destruct Hl as [Hres Hcl].
    split_and!; cbn; first [lia|done|intros; lia]. }
  destruct (overdue now t); [|done].
  destruct Hs as (Hs & Hp & Hr). destruct Hl as [Hres Hcl].
  assert (Hne : stage t ≠ 0).
  { intros H0. specialize (Hp H0).
    assert (fires1 t = true); [|congruence].
    apply fires1_iff. split; [done|]. by rewrite Hp. }
  unfold notified. destruct (nonempty _); cbn [fst]; split_and!; cbn;
    first [lia|done].
Qed.

Lemma sane_escalate_all ops now rs : ∀ h w,
  Forall sane h → Forall sane (escalate_all ops now rs h w).1.
Proof.
  induction rs as [|r rs IH]; intros h w Hh; [done|]. simpl.
  destruct (h !! r) as [t|] eqn:Ht; [|by apply IH].
  unfold mbind, M_bind, bind.
  pose proof (sane_escalate ops now t w) as Hs.
  destruct (escalate ops now t w) as [t' w']. apply IH.
  apply Forall_insert; [done|]. apply Hs.
  rewrite Forall_forall in Hh. apply Hh. by eapply list_elem_of_lookup_2.
Qed.

Lemma sane_step o st : Forall sane (heap st.1) → Forall sane (heap (step o st).1).
Proof.
  intros Hh. destruct o as [p c x sm|c|ops].
  - unfold step. rewrite create_unfold. cbv zeta. cbn [fst snd heap].
    apply Forall_app. split; [done|]. repeat constructor; cbn; try lia; done.
  - cbn [step fst]. unfold _claim_oldest. cbv zeta.
    destruct (sort_by _ _) as [|r rest] eqn:Es; [done|]. cbn [snd heap].
    pose proof (sort_by_head (key_of (heap st.1))
      (filter (fun r => is_open (heap st.1) r = true) (values st.1))) as Hhd.
    rewrite Es in Hhd. destruct Hhd as [Hin _].
    apply list_elem_of_filter in Hin as [Ho _].
    apply is_open_spec in Ho as (t & Ht & Hres & Hcl).
    rewrite Forall_forall in Hh.
    apply Forall_forall. intros t' Hin.
    apply list_elem_of_lookup_1 in Hin as [i Hi].
    destruct (decide (i = r)) as [->|Hne].
    + rewrite list_lookup_alter_eq, Ht in Hi. injection Hi as <-.
      destruct (Hh t) as (Hs & Hp & Hr); [by eapply list_elem_of_lookup_2|].
      split_and!; cbn; first [lia|done|intros Hx; congruence].
    + rewrite list_lookup_alter_ne in Hi by done.
      apply Hh. by eapply list_elem_of_lookup_2.
  - cbn [step]. rewrite process_escalations_unfold. cbv zeta. cbn [fst heap].
    by apply sane_escalate_all.
Qed.

(** X28: every ticket the runner ever holds, after any sequence of
    creations, claims and passes from the empty store: its stage is between
    0 and 4; at stage 0 it has never been pinged, so the second half of the
    guard of the first transition is always true; and it is never both
    resolved and claimed. *)
Theorem reachable_tickets_sane os w i t :
  heap (run os (empty_store, w)).1 !! i = Some t → sane t.
Proof.
  assert (Hall : ∀ os st, Forall sane (heap st.1) → Forall sane (heap (run os st).1)).
  { clear. intros os. induction os as [|o os IH]; intros st Hh; [done|].
    simpl. apply IH. by apply sane_step. }
  intros Ht. specialize (Hall os (empty_store, w) (Forall_nil_2 _)).
  rewrite Forall_forall in Hall. apply Hall. by eapply list_elem_of_lookup_2.
Qed.

End WithOutside.

(** *** Examples *)

Lemma consistent_empty_store : consistent empty_store.
Proof.
  split_and!; try apply NoDup_nil_2. intros k r Hin. by apply elem_of_nil in Hin.
Qed.

Lemma run_keeps_store_consistent_witness :
  let os := [Create (u "telegram") 5 (u "hi") (u "S"); Pass demo_ops; Claim 7] in
  consistent (run os (empty_store, world_at 65)).1 ∧
  wf (run os (empty_store, world_at 65)).1.
Proof.
  apply (run_keeps_store_consistent _ (empty_store, world_at 65)).
  exact consistent_empty_store.
Defined.

Lemma claim_oldest_tie_break_witness :
  (_claim_oldest 7 three_waiting).1 = Some 1%nat ∧
  (key_of (heap three_waiting) 1 < key_of (heap three_waiting) 0)%Q ∧
  (key_of (heap three_waiting) 1 <= key_of (heap three_waiting) 2)%Q.
Proof.
  split; [reflexivity|].
  destruct (claim_oldest_tie_break 7 three_waiting 1%nat (_claim_oldest 7 three_waiting).2
              eq_refl) as (l1 & l2 & E & Hfront & Hback).
  change (values three_waiting) with [0%nat; 1%nat; 2%nat] in E.
  destruct l1 as [|a [|b l1]]; simpl in E.
  - discriminate E.
  - injection E as <- <-. split.
    + apply Hfront; [apply list_elem_of_here|reflexivity].
    + apply Hback; [apply list_elem_of_here|reflexivity].
  - exfalso. injection E as _ _ E. destruct l1 as [|c [|d l1]]; discriminate E.
Defined.

Lemma claims_are_fifo_witness :
  0%nat ≠ 1%nat ∧ (key_of (heap two_tickets) 0 <= key_of (heap two_tickets) 1)%Q.
Proof.
  destruct (claims_are_fifo 7 8 two_tickets 0%nat (_claim_oldest 7 two_tickets).2
              1%nat (_claim_oldest 8 (_claim_oldest 7 two_tickets).2).2 eq_refl eq_refl)
    as (Hne & Hle & _).
  split; [exact Hne|exact Hle].
Defined.

Lemma quiet_pass_witness :
  let s := mkStore [pinged_ticket] [(u "0_5", 0%nat)] in
  _process_escalations demo_ops s (world_at 65) =
  (s, mkWorld (wall (world_at 65)) 1 (trace (world_at 65))).
Proof.
  apply (quiet_pass demo_ops (mkStore [pinged_ticket] [(u "0_5", 0%nat)]) (world_at 65)).
  intros r t Hr Ht. apply list_elem_of_singleton in Hr as ->.
  injection Ht as <-. vm_compute. reflexivity.
Defined.

Lemma pass_recipients_witness :
  Sent 7 (u "S") ∈ trace (world_at 65) ∨
  ∃ r t, r ∈ values fresh_store ∧ heap fresh_store !! r = Some t ∧ live t ∧
    ((u "S" = summary t ∧
      (7 ∈ ops_main demo_ops ∨ 7 ∈ ops_all demo_ops ∨ 7 ∈ ops_admin demo_ops)) ∨
     (u "S" = _bot_prefix BUSY ∧ 7 = customer_chat_id t ∧ stage t = 3)).
Proof.
  apply (pass_recipients demo_ops fresh_store (world_at 65) 7 (u "S") wf_fresh_store).
  replace (trace (_process_escalations demo_ops fresh_store (world_at 65)).2)
    with [Sent 7 (u "S"); Logged INFO (msg_main (u "0_5"))] by (vm_compute; reflexivity).
  apply list_elem_of_here.
Defined.

Lemma reachable_tickets_sane_witness :
  ∃ t, heap (run [Create (u "telegram") 5 (u "hi") (u "S"); Pass demo_ops]
               (empty_store, world_at 65)).1 !! 0%nat = Some t ∧ sane t.
Proof.
  eexists. split.
  - vm_compute. reflexivity.
  - apply (reachable_tickets_sane
             [Create (u "telegram") 5 (u "hi") (u "S"); Pass demo_ops]
             (world_at 65) 0%nat).
    vm_compute. reflexivity.
Defined.

End TicketMore.

(** * Properties of the message loop *)

Module RunnerFacts.
Import Text Logic Tickets TicketFacts TextFacts LogicFacts LogicMore.
Import Shapes StoreInv TicketMore Runner.

Section WithOutside.
Context {transport : Transport} {pyset : PySet}.

Lemma grow_0 w : grow w 0 [] = w.
Proof. by destruct w. Qed.

Lemma grow_grow w k1 e1 k2 e2 : grow (grow w k1 e1) k2 e2 = grow w (k2 + k1) (e1 ++ e2).
Proof. unfold grow. simpl. by rewrite deliver_app, Nat.add_assoc. Qed.

Lemma send_grow c x w : _send c x w = (tt, grow w 0 (sends c x)).
Proof. by rewrite send_spec. Qed.

Lemma logger_grow level msg w : logger level msg w = (tt, grow w 0 [Logged level msg]).
Proof. done. Qed.

Lemma inform_grow targets x w :
  for_each targets (fun cid => _send cid x) w = (tt, grow w 0 (informs targets x)).
Proof. by rewrite for_each_send. Qed.

Lemma create_grow c x sm s w :
  _create_ticket TELEGRAM c x sm s w =
  ((ticket_id (new_ticket c x sm w), with_new (new_ticket c x sm w) s), grow w 2 []).
Proof. by rewrite create_unfold. Qed.

Lemma open_ticket_grow c x sm s w :
  open_ticket c x sm s w =
  (with_new (new_ticket c x sm w) s,
   grow w 2 [Logged WARN (CREATED ++ ticket_id (new_ticket c x sm w) ++ FOR_ESCALATION)]).
Proof.
  unfold open_ticket. unfold mbind, M_bind, bind. rewrite create_grow.
  cbn [fst snd]. rewrite logger_grow, grow_grow. done.
Qed.

Lemma sent_messages_sends c x : x ≠ [] → sent_messages (sends c x) = [(c, x)].
Proof. by destruct x. Qed.

Lemma sent_messages_informs targets x :
  sent_messages (informs targets x) =
  match x with [] => [] | _ => map (fun cid => (cid, x)) targets end.
Proof.
  unfold informs. destruct x as [|a x]; [done|].
  induction targets as [|t l IH]; [done|]. simpl. by rewrite <- IH.
Qed.

Lemma sends_nonempty c x : x ≠ [] → sends c x = [Sent c x].
Proof. by destruct x. Qed.

Lemma bot_prefix_plain x : x ≠ [] → strip x = x → _bot_prefix x = BOT_ ++ x.
Proof. intros Hx Hs. unfold _bot_prefix. rewrite Hs. by destruct x. Qed.

End WithOutside.

Section WithTables.
Context `{PyUnicode} {transport : Transport} {pyset : PySet}.
Variable repr : ustr → ustr.

(** *** Triggers *)

Lemma load_triggers_rows rows row :
  row ∈ _load_triggers rows →
  row.1 ≠ [] ∧ row.2 ≠ [] ∧ strip row.1 = row.1 ∧ strip row.2 = row.2.
Proof.
  unfold _load_triggers. intros Hin.
  apply list_elem_of_In, in_flat_map in Hin as ([a b] & _ & Hin). simpl in Hin.
  destruct (strip a) eqn:Ea, (strip b) eqn:Eb; simpl in Hin; try done.
  destruct Hin as [<-|[]]. simpl. rewrite <- Ea, <- Eb, !strip_idem.
  rewrite Ea, Eb. done.
Qed.

Lemma existsb_hits q row :
  existsb (key_hits q) (trigger_keys row.1) = true ↔ row_hits q row.
Proof.
  rewrite existsb_exists. unfold row_hits, key_hits. split.
  - intros (k & Hk & Hh). apply andb_true_iff in Hh as [Hn Hc].
    exists k. split_and!; [by apply list_elem_of_In| |done]. by destruct k.
  - intros (k & Hk & Hn & Hc). exists k. split; [by apply list_elem_of_In|].
    rewrite Hc. by destruct k.
Qed.

Lemma first_answer_spec q rows :
  match first_answer q rows with
  | None => ∀ row, row ∈ rows → ¬ row_hits q row
  | Some ans =>
      ∃ r1 row r2, rows = r1 ++ row :: r2 ∧ row.2 = ans ∧ row_hits q row ∧
        ∀ r, r ∈ r1 → ¬ row_hits q r
  end.
Proof.
  induction rows as [|[trig ans] rows IH]; simpl.
  - intros row Hr. by apply elem_of_nil in Hr.
  - destruct (existsb _ _) eqn:E.
    + exists [], (trig, ans), rows. split_and!; try done.
      * by apply (existsb_hits q (trig, ans)).
      * intros r Hr. by apply elem_of_nil in Hr.
    + assert (Hno : ¬ row_hits q (trig, ans)).
      { intros Hh. apply (existsb_hits q (trig, ans)) in Hh. simpl in Hh. congruence. }
      destruct (first_answer q rows) as [a|].
      * destruct IH as (r1 & row & r2 & -> & Ha & Hh & Hb).
        exists ((trig, ans) :: r1), row, r2. split_and!; try done.
        intros r [->|Hr]%elem_of_cons; [done|by apply Hb].
      * intros row [->|Hr]%elem_of_cons; [done|by apply IH].
Qed.

Lemma match_trigger_answer rows text ans :
  _match_trigger rows text = Some ans → ans ≠ [] ∧ strip ans = ans.
Proof.
  unfold _match_trigger. cbv zeta. intros E.
  pose proof (first_answer_spec (replace_yo (str_lower text)) (_load_triggers rows)) as Hf.
  rewrite E in Hf. destruct Hf as (r1 & row & r2 & Er & <- & _).
  assert (Hin : row ∈ _load_triggers rows).
  { rewrite Er. apply elem_of_app. right. by left. }
  apply load_triggers_rows in Hin. tauto.
Qed.

(** X20: [_match_trigger] answers with the first usable row one of whose
    keys occurs in the lower-cased text with ё replaced, and with nothing
    when no row has such a key; an answer is never empty and carries no
    white space around. *)
Theorem match_trigger_first rows text :
  let q := replace_yo (str_lower text) in
  match _match_trigger rows text with
  | None => ∀ row, row ∈ _load_triggers rows → ¬ row_hits q row
  | Some ans =>
      (∃ r1 row r2, _load_triggers rows = r1 ++ row :: r2 ∧ row.2 = ans ∧
         row_hits q row ∧ ∀ r, r ∈ r1 → ¬ row_hits q r) ∧
      ans ≠ [] ∧ strip ans = ans
  end.
Proof.
  cbv zeta. unfold _match_trigger. cbv zeta.
  pose proof (first_answer_spec (replace_yo (str_lower text)) (_load_triggers rows)) as Hf.
  pose proof (match_trigger_answer rows text) as Ha.
  unfold _match_trigger in Ha. cbv zeta in Ha.
  destruct (first_answer _ _) as [ans|]; [|done].
  split; [done|]. by apply Ha.
Qed.

Lemma replace_yo_no_yo s : 1105%N ∉ replace_yo s.
Proof.
  unfold replace_yo. intros (c & Hc & _)%list_elem_of_fmap.
  destruct (c =? 1105)%N eqn:E; [done|]. apply N.eqb_neq in E. done.
Qed.

Lemma contains_elem k q c : contains k q = true → c ∈ k → c ∈ q.
Proof.
  intros (a & t & ->)%contains_iff Hc. rewrite !elem_of_app. auto.
Qed.

(** X21: a trigger key that still has a ё after lower-casing can never
    be found: the text is searched with every ё replaced by е, the key is
    not. *)
Theorem yo_key_never_fires rows text :
  (∀ row k, row ∈ _load_triggers rows → k ∈ trigger_keys row.1 → 1105%N ∈ k) →
  _match_trigger rows text = None.
Proof.
  intros Hyo. pose proof (first_answer_spec
    (replace_yo (str_lower text)) (_load_triggers rows)) as Hf.
  unfold _match_trigger. cbv zeta.
  destruct (first_answer _ _) as [ans|]; [|done]. exfalso.
  destruct Hf as (r1 & row & r2 & E & _ & (k & Hk & _ & Hc) & _).
  assert (Hin : row ∈ _load_triggers rows).
  { rewrite E. apply elem_of_app. right. by left. }
  apply (replace_yo_no_yo (str_lower text)).
  eapply contains_elem; [exact Hc|]. by eapply Hyo.
Qed.

(** *** One update *)

Lemma on_decision_spec cfg c text d s w :
  on_decision cfg c text d s w =
  if ticket_needed d && nonempty_str (ticket_summary d)
  then open_ticket c text (ticket_summary d) s (grow w 0 (decision_events cfg c d))
  else (s, grow w 0 (decision_events cfg c d)).
Proof.
  unfold on_decision, decision_events, when, _send_admin_info, _send_main_info.
  unfold mbind, M_bind, bind.
  assert (E1 : (if nonempty_str (reply_text d)
                then _send c (_bot_prefix (reply_text d)) else ret tt) w =
               (tt, grow w 0 (if nonempty_str (reply_text d)
                              then sends c (_bot_prefix (reply_text d)) else []))).
  { destruct (nonempty_str _); [apply send_grow|by rewrite grow_0]. }
  rewrite E1. set (w1 := grow w 0 _).
  assert (E2 : ∀ (b : bool) targets x msg w0,
    (if b then fun w => let (_, w') := for_each targets (fun cid => _send cid x) w in
                        logger INFO msg w' else ret tt) w0 =
    (tt, grow w0 0 (if b then informs targets x ++ [Logged INFO msg] else []))).
  { intros b targets x msg w0. destruct b; [|by rewrite grow_0].
    rewrite inform_grow, logger_grow, grow_grow. done. }
  rewrite !E2. subst w1. rewrite !grow_grow. simpl.
  by destruct (ticket_needed d && _).
Qed.

Lemma heap_evolves_app h l : heap_evolves h (h ++ l).
Proof.
  intros i t Ht. exists t. split; [|apply evolves_refl].
  rewrite lookup_app_l; [done|]. by apply lookup_lt_Some in Ht.
Qed.

(** X22: a message of an operator makes no ticket and changes nothing
    unless it is a plus sign; a plus sign claims the oldest open ticket,
    whose [claimed_by] becomes this operator while its other fields stay,
    and names it to this operator alone, or tells this operator that there
    is none.  A request that the transport fails is followed by the line
    that [_send] logs. *)
Theorem operator_update cfg upd b w c msg :
  message upd = Some msg → chat_id msg = Some c →
  _is_operator_chat (ops cfg) c = true →
  let r := handle_update repr cfg upd b w in
  let s := _tickets b in
  _offset r.1 = Z.max (_offset b) (update_id upd + 1) ∧
  (strip (text msg) ≠ [43%N] → _tickets r.1 = s ∧ r.2 = w) ∧
  (strip (text msg) = [43%N] →
   _tickets r.1 = (_claim_oldest c s).2 ∧
   match (_claim_oldest c s).1 with
   | None => _tickets r.1 = s ∧ r.2 = grow w 0 [Sent c NO_REQUESTS]
   | Some i =>
       ∃ t t', heap s !! i = Some t ∧ live t ∧
         heap (_tickets r.1) !! i = Some t' ∧ claimed_by t' = Some c ∧
         resolved t' = false ∧ stage t' = stage t ∧
         last_ping_ts t' = last_ping_ts t ∧ same_request t t' ∧
         r.2 = grow w 0
                 [Sent c (TAKEN ++ ticket_id t ++ PLATFORM_ ++ platform t);
                  Logged INFO (TICKET_ ++ ticket_id t ++ TAKEN_BY ++ str_of_Z c)]
   end).
Proof.
  intros Hm Hc Hop. cbv zeta. unfold handle_update. rewrite Hm, Hc, Hop.
  unfold mbind, M_bind, bind, on_operator.
  destruct (bool_decide (strip (text msg) = [43%N])) eqn:Ep.
  - apply bool_decide_eq_true in Ep.
    destruct (_claim_oldest c (_tickets b)) as [[i|] s'] eqn:Ec.
    + pose proof Ec as Eo. apply claim_oldest_open in Eo as (Hi & Ho & ->).
      apply is_open_spec in Ho as (t & Ht & Hl). cbn [heap].
      rewrite list_lookup_alter_eq, Ht. cbn [fmap option_fmap option_map].
      unfold mbind, M_bind, bind. rewrite send_grow, logger_grow, grow_grow.
      rewrite sends_nonempty by done.
      unfold ret. cbn [fst snd _offset _tickets heap]. split_and!; [done|done|].
      intros _. split; [done|]. exists t, (set_claimed_by (Some c) t).
      rewrite list_lookup_alter_eq, Ht. destruct Hl as [Hres Hcl].
      split_and!; try done.
    + unfold mbind, M_bind, bind. rewrite send_grow.
      unfold ret. cbn [fst snd _offset _tickets].
      split_and!; [done|done|]. intros _. split; [done|].
      unfold _claim_oldest in Ec. cbv zeta in Ec.
      destruct (sort_by _ _); [|done]. by injection Ec as <-.
  - apply bool_decide_eq_false in Ep. unfold ret. cbn [fst snd _offset _tickets].
    split_and!; done.
Qed.

(** X23: in triggers mode exactly one message is requested for a customer:
    the answer of the matching trigger, and then no ticket, or the standard
    apology, and then one new ticket that carries the question.  When the
    transport fails the request, the line that [_send] logs follows it and
    the ticket is made all the same. *)
Theorem triggers_update cfg upd b w c msg :
  message upd = Some msg → chat_id msg = Some c →
  _is_operator_chat (ops cfg) c = false →
  answer_mode (env cfg) = MODE_TRIGGERS →
  let r := handle_update repr cfg upd b w in
  let s := _tickets b in
  let incoming := Logged INFO (INCOMING ++ str_of_Z c ++ TEXT_ ++ text msg) in
  match _match_trigger (trigger_rows cfg) (text msg) with
  | Some ans =>
      _tickets r.1 = s ∧ r.2 = grow w 0 [incoming; Sent c (BOT_ ++ ans)]
  | None =>
      let t := new_ticket c (text msg)
                 (HELP_TRIGGERS ++ text msg ++ BOT_ANSWER ++ NO_ANSWER ++ PUT_PLUS) w in
      _tickets r.1 = with_new t s ∧
      r.2 = grow w 2 [incoming; Sent c (BOT_ ++ NO_ANSWER);
                      Logged WARN (CREATED ++ ticket_id t ++ FOR_ESCALATION)]
  end.
Proof.
  intros Hm Hc Hop Hmode. cbv zeta. unfold handle_update. rewrite Hm, Hc, Hop.
  unfold mbind, M_bind, bind, on_customer.
  unfold mbind, M_bind, bind. rewrite logger_grow.
  fold (answer_mode (env cfg)). rewrite Hmode.
  rewrite bool_decide_eq_true_2 by done. unfold on_triggers.
  pose proof (match_trigger_answer (trigger_rows cfg) (text msg)) as Hs.
  destruct (_match_trigger _ _) as [ans|].
  - destruct (Hs ans eq_refl) as (Hne & Hst).
    unfold mbind, M_bind, bind. rewrite send_grow, bot_prefix_plain by done.
    rewrite sends_nonempty by done. rewrite grow_grow. done.
  - unfold mbind, M_bind, bind. rewrite send_grow.
    change (_bot_prefix NO_ANSWER) with (BOT_ ++ NO_ANSWER).
    change (sends c (BOT_ ++ NO_ANSWER)) with [Sent c (BOT_ ++ NO_ANSWER)].
    rewrite open_ticket_grow, !grow_grow. unfold ret. cbn [fst snd _offset _tickets].
    split; reflexivity.
Qed.

Lemma customer_update_unfold cfg upd b w c msg :
  message upd = Some msg → chat_id msg = Some c →
  _is_operator_chat (ops cfg) c = false →
  handle_update repr cfg upd b w =
  let r := on_customer repr cfg c (text msg) (_tickets b) w in
  (mkBot (Z.max (_offset b) (update_id upd + 1)) r.1, r.2).
Proof.
  intros Hm Hc Hop. unfold handle_update. rewrite Hm, Hc, Hop.
  unfold mbind, M_bind, bind. by destruct (on_customer _ _ _ _ _ _).
Qed.

Lemma on_customer_builder cfg c x s w :
  answer_mode (env cfg) ≠ MODE_TRIGGERS →
  on_customer repr cfg c x s w =
  let w0 := grow w 0 [Logged INFO (INCOMING ++ str_of_Z c ++ TEXT_ ++ x)] in
  match handle_customer_message (env cfg) TELEGRAM x (answer_mode (env cfg)) with
  | Ok d => on_decision cfg c x d s w0
  | Raise e => (s, grow w0 0 [Logged ERROR (UPDATE_ERROR ++ exn_text repr e)])
  end.
Proof.
  intros Hmode. unfold on_customer. unfold mbind, M_bind, bind. rewrite logger_grow.
  fold (answer_mode (env cfg)). rewrite bool_decide_eq_false_2 by done.
  by destruct (handle_customer_message _ _ _ _).
Qed.

(** X24: outside triggers mode a message of a customer has one of three
    outcomes.  If the decision builder raises, which it does whenever the
    search finds a product, the error is logged with the text of the
    exception, nothing is sent and no ticket is made.  If the decision asks
    for a ticket, the forwarding notice is first requested for the
    customer, then one ticket with a non-empty summary is made, and no
    operator is written to.  Otherwise no ticket is made, and never both
    the admins and the main operators are informed.  A request that the
    transport fails is followed by the line that [_send] logs. *)
Theorem builder_update cfg upd b w c msg :
  message upd = Some msg → chat_id msg = Some c →
  _is_operator_chat (ops cfg) c = false →
  answer_mode (env cfg) ≠ MODE_TRIGGERS →
  let r := handle_update repr cfg upd b w in
  let s := _tickets b in
  let q := strip (text msg) in
  let incoming := Logged INFO (INCOMING ++ str_of_Z c ++ TEXT_ ++ text msg) in
  match handle_customer_message (env cfg) TELEGRAM (text msg) (answer_mode (env cfg)) with
  | Raise e =>
      e = AttributeError ∧ find_rows (env cfg) q ≠ [] ∧
      _tickets r.1 = s ∧
      r.2 = grow w 0 [incoming; Logged ERROR (UPDATE_ERROR ++ NO_GET)]
  | Ok d =>
      if ticket_needed d then
        let t := new_ticket c (text msg) (ticket_summary d) w in
        (reply_text d = FORWARDED ∨ reply_text d = OUTSIDE_HOURS) ∧
        summary t ≠ [] ∧ _tickets r.1 = with_new t s ∧
        r.2 = grow w 2 [incoming; Sent c (BOT_ ++ reply_text d);
                        Logged WARN (CREATED ++ ticket_id t ++ FOR_ESCALATION)]
      else
        _tickets r.1 = s ∧ r.2 = grow w 0 (incoming :: decision_events cfg c d) ∧
        notify_admin d && notify_main d = false
  end.
Proof.
  intros Hm Hc Hop Hmode. cbv zeta.
  rewrite (customer_update_unfold _ _ _ _ _ _ Hm Hc Hop). cbv zeta. cbn [fst snd _tickets].
  rewrite on_customer_builder by done. cbv zeta.
  pose proof (builder_raises (env cfg) TELEGRAM (text msg) (answer_mode (env cfg))) as Hraise.
  destruct (handle_customer_message _ _ _ _) as [d|e] eqn:Ed.
  - rewrite on_decision_spec.
    apply ticket_decision in Ed as (Ht & Had).
    destruct (ticket_needed d).
    + destruct (Ht eq_refl) as (Hsum & Hr & Hnm & Hna).
      assert (Hp : _bot_prefix (reply_text d) = BOT_ ++ reply_text d ∧ reply_text d ≠ []).
      { by destruct Hr as [-> | ->]. }
      destruct Hp as [Hp Hne].
      unfold decision_events. rewrite Hnm, Hna, Hp. cbn [andb].
      destruct (ticket_summary d) as [|a sm] eqn:Es; [done|]. cbn [nonempty_str andb].
      destruct (reply_text d) as [|a' r'] eqn:Er; [done|]. cbn [nonempty_str].
      rewrite open_ticket_grow, grow_grow. cbn [fst snd].
      split_and!; first [done | by rewrite grow_grow].
    + cbn [andb fst snd]. rewrite grow_grow. split_and!; try done.
      destruct (notify_admin d); [|done]. by rewrite (Had eq_refl).
  - destruct (Hraise e eq_refl) as [-> Hfound].
    cbn [fst snd exn_text]. by rewrite grow_grow.
Qed.

(** *** The whole loop *)

Lemma on_decision_cases cfg c x d s w :
  ∃ k evs, (on_decision cfg c x d s w).2 = grow w k evs ∧
    ((on_decision cfg c x d s w).1 = s ∨
     ∃ sm w0, (on_decision cfg c x d s w).1 = with_new (new_ticket c x sm w0) s).
Proof.
  rewrite on_decision_spec. destruct (_ && _).
  - rewrite open_ticket_grow, grow_grow. cbn [fst snd]. eauto 10.
  - cbn [fst snd]. eauto.
Qed.

Lemma on_customer_cases cfg c x s w :
  ∃ k evs, (on_customer repr cfg c x s w).2 = grow w k evs ∧
    ((on_customer repr cfg c x s w).1 = s ∨
     ∃ sm w0, (on_customer repr cfg c x s w).1 = with_new (new_ticket c x sm w0) s).
Proof.
  unfold on_customer. unfold mbind, M_bind, bind. rewrite logger_grow.
  destruct (bool_decide _).
  - unfold on_triggers. destruct (_match_trigger _ _).
    + unfold mbind, M_bind, bind. rewrite send_grow, grow_grow. cbn [fst snd]. eauto.
    + unfold mbind, M_bind, bind.
      rewrite send_grow, open_ticket_grow, !grow_grow. cbn [fst snd]. eauto 10.
  - destruct (handle_customer_message _ _ _ _) as [d|e].
    + destruct (on_decision_cases cfg c x d s
                  (grow w 0 [Logged INFO (INCOMING ++ str_of_Z c ++ TEXT_ ++ x)]))
        as (k & evs & -> & Hs).
      rewrite grow_grow. eauto.
    + unfold mbind, M_bind, bind. rewrite logger_grow, grow_grow. cbn [fst snd]. eauto.
Qed.

Lemma on_operator_cases c x s w :
  ∃ k evs, (on_operator c x s w).2 = grow w k evs ∧
    ((on_operator c x s w).1 = s ∨ (on_operator c x s w).1 = (_claim_oldest c s).2).
Proof.
  unfold on_operator. destruct (bool_decide _).
  - destruct (_claim_oldest c s) as [[i|] s'].
    + destruct (heap s' !! i).
      * unfold mbind, M_bind, bind. rewrite send_grow, logger_grow, grow_grow.
        cbn [fst snd]. eauto.
      * exists 0%nat, []. rewrite grow_0. cbn [fst snd]. eauto.
    + unfold mbind, M_bind, bind. rewrite send_grow. cbn [fst snd]. eauto.
  - exists 0%nat, []. rewrite grow_0. cbn [fst snd]. eauto.
Qed.

Lemma with_new_consistent c x sm w0 s :
  consistent s → consistent (with_new (new_ticket c x sm w0) s).
Proof.
  intros Hc. pose proof (consistent_create TELEGRAM c x sm s w0 Hc) as Hn.
  by rewrite create_grow in Hn.
Qed.

Lemma good_refl b w : good b b w w.
Proof.
  split_and!; [done|apply heap_evolves_refl|lia|]. exists 0%nat, []. by rewrite grow_0.
Qed.

Lemma good_trans b1 b2 b3 w1 w2 w3 :
  good b1 b2 w1 w2 → good b2 b3 w2 w3 → good b1 b3 w1 w3.
Proof.
  intros (Hc1 & He1 & Ho1 & k1 & e1 & ->) (Hc2 & He2 & Ho2 & k2 & e2 & ->).
  split_and!; [auto| |lia|].
  - by eapply heap_evolves_trans.
  - rewrite grow_grow. eauto.
Qed.

Lemma handle_update_good cfg upd b w :
  let r := handle_update repr cfg upd b w in
  good b r.1 w r.2 ∧ update_id upd < _offset r.1.
Proof.
  cbv zeta. unfold handle_update.
  assert (Hsame : ∀ o, _offset b <= o →
            good b (mkBot o (_tickets b)) w w).
  { intros o Ho. split_and!; [done|apply heap_evolves_refl|done|].
    exists 0%nat, []. by rewrite grow_0. }
  destruct (message upd) as [msg|];
    [|unfold ret; cbn [fst snd _offset]; split; [apply Hsame|]; lia].
  destruct (chat_id msg) as [c|];
    [|unfold ret; cbn [fst snd _offset]; split; [apply Hsame|]; lia].
  unfold mbind, M_bind, bind. destruct (_is_operator_chat _ _).
  - destruct (on_operator_cases c (text msg) (_tickets b) w) as (k & evs & Ew & Hs).
    destruct (on_operator c (text msg) (_tickets b) w) as [s' w']. cbn [fst snd] in *.
    unfold ret. cbn [fst snd _offset _tickets]. split; [|lia].
    unfold good. cbn [_offset _tickets].
    refine (conj _ (conj _ (conj _ _))); [| |lia|by eauto].
    + destruct Hs as [-> | ->]; [done|].
      intros Hc. apply (consistent_step (Claim c) (_tickets b, w) Hc).
    + destruct Hs as [-> | ->]; [apply heap_evolves_refl|apply claim_heap_evolves].
  - destruct (on_customer_cases cfg c (text msg) (_tickets b) w) as (k & evs & Ew & Hs).
    destruct (on_customer repr cfg c (text msg) (_tickets b) w) as [s' w']. cbn [fst snd] in *.
    unfold ret. cbn [fst snd _offset _tickets]. split; [|lia].
    unfold good. cbn [_offset _tickets].
    refine (conj _ (conj _ (conj _ _))); [| |lia|by eauto].
    + destruct Hs as [-> | (sm & w0 & ->)]; [done|]. apply with_new_consistent.
    + destruct Hs as [-> | (sm & w0 & ->)]; [apply heap_evolves_refl|].
      apply heap_evolves_app.
Qed.

Lemma handle_all_good work : ∀ b w,
  let r := handle_all repr work b w in
  good b r.1 w r.2 ∧ ∀ cfg upd, (cfg, upd) ∈ work → update_id upd < _offset r.1.
Proof.
  induction work as [|[cfg upd] work IH]; intros b w; cbv zeta.
  - split; [apply good_refl|]. intros cfg upd Hin. by apply elem_of_nil in Hin.
  - simpl. unfold mbind, M_bind, bind.
    destruct (handle_update_good cfg upd b w) as [Hg Ho].
    destruct (handle_update repr cfg upd b w) as [b1 w1]. cbn [fst snd] in *.
    destruct (IH b1 w1) as [Hg2 Ho2]. split; [by eapply good_trans|].
    intros cfg' upd' [[= -> ->]|Hin]%elem_of_cons; [|by eapply Ho2].
    destruct Hg2 as (_ & _ & Hle & _). lia.
Qed.

(** X25: one turn of the loop, whatever the updates and the settings: a
    consistent store stays consistent, every ticket that existed is still
    there and has only moved forward, every update handled lies behind the
    new offset, and the log of events is only ever extended. *)
Theorem turn_invariants work roster b w :
  consistent (_tickets b) →
  let r := turn repr work roster b w in
  consistent (_tickets r.1) ∧
  heap_evolves (heap (_tickets b)) (heap (_tickets r.1)) ∧
  _offset b <= _offset r.1 ∧
  (∀ cfg upd, (cfg, upd) ∈ work → update_id upd < _offset r.1) ∧
  wall r.2 = wall w ∧ trace w `prefix_of` trace r.2.
Proof.
  intros Hc. cbv zeta. unfold turn. unfold mbind, M_bind, bind.
  destruct (handle_all_good work b w) as [(Hc1 & He1 & Ho1 & k & evs & Ew) Hids].
  destruct (handle_all repr work b w) as [b1 w1]. cbn [fst snd] in *. subst w1.
  pose proof (consistent_step (Pass roster) (_tickets b1, grow w k evs) (Hc1 Hc)) as Hc2.
  pose proof (step_heap_evolves (Pass roster) (_tickets b1, grow w k evs)) as He2.
  pose proof (pass_frame roster (_tickets b1) (grow w k evs)) as Hf. cbv zeta in Hf.
  pose proof (pass_trace roster (_tickets b1) (grow w k evs)
                (consistent_wf _ (Hc1 Hc))) as Ht.
  cbn [step fst snd] in Hc2, He2.
  destruct (_process_escalations roster (_tickets b1) (grow w k evs)) as [s2 w2].
  unfold ret. cbn [fst snd _offset _tickets] in *.
  split_and!; try done.
  - by eapply heap_evolves_trans.
  - by destruct Hf as (_ & _ & -> & _).
  - rewrite Ht. cbn [grow trace]. etrans; apply deliver_prefix.
Qed.

End WithTables.

Lemma yo_key_never_fires_witness :
  _match_trigger [(u "ёлка, Ёлки", u "Есть")] (u "Есть ёлка?") = None.
Proof.
  apply yo_key_never_fires. intros row k Hr Hk.
  replace (_load_triggers [(u "ёлка, Ёлки", u "Есть")])
    with [(u "ёлка, Ёлки", u "Есть")] in Hr by (vm_compute; reflexivity).
  apply list_elem_of_singleton in Hr as ->. cbn [fst] in Hk.
  replace (trigger_keys (u "ёлка, Ёлки")) with [u "ёлка"; u "ёлки"] in Hk
    by (vm_compute; reflexivity).
  apply elem_of_cons in Hk as [->|Hk]; [apply list_elem_of_here|].
  apply list_elem_of_singleton in Hk as ->. apply list_elem_of_here.
Defined.

Lemma operator_update_witness :
  let r := handle_update quote (demo_setup []) (update_from 7 (u "+"))
             (mkBot 0 fresh_store) (world_at 65) in
  _tickets r.1 = (_claim_oldest 7 fresh_store).2 ∧
  (claimed_by <$> heap (_tickets r.1) !! 0%nat) = Some (Some 7).
Proof.
  intros r.
  destruct (operator_update quote (demo_setup [])
              (update_from 7 (u "+")) (mkBot 0 fresh_store) (world_at 65) 7
              (mkMessage (Some 7) (u "+")) eq_refl eq_refl) as (_ & _ & Hplus).
  { vm_compute. reflexivity. }
  destruct Hplus as [Hs Hm].
  { vm_compute. reflexivity. }
  split; [exact Hs|].
  change ((_claim_oldest 7 (_tickets (mkBot 0 fresh_store))).1) with (Some 0%nat) in Hm.
  destruct Hm as (t & t' & _ & _ & Ht' & Hc & _).
  fold r in Ht'. rewrite Ht'. cbn [fmap option_fmap option_map]. by rewrite Hc.
Defined.

Lemma triggers_update_witness :
  let cfg := demo_setup [(KEY_MODE, u " Triggers")] in
  let r := @handle_update latin_cyrillic down quote cfg (update_from 5 (u "Hello!"))
             (mkBot 0 fresh_store) (world_at 65) in
  _tickets r.1 = fresh_store ∧
  trace r.2 =
    [Logged INFO (INCOMING ++ str_of_Z 5 ++ TEXT_ ++ u "Hello!");
     Sent 5 (BOT_ ++ u "Здравствуйте");
     Logged ERROR (u "Telegram sendMessage HTTP 502: Bad Gateway")].
Proof.
  cbv zeta.
  assert (Hmode : answer_mode (env (demo_setup [(KEY_MODE, u " Triggers")]))
                  = MODE_TRIGGERS) by (vm_compute; reflexivity).
  pose proof (@triggers_update latin_cyrillic down quote
                (demo_setup [(KEY_MODE, u " Triggers")])
                (update_from 5 (u "Hello!")) (mkBot 0 fresh_store) (world_at 65) 5
                (mkMessage (Some 5) (u "Hello!")) eq_refl eq_refl eq_refl Hmode) as Hx.
  cbv zeta in Hx.
  destruct (_match_trigger _ _) as [ans|] eqn:E in Hx.
  - vm_compute in E. injection E as <-. destruct Hx as [Hs Hw].
    split; [exact Hs|]. rewrite Hw. vm_compute. reflexivity.
  - vm_compute in E. discriminate E.
Defined.

Lemma builder_update_witness :
  let r := handle_update quote (demo_setup []) (update_from 5 (u "сколько nokia"))
             (mkBot 0 fresh_store) (world_at 65) in
  _tickets r.1 = fresh_store ∧
  trace r.2 =
    [Logged INFO (INCOMING ++ str_of_Z 5 ++ TEXT_ ++ u "сколько nokia");
     Logged ERROR (UPDATE_ERROR ++ u "'sqlite3.Row' object has no attribute 'get'")].
Proof.
  cbv zeta.
  assert (Hmode : answer_mode (env (demo_setup [])) ≠ MODE_TRIGGERS)
    by (vm_compute; discriminate).
  pose proof (builder_update quote (demo_setup [])
                (update_from 5 (u "сколько nokia")) (mkBot 0 fresh_store) (world_at 65) 5
                (mkMessage (Some 5) (u "сколько nokia")) eq_refl eq_refl eq_refl Hmode) as Hx.
  cbv zeta in Hx.
  destruct (handle_customer_message _ _ _ _) as [d|e] eqn:E in Hx.
  - vm_compute in E. discriminate E.
  - destruct Hx as (_ & _ & Hs & Hw). split; [exact Hs|]. rewrite Hw. reflexivity.
Defined.

Lemma turn_invariants_witness :
  let r := turn quote [(demo_setup [], update_from 5 (u "xyz"))] demo_ops
             (mkBot 0 empty_store) (world_at 65) in
  consistent (_tickets r.1) ∧ 41 < _offset r.1.
Proof.
  cbv zeta.
  destruct (turn_invariants quote [(demo_setup [], update_from 5 (u "xyz"))] demo_ops
              (mkBot 0 empty_store) (world_at 65) consistent_empty_store)
    as (Hc & _ & _ & Hid & _).
  split; [exact Hc|].
  apply (Hid (demo_setup []) (update_from 5 (u "xyz"))). apply list_elem_of_here.
Defined.

End RunnerFacts.
